(** * Quest script core: control-flow graph, value-set analysis, stepping

    A shallow embedding of the script tool chain's control-flow analysis
    ([create_control_flow_graph], [register_value_set]) and of the
    debugger host's stepping operations ([QuestRunner.step_over],
    [QuestRunner.step_in]), with a model of the binary codec
    ([parse_bin], [write_bin]) as the specification describes it.

    JavaScript objects that are compared or keyed by reference are given an
    explicit identity: an [Instruction] carries [inst_id], a [BasicBlock]
    is identified by its position in [cfg_blocks], and the mutable
    [from]/[to] edge lists of the blocks live in that block store. *)

From Stdlib Require Import ZArith Lia.
From stdpp Require Import base option list gmap sets.

Set Default Proof Using "Type".

(** ** Outcomes of running a piece of the program

    [Done a] is a normal return, [Throw] an uncaught exception (a
    [TypeError] on reading a property of [undefined], or a failed
    assertion), [Diverge] an exhausted recursion budget. *)

Inductive outcome (A : Type) : Type :=
  | Done (a : A)
  | Throw
  | Diverge.

Arguments Done {A} a.
Arguments Throw {A}.
Arguments Diverge {A}.

Global Instance outcome_ret : MRet outcome := λ A a, Done a.

Global Instance outcome_bind : MBind outcome := λ A B k m,
  match m with
  | Done a => k a
  | Throw => Throw
  | Diverge => Diverge
  end.

(** A [for (const x of xs)] loop whose body may fail. *)
Fixpoint for_each {A S : Type} (body : S → A → outcome S)
    (xs : list A) (s : S) : outcome S :=
  match xs with
  | [] => Done s
  | x :: xs' => s' ← body s x; for_each body xs' s'
  end.

(** ** Instructions and segments *)

Module Opcode.
(** The opcodes the analysed code distinguishes; every other opcode of
    the table is [other code]. *)
Inductive t : Set :=
  | ret | jmp | jmp_on | jmp_off
  | jmp_e | jmpi_e | jmp_ne | jmpi_ne
  | ujmp_g | ujmpi_g | jmp_g | jmpi_g
  | ujmp_l | ujmpi_l | jmp_l | jmpi_l
  | ujmp_ge | ujmpi_ge | jmp_ge | jmpi_ge
  | ujmp_le | ujmpi_le | jmp_le | jmpi_le
  | switch_jmp
  | call | va_call | switch_call
  | let_ | leti | letb | letw | leto
  | other (code : Z).
End Opcode.

Record Arg : Set := { value : Z; arg_size : nat }.

Record AsmToken : Set := { line_no : Z; col : Z; len : Z }.

Record InstructionAsm : Set := {
  mnemonic : option AsmToken;
  asm_args : list AsmToken;
}.

Record Instruction : Set := {
  inst_id : nat;
  opcode : Opcode.t;
  args : list Arg;
  asm : option InstructionAsm;
}.

Record InstructionSegment : Set := {
  labels : list Z;
  instructions : list Instruction;
}.

(** [args[n].value]: throws when the instruction has no such operand. *)
Definition arg_value (args : list Arg) (n : nat) : outcome Z :=
  match args !! n with
  | Some a => Done (value a)
  | None => Throw
  end.

(** ** ValueSet *)

Module ValueSet.
(** Modelled from the spec: the class [ValueSet] (imported from
    "./ValueSet", not part of the sources at hand), "an abstract set of
    integers a register may hold at a point; supports singleton
    assignment, union with another ValueSet, emptiness/size query". *)
Definition t : Type := gset Z.
Definition new : t := ∅.
Definition set_value (_ : t) (v : Z) : t := {[ v ]}.
Definition union (a b : t) : t := a ∪ b.
Definition size (a : t) : nat := base.size a.
End ValueSet.

(** ** Control-flow graph *)

Module BranchType.
Inductive t : Set := None | Return | Jump | ConditionalJump | Call.
End BranchType.

Record BasicBlock : Set := {
  segment : InstructionSegment;
  start : nat;
  end_ : nat;
  branch_type : BranchType.t;
  branch_labels : list Z;
  from : list nat;
  to : list nat;
}.

Record ControlFlowGraph : Set := {
  cfg_blocks : list BasicBlock;
  cfg_instructions : gmap nat nat;
}.

Definition push_to (other : nat) (b : BasicBlock) : BasicBlock :=
  {| segment := segment b; start := start b; end_ := end_ b;
     branch_type := branch_type b; branch_labels := branch_labels b;
     from := from b; to := to b ++ [other] |}.

Definition push_from (this : nat) (b : BasicBlock) : BasicBlock :=
  {| segment := segment b; start := start b; end_ := end_ b;
     branch_type := branch_type b; branch_labels := branch_labels b;
     from := from b ++ [this]; to := to b |}.

(** [this.link_to(other)] on the block store. *)
Definition link_to (this other : nat) (blocks : list BasicBlock)
    : list BasicBlock :=
  alter (push_from this) other (alter (push_to other) this blocks).

(** The [switch (inst.opcode)] of [create_basic_blocks]: [Done None] is
    the [continue] of the default case. *)
Definition classify (inst : Instruction) (is_last : bool)
    : outcome (option (BranchType.t * list Z)) :=
  match opcode inst with
  | Opcode.ret => Done (Some (BranchType.Return, []))
  | Opcode.jmp =>
      l ← arg_value (args inst) 0; Done (Some (BranchType.Jump, [l]))
  | Opcode.jmp_on | Opcode.jmp_off =>
      l ← arg_value (args inst) 0;
      Done (Some (BranchType.ConditionalJump, [l]))
  | Opcode.jmp_e | Opcode.jmpi_e | Opcode.jmp_ne | Opcode.jmpi_ne
  | Opcode.ujmp_g | Opcode.ujmpi_g | Opcode.jmp_g | Opcode.jmpi_g
  | Opcode.ujmp_l | Opcode.ujmpi_l | Opcode.jmp_l | Opcode.jmpi_l
  | Opcode.ujmp_ge | Opcode.ujmpi_ge | Opcode.jmp_ge | Opcode.jmpi_ge
  | Opcode.ujmp_le | Opcode.ujmpi_le | Opcode.jmp_le | Opcode.jmpi_le =>
      l ← arg_value (args inst) 2;
      Done (Some (BranchType.ConditionalJump, [l]))
  | Opcode.switch_jmp =>
      Done (Some (BranchType.ConditionalJump, value <$> drop 1 (args inst)))
  | Opcode.call | Opcode.va_call =>
      l ← arg_value (args inst) 0; Done (Some (BranchType.Call, [l]))
  | Opcode.switch_call =>
      Done (Some (BranchType.Call, value <$> drop 1 (args inst)))
  | _ =>
      if is_last then Done (Some (BranchType.None, [])) else Done Datatypes.None
  end.

(** The instructions at indices [start], ..., [stop - 1]. *)
Definition slice {A : Type} (start stop : nat) (l : list A) : list A :=
  take (stop - start) (drop start l).

(** State threaded through block creation: the graph under construction
    and the label table. *)
Definition builder : Type := ControlFlowGraph * gmap Z nat.

(** [for (let j = block.start; j < block.end; j++)
      cfg.instructions.set(block.segment.instructions[j], block)],
    over the instructions of that range. *)
Definition set_instructions (id : nat) (m : gmap nat nat)
    (insts : list Instruction) : gmap nat nat :=
  foldl (λ m inst, <[inst_id inst := id]> m) m insts.

(** [for (const label of segment.labels) label_blocks.set(label, block)]. *)
Definition set_labels (id : nat) (label_blocks : gmap Z nat)
    (ls : list Z) : gmap Z nat :=
  foldl (λ m label, <[label := id]> m) label_blocks ls.

(** The body of [create_basic_blocks] after the [switch]: create the
    block, register its instructions, push it, register the labels. *)
Definition add_block (segment : InstructionSegment) (start i : nat)
    (first_block : bool) (bt : BranchType.t) (bl : list Z) (st : builder)
    : builder :=
  let '(cfg, label_blocks) := st in
  let block := {| segment := segment; start := start; end_ := i + 1;
                  branch_type := bt; branch_labels := bl;
                  from := []; to := [] |} in
  let id := length (cfg_blocks cfg) in
  ({| cfg_blocks := cfg_blocks cfg ++ [block];
      cfg_instructions :=
        set_instructions id (cfg_instructions cfg)
          (slice start (i + 1) (instructions segment)) |},
   if first_block then set_labels id label_blocks (labels segment)
   else label_blocks).

(** The [for (let i = 0; i < len; i++)] loop of [create_basic_blocks];
    [rest] holds [segment.instructions[i..]]. *)
Fixpoint create_basic_blocks_loop (segment : InstructionSegment)
    (rest : list Instruction) (i start : nat) (first_block : bool)
    (st : builder) : outcome builder :=
  match rest with
  | [] => Done st
  | inst :: rest' =>
      let len := length (instructions segment) in
      br ← classify inst (bool_decide (i = len - 1));
      match br with
      | Datatypes.None =>
          create_basic_blocks_loop segment rest' (S i) start first_block st
      | Some (bt, bl) =>
          create_basic_blocks_loop segment rest' (S i) (i + 1) false
            (add_block segment start i first_block bt bl st)
      end
  end.

Definition create_basic_blocks (st : builder) (segment : InstructionSegment)
    : outcome builder :=
  create_basic_blocks_loop segment (instructions segment) 0 0 true st.

(** The [for (const label of block.branch_labels)] loop of [link_blocks]. *)
Definition link_labels (label_blocks : gmap Z nat) (this : nat)
    (blocks : list BasicBlock) (bl : list Z) : list BasicBlock :=
  foldl (λ bs label,
           match label_blocks !! label with
           | Some to_block => link_to this to_block bs
           | Datatypes.None => bs
           end) blocks bl.

(** One iteration of the first loop of [link_blocks]; the state is the
    block store and the [callers] array. *)
Definition link_block (label_blocks : gmap Z nat)
    (st : list BasicBlock * list (nat * nat)) (i : nat)
    : list BasicBlock * list (nat * nat) :=
  let '(blocks, callers) := st in
  match blocks !! i with
  | Datatypes.None => st
  | Some block =>
      let next_block :=
        if decide (i + 1 < length blocks) then Some (i + 1)
        else Datatypes.None in
      match branch_type block with
      | BranchType.Return => st
      | BranchType.Call =>
          let callers' :=
            match next_block with
            | Some n => callers ++ [(i, n)]
            | Datatypes.None => callers
            end in
          (link_labels label_blocks i blocks (branch_labels block), callers')
      | BranchType.None | BranchType.ConditionalJump =>
          let blocks' :=
            match next_block with
            | Some n => link_to i n blocks
            | Datatypes.None => blocks
            end in
          (link_labels label_blocks i blocks' (branch_labels block), callers)
      | BranchType.Jump =>
          (link_labels label_blocks i blocks (branch_labels block), callers)
      end
  end.

(** The first loop of [link_blocks]: the edges and the pending
    (calling block, continuation block) pairs. *)
Definition link_edges (label_blocks : gmap Z nat) (blocks : list BasicBlock)
    : list BasicBlock * list (nat * nat) :=
  foldl (link_block label_blocks) (blocks, []) (seq 0 (length blocks)).

(** [link_returning_blocks(label_blocks, ret, block)]; [fuel] bounds the
    recursion depth. *)
Fixpoint link_returning_blocks (fuel : nat) (label_blocks : gmap Z nat)
    (ret block : nat) (blocks : list BasicBlock)
    : outcome (list BasicBlock) :=
  match fuel with
  | 0 => Diverge
  | S fuel' =>
      match blocks !! block with
      | Datatypes.None => Throw
      | Some b =>
          for_each
            (λ bs label,
               match label_blocks !! label with
               | Datatypes.None => Done bs
               | Some sub_block =>
                   match bs !! sub_block with
                   | Datatypes.None => Throw
                   | Some sb =>
                       let bs' :=
                         match branch_type sb with
                         | BranchType.Return => link_to sub_block ret bs
                         | _ => bs
                         end in
                       link_returning_blocks fuel' label_blocks ret sub_block bs'
                   end
               end)
            (branch_labels b) blocks
      end
  end.

(** The second loop of [link_blocks]. *)
Definition link_callers (fuel : nat) (label_blocks : gmap Z nat)
    (callers : list (nat * nat)) (blocks : list BasicBlock)
    : outcome (list BasicBlock) :=
  for_each (λ bs '(caller, ret),
              link_returning_blocks fuel label_blocks ret caller bs)
    callers blocks.

Definition link_blocks (fuel : nat) (cfg : ControlFlowGraph)
    (label_blocks : gmap Z nat) : outcome ControlFlowGraph :=
  let '(blocks, callers) := link_edges label_blocks (cfg_blocks cfg) in
  blocks' ← link_callers fuel label_blocks callers blocks;
  Done {| cfg_blocks := blocks'; cfg_instructions := cfg_instructions cfg |}.

Definition empty_builder : builder :=
  ({| cfg_blocks := []; cfg_instructions := ∅ |}, ∅).

(** The [for (const segment of segments)] loop of
    [create_control_flow_graph]. *)
Definition create_all_basic_blocks (segments : list InstructionSegment)
    : outcome builder :=
  for_each create_basic_blocks segments empty_builder.

Definition create_control_flow_graph (fuel : nat)
    (segments : list InstructionSegment) : outcome ControlFlowGraph :=
  '(cfg, label_blocks) ← create_all_basic_blocks segments;
  link_blocks fuel cfg label_blocks.

(** ** Value-set analysis *)

(** One iteration of the [for] loop of [find_value_set]; [self] is
    [find_value_set] itself, called at the copy point. *)
Definition scan_instruction (self : nat → nat → Z → outcome ValueSet.t)
    (block : nat) (b : BasicBlock) (register : Z)
    (values : ValueSet.t) (i : nat) : outcome ValueSet.t :=
  match instructions (segment b) !! i with
  | Datatypes.None => Throw
  | Some instruction =>
      match opcode instruction with
      | Opcode.let_ =>
          a0 ← arg_value (args instruction) 0;
          if decide (a0 = register)
          then a1 ← arg_value (args instruction) 1; self block i a1
          else Done values
      | Opcode.leti | Opcode.letb | Opcode.letw | Opcode.leto =>
          a0 ← arg_value (args instruction) 0;
          if decide (a0 = register)
          then a1 ← arg_value (args instruction) 1;
               Done (ValueSet.set_value values a1)
          else Done values
      | _ => Done values
      end
  end.

(** The [for (const from of block.from)] loop of [find_value_set]. *)
Definition union_predecessors (self : nat → nat → Z → outcome ValueSet.t)
    (blocks : list BasicBlock) (register : Z)
    (preds : list nat) (values : ValueSet.t) : outcome ValueSet.t :=
  for_each (λ values from,
              match blocks !! from with
              | Datatypes.None => Throw
              | Some fb =>
                  vs ← self from (end_ fb) register;
                  Done (ValueSet.union values vs)
              end) preds values.

(** [find_value_set(block, end, register)]; [fuel] bounds the recursion
    depth. *)
Fixpoint find_value_set (fuel : nat) (blocks : list BasicBlock)
    (block stop : nat) (register : Z) : outcome ValueSet.t :=
  match fuel with
  | 0 => Diverge
  | S fuel' =>
      match blocks !! block with
      | Datatypes.None => Throw
      | Some b =>
          values ←
            for_each
              (scan_instruction (find_value_set fuel' blocks) block b register)
              (seq (start b) (stop - start b)) ValueSet.new;
          if decide (ValueSet.size values = 0)
          then union_predecessors (find_value_set fuel' blocks) blocks
                 register (from b) values
          else Done values
      end
  end.

(** The [while (inst_idx < block.end)] loop of [register_value_set]:
    [n] is the number of indices still to look at. *)
Fixpoint find_inst_idx (b : BasicBlock) (instruction : Instruction)
    (inst_idx n : nat) : nat :=
  match n with
  | 0 => inst_idx
  | S n' =>
      match instructions (segment b) !! inst_idx with
      | Some x =>
          if decide (inst_id x = inst_id instruction) then inst_idx
          else find_inst_idx b instruction (S inst_idx) n'
      | Datatypes.None => find_inst_idx b instruction (S inst_idx) n'
      end
  end.

Definition register_value_set (fuel : nat) (cfg : ControlFlowGraph)
    (instruction : Instruction) (register : Z) : outcome ValueSet.t :=
  match cfg_instructions cfg !! inst_id instruction with
  | Some block =>
      match cfg_blocks cfg !! block with
      | Datatypes.None => Throw
      | Some b =>
          let inst_idx :=
            find_inst_idx b instruction (start b) (end_ b - start b) in
          find_value_set fuel (cfg_blocks cfg) block inst_idx register
      end
  | Datatypes.None => Done ValueSet.new
  end.

(** ** The backward scan the specification describes

    "Scan backward from that position within the same block: a
    direct-immediate-load instruction targeting [register] yields a
    singleton set and stops the scan; a register-to-register copy targeting
    [register] recursively resolves the value-set of the source register at
    the copy point; all other opcodes are treated as opaque. If the block
    start is reached without any resolving instruction, the result is the
    union of [register_value_set] queried at the end of every predecessor
    block."

    With [copy_falls_back = true] an empty set obtained through a copy is
    replaced by the predecessors' union as well. *)

Module Reference.

Inductive resolving : Set :=
  | Immediate (v : Z)
  | Copy (source : Z)
  | Opaque.

(** What an instruction does to [register], in the specification's
    terms. *)
Definition effect_on (register : Z) (instruction : Instruction)
    : resolving :=
  match args instruction with
  | a0 :: a1 :: _ =>
      if decide (value a0 = register) then
        match opcode instruction with
        | Opcode.let_ => Copy (value a1)
        | Opcode.leti | Opcode.letb | Opcode.letw | Opcode.leto =>
            Immediate (value a1)
        | _ => Opaque
        end
      else Opaque
  | _ => Opaque
  end.

(** Scan the indices [start b + n - 1], ..., [start b]; [at_start] is
    the result when the block start is reached. *)
Fixpoint scan_backward (copy_falls_back : bool)
    (self : nat → nat → Z → outcome ValueSet.t)
    (at_start : outcome ValueSet.t)
    (block : nat) (b : BasicBlock) (register : Z) (n : nat)
    : outcome ValueSet.t :=
  match n with
  | 0 => at_start
  | S n' =>
      let i := start b + n' in
      match effect_on register <$> instructions (segment b) !! i with
      | Some (Immediate v) => Done {[ v ]}
      | Some (Copy source) =>
          vs ← self block i source;
          if copy_falls_back && bool_decide (base.size vs = 0)
          then at_start else Done vs
      | _ => scan_backward copy_falls_back self at_start block b register n'
      end
  end.

Definition union_all (self : nat → nat → Z → outcome ValueSet.t)
    (blocks : list BasicBlock) (register : Z) (preds : list nat)
    : outcome ValueSet.t :=
  for_each (λ (acc : gset Z) p,
              match blocks !! p with
              | Datatypes.None => Throw
              | Some pb => vs ← self p (end_ pb) register; Done (acc ∪ vs)
              end) preds ∅.

Fixpoint value_set_at (copy_falls_back : bool) (fuel : nat)
    (blocks : list BasicBlock) (block stop : nat) (register : Z)
    : outcome ValueSet.t :=
  match fuel with
  | 0 => Diverge
  | S fuel' =>
      match blocks !! block with
      | Datatypes.None => Throw
      | Some b =>
          let self := value_set_at copy_falls_back fuel' blocks in
          scan_backward copy_falls_back self
            (union_all self blocks register (from b))
            block b register (stop - start b)
      end
  end.

Definition register_value_set (copy_falls_back : bool) (fuel : nat)
    (cfg : ControlFlowGraph) (instruction : Instruction) (register : Z)
    : outcome ValueSet.t :=
  match cfg_instructions cfg !! inst_id instruction with
  | Some block =>
      match cfg_blocks cfg !! block with
      | Datatypes.None => Throw
      | Some b =>
          value_set_at copy_falls_back fuel (cfg_blocks cfg) block
            (find_inst_idx b instruction (start b) (end_ b - start b))
            register
      end
  | Datatypes.None => Done ∅
  end.

End Reference.

(** ** The debugger host *)

Module SegmentType.
Inductive t : Set := Instructions | Data | String.
End SegmentType.

(** A segment of object code; only instruction segments have a content
    the stepping code looks at. *)
Inductive Segment : Set :=
  | InstructionSeg (s : InstructionSegment)
  | DataSeg (data_labels : list Z) (data : list Z)
  | StringSeg (string_labels : list Z) (chars : list Z).

Definition segment_type (s : Segment) : SegmentType.t :=
  match s with
  | InstructionSeg _ => SegmentType.Instructions
  | DataSeg _ _ => SegmentType.Data
  | StringSeg _ _ => SegmentType.String
  end.

Record QuestModel : Set := { object_code : list Segment }.

Record ExecutionLocation : Set := { seg_idx : nat; inst_idx : nat }.

(** Modelled from the spec: the part of the virtual machine the runner
    queries (the class [VirtualMachine] is not part of the sources at
    hand): [get_current_execution_location() -> {segment_index,
    instruction_index}] and [get_segment_index_by_label(label) ->
    segment_index], the latter free to fail. *)
Record VirtualMachine : Type := {
  get_current_execution_location : ExecutionLocation;
  get_segment_index_by_label : Z → outcome nat;
}.

Record QuestRunner : Type := {
  vm : VirtualMachine;
  quest : option QuestModel;
  stepping_breakpoints : list Z;
  break_on_next : bool;
}.

Definition set_break_on_next (v : bool) (this : QuestRunner) : QuestRunner :=
  {| vm := vm this; quest := quest this;
     stepping_breakpoints := stepping_breakpoints this;
     break_on_next := v |}.

Definition push_stepping_breakpoint (line : Z) (this : QuestRunner)
    : QuestRunner :=
  {| vm := vm this; quest := quest this;
     stepping_breakpoints := stepping_breakpoints this ++ [line];
     break_on_next := break_on_next this |}.

(** [defined(this.quest)] followed by [this.quest.object_code[index]] and
    the assertion on the segment's type. *)
Definition get_instruction_segment_by_index (this : QuestRunner)
    (index : nat) : outcome InstructionSegment :=
  match quest this with
  | Datatypes.None => Throw
  | Some q =>
      match object_code q !! index with
      | Some (InstructionSeg s) => Done s
      | Some _ => Throw
      | Datatypes.None => Throw
      end
  end.

Definition get_instruction_segment_by_label (this : QuestRunner)
    (label : Z) : outcome InstructionSegment :=
  seg_idx ← get_segment_index_by_label (vm this) label;
  get_instruction_segment_by_index this seg_idx.

(** [Done None] is the [undefined] the function returns when no [case]
    applies; the argument is [None] when the caller's array read gave
    [undefined]. *)
Definition get_step_innable_instruction_label_argument
    (instr : option Instruction) : outcome (option Z) :=
  match instr with
  | Datatypes.None => Throw
  | Some instr =>
      match opcode instr with
      | Opcode.va_call | Opcode.call =>
          l ← arg_value (args instr) 0; Done (Some l)
      | Opcode.switch_call =>
          l ← arg_value (args instr) 1; Done (Some l)
      | _ => Done Datatypes.None
      end
  end.

(** [if (dst_instr.asm && dst_instr.asm.mnemonic) push(line_no)]. *)
Definition break_at (dst_instr : option Instruction) (this : QuestRunner)
    : outcome QuestRunner :=
  match dst_instr with
  | Datatypes.None => Throw
  | Some dst_instr =>
      match asm dst_instr with
      | Some {| mnemonic := Some tok |} =>
          Done (push_stepping_breakpoint (line_no tok) this)
      | _ => Done this
      end
  end.

Definition step_over (this : QuestRunner) : outcome QuestRunner :=
  let execloc := get_current_execution_location (vm this) in
  match quest this with
  | Datatypes.None => Throw
  | Some _ =>
      src_segment ← get_instruction_segment_by_index this (seg_idx execloc);
      let cur_instr := instructions src_segment !! inst_idx execloc in
      dst_label ← get_step_innable_instruction_label_argument cur_instr;
      match dst_label with
      | Datatypes.None => Done (set_break_on_next true this)
      | Some _ =>
          let next_execloc :=
            if decide (length (instructions src_segment) ≤ inst_idx execloc + 1)
            then {| seg_idx := seg_idx execloc + 1; inst_idx := 0 |}
            else {| seg_idx := seg_idx execloc;
                    inst_idx := inst_idx execloc + 1 |} in
          dst_segment ←
            get_instruction_segment_by_index this (seg_idx next_execloc);
          break_at (instructions dst_segment !! inst_idx next_execloc) this
      end
  end.

Definition step_in (this : QuestRunner) : outcome QuestRunner :=
  let execloc := get_current_execution_location (vm this) in
  src_segment ← get_instruction_segment_by_index this (seg_idx execloc);
  let cur_instr := instructions src_segment !! inst_idx execloc in
  dst_label ← get_step_innable_instruction_label_argument cur_instr;
  match dst_label with
  | Datatypes.None => step_over this
  | Some dst_label =>
      dst_segment ← get_instruction_segment_by_label this dst_label;
      break_at (instructions dst_segment !! 0) this
  end.

(** ** Concrete programs used in examples *)

Definition new_arg (v : Z) : Arg := {| value := v; arg_size := 4 |}.

Definition new_instruction (id : nat) (op : Opcode.t) (vs : list Z)
    : Instruction :=
  {| inst_id := id; opcode := op; args := new_arg <$> vs;
     asm := Datatypes.None |}.

(** The test of [execution_loop] that decides whether the runner stops
    at the source location [srcloc]; [breakpoints] are the editor's. *)
Definition hit_breakpoint (this : QuestRunner) (breakpoints : list Z)
    (srcloc : AsmToken) : bool :=
  break_on_next this
  || bool_decide (line_no srcloc ∈ breakpoints)
  || bool_decide (line_no srcloc ∈ stepping_breakpoints this).

(** The label the stepping operations read from a call-classified
    instruction: the label operand of [call] and [va_call]; for
    [switch_call] operand 1, the first of its candidate labels (operand
    0 is the register that selects among them). *)
Definition call_target (instr : Instruction) : option Z :=
  match opcode instr with
  | Opcode.call | Opcode.va_call => value <$> args instr !! 0
  | Opcode.switch_call => value <$> args instr !! 1
  | _ => Datatypes.None
  end.

Definition call_classified (instr : Instruction) : Prop :=
  opcode instr = Opcode.call ∨ opcode instr = Opcode.va_call
  ∨ opcode instr = Opcode.switch_call.

(** The source line an instruction was assembled from. *)
Definition source_line (instr : Instruction) : option Z :=
  match asm instr with
  | Some a => line_no <$> mnemonic a
  | Datatypes.None => Datatypes.None
  end.

Definition at_line (line : Z) (instr : Instruction) : Instruction :=
  {| inst_id := inst_id instr; opcode := opcode instr; args := args instr;
     asm := Some {| mnemonic := Some {| line_no := line; col := 4; len := 3 |};
                    asm_args := [] |} |}.

(** A quest with a call that ends its segment and a call that does not:
<<
    0:  nop           (line 2)
        call 7        (line 3)
    1:  ret           (line 5)
    7:  call 1        (line 7)
        ret           (line 8)
>> *)
Definition call_quest : QuestModel :=
  {| object_code :=
       [ InstructionSeg
           {| labels := [0%Z];
              instructions :=
                [ at_line 2 (new_instruction 0 (Opcode.other 0) []);
                  at_line 3 (new_instruction 1 Opcode.call [7%Z]) ] |};
         InstructionSeg
           {| labels := [1%Z];
              instructions :=
                [ at_line 5 (new_instruction 2 Opcode.ret []) ] |};
         InstructionSeg
           {| labels := [7%Z];
              instructions :=
                [ at_line 7 (new_instruction 3 Opcode.call [1%Z]);
                  at_line 8 (new_instruction 4 Opcode.ret []) ] |} ] |}.

Definition call_quest_index (label : Z) : outcome nat :=
  if decide (label = 0%Z) then Done 0
  else if decide (label = 1%Z) then Done 1
  else if decide (label = 7%Z) then Done 2 else Throw.

Definition runner_at (seg inst : nat) : QuestRunner :=
  {| vm := {| get_current_execution_location :=
                {| seg_idx := seg; inst_idx := inst |};
              get_segment_index_by_label := call_quest_index |};
     quest := Some call_quest;
     stepping_breakpoints := [];
     break_on_next := false |}.

(** ** Vocabulary of the statements about the graph *)

(** The blocks [bs] cover the instruction indices [s], ..., [e - 1] of
    [seg] in order, each with a non-empty range that starts where the
    previous one ended. *)
Inductive tiling (seg : InstructionSegment)
    : nat → list BasicBlock → nat → Prop :=
  | tiling_nil s : tiling seg s [] s
  | tiling_cons s b bs e :
      segment b = seg → start b = s → start b < end_ b →
      tiling seg (end_ b) bs e →
      tiling seg s (b :: bs) e.

(** A block that has no edges yet. *)
Definition unlinked (b : BasicBlock) : Prop := from b = [] ∧ to b = [].

(** The block [id] has, within its range, an instruction whose identity
    is [key]. *)
Definition holds (blocks : list BasicBlock) (key id : nat) : Prop :=
  ∃ b j inst,
    blocks !! id = Some b ∧ start b ≤ j < end_ b
    ∧ instructions (segment b) !! j = Some inst ∧ inst_id inst = key.

(** The block [id] is the first block of a segment of [segments] that
    carries [label]. *)
Definition entry_of (segments : list InstructionSegment)
    (blocks : list BasicBlock) (label : Z) (id : nat) : Prop :=
  ∃ b, blocks !! id = Some b ∧ start b = 0
       ∧ label ∈ labels (segment b) ∧ segment b ∈ segments.

(** The fields of a block that are fixed at construction. *)
Definition static (b : BasicBlock)
    : InstructionSegment * nat * nat * BranchType.t * list Z :=
  (segment b, start b, end_ b, branch_type b, branch_labels b).

(** The blocks the labels [ls] resolve to, unresolvable ones dropped. *)
Definition resolve (label_blocks : gmap Z nat) (ls : list Z) : list nat :=
  omap (λ label, label_blocks !! label) ls.

(** The successors the first loop of [link_blocks] gives the block [b]
    at index [i] of [n] blocks. *)
Definition successors (label_blocks : gmap Z nat) (n i : nat)
    (b : BasicBlock) : list nat :=
  match branch_type b with
  | BranchType.Return => []
  | BranchType.Jump | BranchType.Call =>
      resolve label_blocks (branch_labels b)
  | BranchType.None | BranchType.ConditionalJump =>
      (if decide (i + 1 < n) then [i + 1] else [])
      ++ resolve label_blocks (branch_labels b)
  end.

(** What block creation has established once it has processed the
    segments [segments]: the blocks are the concatenation of one tiling
    per segment, no block has an edge, the instruction table maps the
    instructions of the segments to blocks holding them, and the label
    table maps labels to entry blocks. *)
Record built (segments : list InstructionSegment) (st : builder) : Prop := {
  built_groups :
    ∃ groups,
      cfg_blocks st.1 = concat groups
      ∧ Forall2 (λ seg g, tiling seg 0 g (length (instructions seg)))
          segments groups;
  built_unlinked : Forall unlinked (cfg_blocks st.1);
  built_map :
    ∀ key id, cfg_instructions st.1 !! key = Some id →
              holds (cfg_blocks st.1) key id;
  built_cover :
    ∀ seg inst, seg ∈ segments → inst ∈ instructions seg →
                is_Some (cfg_instructions st.1 !! inst_id inst);
  built_labels :
    ∀ label id, st.2 !! label = Some id →
                entry_of segments (cfg_blocks st.1) label id;
  built_resolve :
    ∀ seg label, seg ∈ segments → instructions seg ≠ [] →
                 label ∈ labels seg → is_Some (st.2 !! label);
}.

(** [bs'] is [bs] with [ts j] appended to the [to] list of each block
    [j], the fixed fields untouched. *)
Definition appended (ts : nat → list nat) (bs bs' : list BasicBlock)
    : Prop :=
  length bs' = length bs
  ∧ ∀ j b, bs !! j = Some b →
           ∃ b', bs' !! j = Some b' ∧ static b' = static b
                 ∧ to b' = to b ++ ts j.

(** [bs'] is [bs] with successors appended to [Return] blocks only. *)
Definition grows (bs bs' : list BasicBlock) : Prop :=
  ∃ ts, appended ts bs bs'
        ∧ ∀ j b, bs !! j = Some b →
                 branch_type b ≠ BranchType.Return → ts j = [].

(** The (calling block, continuation block) pair the first loop of
    [link_blocks] records for the block [b] at index [i] of [n] blocks. *)
Definition pending (n i : nat) (b : BasicBlock) : list (nat * nat) :=
  match branch_type b with
  | BranchType.Call => if decide (i + 1 < n) then [(i, i + 1)] else []
  | _ => []
  end.

Definition successors_at (label_blocks : gmap Z nat)
    (bs : list BasicBlock) (j : nat) : list nat :=
  match bs !! j with
  | Some b => successors label_blocks (length bs) j b
  | Datatypes.None => []
  end.

(** The blocks [g] partition the instructions of [seg]: they tile its
    instruction list, so that every instruction index lies in the range
    of exactly one of them. *)
Definition partitions (seg : InstructionSegment) (g : list BasicBlock)
    : Prop :=
  tiling seg 0 g (length (instructions seg))
  ∧ ∀ j, j < length (instructions seg) →
         ∃ k b, g !! k = Some b ∧ start b ≤ j < end_ b
                ∧ ∀ k' b', g !! k' = Some b' →
                           start b' ≤ j < end_ b' → k' = k.

(** A program that has every kind of block; label 9 is defined nowhere.
<<
    0:  leti r0, 5
        jmp_on 1, r0      block 0, ConditionalJump
        call 2            block 1, Call
        switch_jmp r0, 1, 9
                          block 2, ConditionalJump
        nop               block 3, None, last of its segment
    1:  call 2            block 4, Call, last of its segment
    2:  nop
        ret               block 5, Return
    3:  jmp 9             block 6, Jump
    4:  call 2            block 7, Call, the last block
>> *)
Definition sample_segment_0 : InstructionSegment :=
  {| labels := [0%Z];
     instructions :=
       [ new_instruction 0 Opcode.leti [0%Z; 5%Z];
         new_instruction 1 Opcode.jmp_on [1%Z; 0%Z];
         new_instruction 2 Opcode.call [2%Z];
         new_instruction 3 Opcode.switch_jmp [0%Z; 1%Z; 9%Z];
         new_instruction 4 (Opcode.other 0) [] ] |}.

Definition sample_segment_1 : InstructionSegment :=
  {| labels := [1%Z];
     instructions := [ new_instruction 5 Opcode.call [2%Z] ] |}.

Definition sample_segment_2 : InstructionSegment :=
  {| labels := [2%Z];
     instructions :=
       [ new_instruction 6 (Opcode.other 0) [];
         new_instruction 7 Opcode.ret [] ] |}.

Definition sample_segment_3 : InstructionSegment :=
  {| labels := [3%Z];
     instructions := [ new_instruction 8 Opcode.jmp [9%Z] ] |}.

Definition sample_segment_4 : InstructionSegment :=
  {| labels := [4%Z];
     instructions := [ new_instruction 9 Opcode.call [2%Z] ] |}.

Definition sample_program : list InstructionSegment :=
  [ sample_segment_0; sample_segment_1; sample_segment_2;
    sample_segment_3; sample_segment_4 ].

Definition graph_of (o : outcome ControlFlowGraph) : ControlFlowGraph :=
  match o with
  | Done cfg => cfg
  | _ => {| cfg_blocks := []; cfg_instructions := ∅ |}
  end.

Definition sample_graph : ControlFlowGraph :=
  Eval vm_compute in graph_of (create_control_flow_graph 4 sample_program).

(** One step of the walk of [link_returning_blocks]: from the block [i]
    to the block [j] that one of its branch labels resolves to. *)
Definition walks (label_blocks : gmap Z nat) (bs : list BasicBlock)
    (i j : nat) : Prop :=
  ∃ b label, bs !! i = Some b ∧ label ∈ branch_labels b
             ∧ label_blocks !! label = Some j.

(** A subroutine that calls itself:
<<
    0:  call 0
        ret
>> *)
Definition recursive_program : list InstructionSegment :=
  [ {| labels := [0%Z];
       instructions :=
         [ new_instruction 0 Opcode.call [0%Z];
           new_instruction 1 Opcode.ret [] ] |} ].

(** A call of a subroutine that returns at once, next to a loop that no
    call reaches:
<<
    0:  call 1
        ret
    1:  ret
    2:  jmp 2
>> *)
Definition call_and_loop_program : list InstructionSegment :=
  [ {| labels := [0%Z];
       instructions :=
         [ new_instruction 0 Opcode.call [1%Z];
           new_instruction 1 Opcode.ret [] ] |};
    {| labels := [1%Z];
       instructions := [ new_instruction 2 Opcode.ret [] ] |};
    {| labels := [2%Z];
       instructions := [ new_instruction 3 Opcode.jmp [2%Z] ] |} ].

Definition built_of (o : outcome builder) : builder :=
  match o with
  | Done st => st
  | _ => empty_builder
  end.

Definition call_and_loop_built : builder :=
  Eval vm_compute in
    built_of (create_all_basic_blocks call_and_loop_program).

(** An outcome other than running out of recursion budget. *)
Definition settled {A} (o : outcome A) : Prop := o ≠ Diverge.

(** A loop:
<<
    0:  jmp 0
>> *)
Definition loop_program : list InstructionSegment :=
  [ {| labels := [0%Z];
       instructions := [ new_instruction 0 Opcode.jmp [0%Z] ] |} ].

Definition loop_graph : ControlFlowGraph :=
  Eval vm_compute in graph_of (create_control_flow_graph 1 loop_program).

(** The predecessor edges the scan follows. *)
Definition precedes (blocks : list BasicBlock) (i p : nat) : Prop :=
  ∃ b, blocks !! i = Some b ∧ p ∈ from b.

(** The instructions the scan reads operands of have them. *)
Definition operands_ok (instruction : Instruction) : bool :=
  match opcode instruction with
  | Opcode.let_ | Opcode.leti | Opcode.letb | Opcode.letw | Opcode.leto =>
      bool_decide (2 ≤ length (args instruction))
  | _ => true
  end.

(** A block of a store of [n] blocks whose range lies within its segment,
    whose predecessors exist and whose instructions have their operands. *)
Definition block_ok (n : nat) (b : BasicBlock) : bool :=
  bool_decide (start b ≤ end_ b)
  && bool_decide (end_ b ≤ length (instructions (segment b)))
  && forallb (λ p, bool_decide (p < n)) (from b)
  && forallb operands_ok (instructions (segment b)).

(** A graph of such blocks whose instruction table refers to blocks of
    the graph. *)
Definition graph_ok (cfg : ControlFlowGraph) : bool :=
  forallb (block_ok (length (cfg_blocks cfg))) (cfg_blocks cfg)
  && forallb (λ kv, bool_decide (kv.2 < length (cfg_blocks cfg)))
       (map_to_list (cfg_instructions cfg)).

(** Two blocks that assign register 2 and join:
<<
    0:  jmp_on 1, r9      block 0
        leti r2, 1
        jmp 2             block 1
    1:  leti r2, 2
        jmp 2             block 2
    2:  nop
        ret               block 3
>> *)
Definition join_program : list InstructionSegment :=
  [ {| labels := [0%Z];
       instructions :=
         [ new_instruction 0 Opcode.jmp_on [1%Z; 9%Z];
           new_instruction 1 Opcode.leti [2%Z; 1%Z];
           new_instruction 2 Opcode.jmp [2%Z] ] |};
    {| labels := [1%Z];
       instructions :=
         [ new_instruction 3 Opcode.leti [2%Z; 2%Z];
           new_instruction 4 Opcode.jmp [2%Z] ] |};
    {| labels := [2%Z];
       instructions :=
         [ new_instruction 5 (Opcode.other 0) [];
           new_instruction 6 Opcode.ret [] ] |} ].

Definition join_graph : ControlFlowGraph :=
  Eval vm_compute in graph_of (create_control_flow_graph 1 join_program).

(** An instruction that leaves [register] alone: any opcode other than
    the copy and the immediate loads, or one of those with another
    target register. *)
Definition opaque_for (register : Z) (instruction : Instruction) : Prop :=
  match opcode instruction with
  | Opcode.let_ | Opcode.leti | Opcode.letb | Opcode.letw | Opcode.leto =>
      ∃ a0, args instruction !! 0 = Some a0 ∧ value a0 ≠ register
  | _ => True
  end.

(** A copy from a register nobody assigned, after an immediate load in
    the same block:
<<
    0:  leti r0, 1
        jmp 1             block 0
    1:  leti r0, 9
        let r0, r5
        ret               block 1
>> *)
Definition copy_program : list InstructionSegment :=
  [ {| labels := [0%Z];
       instructions :=
         [ new_instruction 0 Opcode.leti [0%Z; 1%Z];
           new_instruction 1 Opcode.jmp [1%Z] ] |};
    {| labels := [1%Z];
       instructions :=
         [ new_instruction 2 Opcode.leti [0%Z; 9%Z];
           new_instruction 3 Opcode.let_ [0%Z; 5%Z];
           new_instruction 4 Opcode.ret [] ] |} ].

Definition copy_graph : ControlFlowGraph :=
  Eval vm_compute in graph_of (create_control_flow_graph 1 copy_program).

(** The branch instructions have the operand that names their label. *)
Definition branch_operands_ok (inst : Instruction) : bool :=
  match opcode inst with
  | Opcode.jmp | Opcode.jmp_on | Opcode.jmp_off
  | Opcode.call | Opcode.va_call =>
      bool_decide (1 ≤ length (args inst))
  | Opcode.jmp_e | Opcode.jmpi_e | Opcode.jmp_ne | Opcode.jmpi_ne
  | Opcode.ujmp_g | Opcode.ujmpi_g | Opcode.jmp_g | Opcode.jmpi_g
  | Opcode.ujmp_l | Opcode.ujmpi_l | Opcode.jmp_l | Opcode.jmpi_l
  | Opcode.ujmp_ge | Opcode.ujmpi_ge | Opcode.jmp_ge | Opcode.jmpi_ge
  | Opcode.ujmp_le | Opcode.ujmpi_le | Opcode.jmp_le | Opcode.jmpi_le =>
      bool_decide (3 ≤ length (args inst))
  | _ => true
  end.

(** The fallthrough successor of the block [b] at index [i] of [n]
    blocks. *)
Definition fallthrough (n i : nat) (b : BasicBlock) : list nat :=
  match branch_type b with
  | BranchType.None | BranchType.ConditionalJump =>
      if decide (i + 1 < n) then [i + 1] else []
  | _ => []
  end.

(** ** Binary codec *)

Module Codec.

(** Modelled from the spec: the binary codec ([parse_bin] and
    [write_bin] of "core/data_formats/parsing/quest/bin", of which the
    sources at hand hold only tests). The specification fixes the
    structure: "Each Segment begins with a small header recording its
    kind and the labels that target it. Instruction Segments encode each
    Instruction as opcode-code followed by its arguments at widths fixed
    by the Opcode Table"; "instructions with codes above the single-byte
    range are decoded via a reserved escape byte that selects a
    secondary code page"; "a trailing variadic descriptor signals
    consume remaining operands of this type". It leaves the byte layout
    of a segment's frame, of an operand of a given type and of a
    variadic tail open: these are the fields of a [Format], with the
    Opcode Table and the escape byte. Bytes are integers. *)

Inductive ArgType : Set :=
  | Register | Imm8 | Imm16 | Imm32 | LabelRef | InlineString.

Inductive Value : Set :=
  | Int (z : Z)
  | Str (chars : list Z).

(** An opcode's ordered argument types, with the variadic tail if any. *)
Record Signature : Set := {
  params : list ArgType;
  variadic : option ArgType;
}.

Record Instruction : Set := {
  code : Z;
  operands : list Value;
}.

Inductive Kind : Set := InstructionsKind | DataKind | StringKind.

Inductive Content : Set :=
  | Instructions (instrs : list Instruction)
  | Data (bytes : list Z)
  | StringTable (bytes : list Z).

Record Segment : Set := {
  labels : list Z;
  content : Content;
}.

Record Format : Type := {
  table : Z → option Signature;
  escape : Z;
  (* one operand of a type *)
  put : ArgType → Value → list Z;
  get : ArgType → list Z → option (Value * list Z);
  valid : ArgType → Value → Prop;
  (* a variadic tail of operands of a type *)
  put_tail : ArgType → list Value → list Z;
  get_tail : ArgType → list Z → option (list Value * list Z);
  valid_tail : ArgType → list Value → Prop;
  (* the header of a segment, delimiting its body *)
  frame : Kind → list Z → list Z → list Z;
  unframe : list Z → option (Kind * list Z * list Z * list Z);
  valid_frame : Kind → list Z → list Z → Prop;
}.

(** What the encoding of the parts has to provide: each part is read
    back from the front of a byte sequence, and only from there. *)
Record Lawful (F : Format) : Prop := {
  escape_byte : (0 < escape F < 256)%Z;
  get_put : ∀ t v rest,
    valid F t v → get F t (put F t v ++ rest) = Some (v, rest);
  put_get : ∀ t bs v rest,
    get F t bs = Some (v, rest) → valid F t v ∧ bs = put F t v ++ rest;
  get_put_tail : ∀ t vs rest,
    valid_tail F t vs → get_tail F t (put_tail F t vs ++ rest) = Some (vs, rest);
  put_get_tail : ∀ t bs vs rest,
    get_tail F t bs = Some (vs, rest) →
    valid_tail F t vs ∧ bs = put_tail F t vs ++ rest;
  unframe_frame : ∀ k ls body rest,
    valid_frame F k ls body →
    unframe F (frame F k ls body ++ rest) = Some (k, ls, body, rest);
  frame_unframe : ∀ bs k ls body rest,
    unframe F bs = Some (k, ls, body, rest) →
    valid_frame F k ls body ∧ bs = frame F k ls body ++ rest;
  frame_nonempty : ∀ k ls body, frame F k ls body ≠ [];
}.

Definition is_byte (b : Z) : Prop := (0 ≤ b < 256)%Z.

(** The codes the two code pages can express. *)
Definition valid_code (F : Format) (c : Z) : Prop :=
  ((0 ≤ c < 256)%Z ∧ c ≠ escape F)
  ∨ (256 * escape F ≤ c < 256 * escape F + 256)%Z.

Definition write_code (F : Format) (c : Z) : list Z :=
  if decide (c < 256)%Z then [c] else [escape F; (c - 256 * escape F)%Z].

Definition read_code (F : Format) (bs : list Z) : option (Z * list Z) :=
  match bs with
  | [] => None
  | b :: rest =>
      if decide (b = escape F) then
        match rest with
        | [] => None
        | lo :: rest' =>
            if decide (is_byte lo)
            then Some ((256 * escape F + lo)%Z, rest') else None
        end
      else if decide (is_byte b) then Some (b, rest) else None
  end.

(** The operands of the fixed argument types [ts], in order. *)
Fixpoint write_params (F : Format) (ts : list ArgType) (vs : list Value)
    : list Z :=
  match ts, vs with
  | t :: ts', v :: vs' => put F t v ++ write_params F ts' vs'
  | _, _ => []
  end.

Fixpoint read_params (F : Format) (ts : list ArgType) (bs : list Z)
    : option (list Value * list Z) :=
  match ts with
  | [] => Some ([], bs)
  | t :: ts' =>
      '(v, rest) ← get F t bs;
      '(vs, rest') ← read_params F ts' rest;
      Some (v :: vs, rest')
  end.

Definition write_operands (F : Format) (sig : Signature) (vs : list Value)
    : list Z :=
  write_params F (params sig) vs
  ++ match variadic sig with
     | Some t => put_tail F t (drop (length (params sig)) vs)
     | None => []
     end.

Definition read_operands (F : Format) (sig : Signature) (bs : list Z)
    : option (list Value * list Z) :=
  '(vs, rest) ← read_params F (params sig) bs;
  match variadic sig with
  | Some t => '(ws, rest') ← get_tail F t rest; Some (vs ++ ws, rest')
  | None => Some (vs, rest)
  end.

Definition valid_operands (F : Format) (sig : Signature) (vs : list Value)
    : Prop :=
  Forall2 (valid F) (params sig) (take (length (params sig)) vs)
  ∧ match variadic sig with
    | Some t => valid_tail F t (drop (length (params sig)) vs)
    | None => length vs = length (params sig)
    end.

Definition valid_instruction (F : Format) (i : Instruction) : Prop :=
  valid_code F (code i)
  ∧ ∃ sig, table F (code i) = Some sig ∧ valid_operands F sig (operands i).

Definition write_instruction (F : Format) (i : Instruction) : list Z :=
  write_code F (code i)
  ++ match table F (code i) with
     | Some sig => write_operands F sig (operands i)
     | None => []
     end.

Definition read_instruction (F : Format) (bs : list Z)
    : option (Instruction * list Z) :=
  '(c, rest) ← read_code F bs;
  sig ← table F c;
  '(vs, rest') ← read_operands F sig rest;
  Some ({| code := c; operands := vs |}, rest').

Definition write_instructions (F : Format) (insts : list Instruction)
    : list Z :=
  concat (write_instruction F <$> insts).

(** Instructions are read until the body is used up; [fuel] bounds the
    number of instructions. *)
Fixpoint read_instructions (F : Format) (fuel : nat) (bs : list Z)
    : option (list Instruction) :=
  match bs with
  | [] => Some []
  | _ =>
      match fuel with
      | 0 => None
      | S fuel' =>
          '(i, rest) ← read_instruction F bs;
          insts ← read_instructions F fuel' rest;
          Some (i :: insts)
      end
  end.

Definition kind_of (c : Content) : Kind :=
  match c with
  | Instructions _ => InstructionsKind
  | Data _ => DataKind
  | StringTable _ => StringKind
  end.

Definition write_content (F : Format) (c : Content) : list Z :=
  match c with
  | Instructions insts => write_instructions F insts
  | Data bytes => bytes
  | StringTable bytes => bytes
  end.

Definition read_content (F : Format) (k : Kind) (body : list Z)
    : option Content :=
  match k with
  | InstructionsKind =>
      Instructions <$> read_instructions F (length body) body
  | DataKind => Some (Data body)
  | StringKind => Some (StringTable body)
  end.

Definition valid_segment (F : Format) (s : Segment) : Prop :=
  valid_frame F (kind_of (content s)) (labels s)
    (write_content F (content s))
  ∧ match content s with
    | Instructions insts => Forall (valid_instruction F) insts
    | _ => True
    end.

Definition write_segment (F : Format) (s : Segment) : list Z :=
  frame F (kind_of (content s)) (labels s) (write_content F (content s)).

(** Modelled from the spec: [write_bin], absent from the sources at
    hand; [write(Segment[]) -> bytes], one frame per segment. *)
Definition write (F : Format) (segments : list Segment) : list Z :=
  concat (write_segment F <$> segments).

Fixpoint read_segments (F : Format) (fuel : nat) (bs : list Z)
    : option (list Segment) :=
  match bs with
  | [] => Some []
  | _ =>
      match fuel with
      | 0 => None
      | S fuel' =>
          '(k, ls, body, rest) ← unframe F bs;
          c ← read_content F k body;
          segments ← read_segments F fuel' rest;
          Some ({| labels := ls; content := c |} :: segments)
      end
  end.

(** Modelled from the spec: [parse_bin], absent from the sources at
    hand; [parse(bytes) -> Segment[]], [None] for a byte sequence that
    is not object code. *)
Definition parse (F : Format) (bs : list Z) : option (list Segment) :=
  read_segments F (length bs) bs.

End Codec.

(** ** A byte layout

    Modelled from the spec: a byte layout for [parse_bin] and
    [write_bin], whose sources are absent. The specification leaves the
    layout open; this is one way to fill it in, used to show that the
    requirements on a [Codec.Format] can be met: integers are
    little-endian at the width of their type, strings end with a zero
    byte, a variadic tail and the label list are preceded by a count
    byte, and the body of a segment by its length on four bytes. *)

Module PlainFormat.

Fixpoint put_int (w : nat) (z : Z) : list Z :=
  match w with
  | 0 => []
  | S w' => (z mod 256)%Z :: put_int w' (z / 256)%Z
  end.

Fixpoint get_int (w : nat) (bs : list Z) : option (Z * list Z) :=
  match w with
  | 0 => Some (0%Z, bs)
  | S w' =>
      match bs with
      | [] => None
      | b :: rest =>
          if decide (Codec.is_byte b) then
            '(z, rest') ← get_int w' rest; Some ((b + 256 * z)%Z, rest')
          else None
      end
  end.

Definition fits (w : nat) (z : Z) : Prop := (0 ≤ z < 256 ^ Z.of_nat w)%Z.

Definition is_char (c : Z) : Prop := (0 < c < 256)%Z.

Fixpoint get_string (bs : list Z) : option (list Z * list Z) :=
  match bs with
  | [] => None
  | b :: rest =>
      if decide (b = 0%Z) then Some ([], rest)
      else if decide (is_char b) then
        '(cs, rest') ← get_string rest; Some (b :: cs, rest')
      else None
  end.

Definition width (t : Codec.ArgType) : nat :=
  match t with
  | Codec.Register | Codec.Imm8 => 1
  | Codec.Imm16 | Codec.LabelRef => 2
  | Codec.Imm32 => 4
  | Codec.InlineString => 0
  end.

Definition put (t : Codec.ArgType) (v : Codec.Value) : list Z :=
  match t, v with
  | Codec.InlineString, Codec.Str cs => cs ++ [0%Z]
  | Codec.InlineString, Codec.Int _ => []
  | _, Codec.Int z => put_int (width t) z
  | _, Codec.Str _ => []
  end.

Definition get (t : Codec.ArgType) (bs : list Z)
    : option (Codec.Value * list Z) :=
  match t with
  | Codec.InlineString =>
      '(cs, rest) ← get_string bs; Some (Codec.Str cs, rest)
  | _ => '(z, rest) ← get_int (width t) bs; Some (Codec.Int z, rest)
  end.

Definition valid (t : Codec.ArgType) (v : Codec.Value) : Prop :=
  match t, v with
  | Codec.InlineString, Codec.Str cs => Forall is_char cs
  | Codec.InlineString, Codec.Int _ => False
  | _, Codec.Int z => fits (width t) z
  | _, Codec.Str _ => False
  end.

(** [n] items, each read by [g]. *)
Fixpoint get_many {A} (g : list Z → option (A * list Z)) (n : nat)
    (bs : list Z) : option (list A * list Z) :=
  match n with
  | 0 => Some ([], bs)
  | S n' =>
      '(x, rest) ← g bs;
      '(xs, rest') ← get_many g n' rest;
      Some (x :: xs, rest')
  end.

Definition put_tail (t : Codec.ArgType) (vs : list Codec.Value) : list Z :=
  put_int 1 (Z.of_nat (length vs)) ++ concat (put t <$> vs).

Definition get_tail (t : Codec.ArgType) (bs : list Z)
    : option (list Codec.Value * list Z) :=
  '(n, rest) ← get_int 1 bs; get_many (get t) (Z.to_nat n) rest.

Definition valid_tail (t : Codec.ArgType) (vs : list Codec.Value) : Prop :=
  length vs < 256 ∧ Forall (valid t) vs.

Definition kind_byte (k : Codec.Kind) : Z :=
  match k with
  | Codec.InstructionsKind => 0
  | Codec.DataKind => 1
  | Codec.StringKind => 2
  end.

Definition byte_kind (b : Z) : option Codec.Kind :=
  if decide (b = 0%Z) then Some Codec.InstructionsKind
  else if decide (b = 1%Z) then Some Codec.DataKind
  else if decide (b = 2%Z) then Some Codec.StringKind
  else None.

Definition frame (k : Codec.Kind) (ls body : list Z) : list Z :=
  kind_byte k
  :: put_int 1 (Z.of_nat (length ls)) ++ concat (put_int 2 <$> ls)
  ++ put_int 4 (Z.of_nat (length body)) ++ body.

Definition unframe (bs : list Z)
    : option (Codec.Kind * list Z * list Z * list Z) :=
  match bs with
  | [] => None
  | b :: r0 =>
      k ← byte_kind b;
      '(n, r1) ← get_int 1 r0;
      '(ls, r2) ← get_many (get_int 2) (Z.to_nat n) r1;
      '(m, r3) ← get_int 4 r2;
      if decide (Z.to_nat m ≤ length r3)
      then Some (k, ls, take (Z.to_nat m) r3, drop (Z.to_nat m) r3)
      else None
  end.

Definition valid_frame (k : Codec.Kind) (ls body : list Z) : Prop :=
  length ls < 256 ∧ Forall (fits 2) ls ∧ fits 4 (Z.of_nat (length body)).

(** A small Opcode Table; the escape byte is 0xF8. *)
Definition table (c : Z) : option Codec.Signature :=
  if decide (c = 0x01%Z)
  then Some {| Codec.params := []; Codec.variadic := None |}
  else if decide (c = 0x09%Z)
  then Some {| Codec.params := [Codec.Register; Codec.Imm32];
               Codec.variadic := None |}
  else if decide (c = 0x28%Z)
  then Some {| Codec.params := [Codec.LabelRef]; Codec.variadic := None |}
  else if decide (c = 0x40%Z)
  then Some {| Codec.params := [Codec.Register];
               Codec.variadic := Some Codec.LabelRef |}
  else if decide (c = 0xF801%Z)
  then Some {| Codec.params := [Codec.InlineString];
               Codec.variadic := None |}
  else None.

Definition format : Codec.Format :=
  {| Codec.table := table; Codec.escape := 0xF8;
     Codec.put := put; Codec.get := get; Codec.valid := valid;
     Codec.put_tail := put_tail; Codec.get_tail := get_tail;
     Codec.valid_tail := valid_tail;
     Codec.frame := frame; Codec.unframe := unframe;
     Codec.valid_frame := valid_frame |}.

(** The example program of the specification, [switch_jmp r90, 100, 101,
    102] followed by [ret] under label 0, with an instruction of the
    secondary code page and a data segment. *)
Definition example : list Codec.Segment :=
  [ {| Codec.labels := [0%Z];
       Codec.content :=
         Codec.Instructions
           [ {| Codec.code := 0x40;
                Codec.operands :=
                  [Codec.Int 90; Codec.Int 100; Codec.Int 101;
                   Codec.Int 102] |};
             {| Codec.code := 0xF801;
                Codec.operands := [Codec.Str [104; 105]%Z] |};
             {| Codec.code := 0x01; Codec.operands := [] |} ] |};
    {| Codec.labels := [100; 101]%Z;
       Codec.content := Codec.Data [1; 2; 3]%Z |} ].

End PlainFormat.

(** ** Further vocabulary of the statements about the graph *)

(** How often the block [x] occurs in an edge list. *)
Definition occurrences (x : nat) (l : list nat) : nat :=
  length (filter (λ y, y = x) l).

(** [from] mirrors [to]: the block [j] is as often a successor of the
    block [i] as [i] is a predecessor of [j]. *)
Definition mirrored (blocks : list BasicBlock) : Prop :=
  ∀ i j bi bj, blocks !! i = Some bi → blocks !! j = Some bj →
               occurrences j (to bi) = occurrences i (from bj).

(** Every edge of a block leads to a block of the store. *)
Definition edges_closed (blocks : list BasicBlock) : Prop :=
  ∀ i b, blocks !! i = Some b →
         ∀ j, j ∈ to b ∨ j ∈ from b → j < length blocks.

(** The block [j] is a [Return] block that the walk of
    [link_returning_blocks] reaches from the block [block] in one or
    more steps along branch labels. *)
Definition returns_from (label_blocks : gmap Z nat)
    (blocks : list BasicBlock) (block j : nat) : Prop :=
  tc (walks label_blocks blocks) block j
  ∧ ∃ b, blocks !! j = Some b ∧ branch_type b = BranchType.Return.

(** The block is closed by its last instruction, with the branch type
    and the labels [create_basic_blocks] reads from it, and no
    instruction before the last one closes a block. *)
Definition closed_by_last (b : BasicBlock) : Prop :=
  let insts := instructions (segment b) in
  (∃ last,
      insts !! (end_ b - 1) = Some last
      ∧ classify last (bool_decide (end_ b - 1 = length insts - 1))
        = Done (Some (branch_type b, branch_labels b)))
  ∧ ∀ j inst,
      start b ≤ j → j + 1 < end_ b → insts !! j = Some inst →
      classify inst (bool_decide (j = length insts - 1))
      = Done Datatypes.None.

(** The instruction loads an immediate value into a register. *)
Definition immediate_load (instruction : Instruction) : Prop :=
  opcode instruction = Opcode.leti ∨ opcode instruction = Opcode.letb
  ∨ opcode instruction = Opcode.letw ∨ opcode instruction = Opcode.leto.

(** The value [v] is loaded by an immediate load that a scan of the
    block [block] stopping before [stop] can reach: a load of [block]
    itself before [stop], or a load within the range of a block from
    which [block] is reached along one or more predecessor edges. *)
Definition loaded_before (blocks : list BasicBlock) (block stop : nat)
    (v : Z) : Prop :=
  ∃ p b i instruction,
    blocks !! p = Some b
    ∧ instructions (segment b) !! i = Some instruction
    ∧ immediate_load instruction
    ∧ value <$> args instruction !! 1 = Some v
    ∧ start b ≤ i
    ∧ ((p = block ∧ i < stop)
       ∨ (tc (precedes blocks) block p ∧ i < end_ b)).

(** ** Register ranges of the data-flow state *)

Module DataView.
(** A JavaScript [DataView] is modelled by the bytes of the buffer
    behind it. [new DataView(new ArrayBuffer(byte_length))] is
    zero-filled. *)
Definition new (byte_length : nat) : list Z := replicate byte_length 0%Z.

(** The signed 32-bit integer an integer is converted to. *)
Definition to_int32 (z : Z) : Z := ((z + 2 ^ 31) mod 2 ^ 32 - 2 ^ 31)%Z.

(** The four bytes of a 32-bit integer, most significant first (a
    [DataView] is big-endian unless told otherwise). *)
Definition bytes_of (value : Z) : Z * Z * Z * Z :=
  let u := (value mod 2 ^ 32)%Z in
  ((u / 2 ^ 24)%Z, ((u / 2 ^ 16) mod 256)%Z, ((u / 2 ^ 8) mod 256)%Z,
   (u mod 256)%Z).

Definition value_of (b0 b1 b2 b3 : Z) : Z :=
  to_int32 (((b0 * 256 + b1) * 256 + b2) * 256 + b3).

(** The access lies within the view; outside it a [RangeError] is
    thrown. *)
Definition in_range (view : list Z) (byteOffset : Z) : bool :=
  bool_decide (0 ≤ byteOffset ∧ byteOffset + 4 ≤ Z.of_nat (length view))%Z.

(** [view.getInt32(byteOffset)]. *)
Definition getInt32 (view : list Z) (byteOffset : Z) : outcome Z :=
  if in_range view byteOffset then
    let k := Z.to_nat byteOffset in
    match view !! k, view !! (k + 1), view !! (k + 2), view !! (k + 3) with
    | Some b0, Some b1, Some b2, Some b3 => Done (value_of b0 b1 b2 b3)
    | _, _, _, _ => Throw
    end
  else Throw.

(** [view.setInt32(byteOffset, value)]. *)
Definition setInt32 (view : list Z) (byteOffset value : Z) : outcome (list Z) :=
  if in_range view byteOffset then
    let k := Z.to_nat byteOffset in
    let '(b0, b1, b2, b3) := bytes_of value in
    Done (<[k + 3 := b3]> (<[k + 2 := b2]> (<[k + 1 := b1]>
            (<[k := b0]> view))))
  else Throw.
End DataView.

Module DfState.
Record t : Type := { registers : list Z }.

(** [new DfState(other?)]: a copy of the other state's buffer, or a
    fresh buffer of [2 * 4 * 256] bytes. *)
Definition new (other : option t) : t :=
  match other with
  | Some other => {| registers := registers other |}
  | Datatypes.None => {| registers := DataView.new (2 * 4 * 256) |}
  end.

Definition get_min (this : t) (register : Z) : outcome Z :=
  DataView.getInt32 (registers this) (2 * register).

Definition get_max (this : t) (register : Z) : outcome Z :=
  DataView.getInt32 (registers this) (2 * register + 1).

Definition set (this : t) (register min max : Z) : outcome t :=
  view ← DataView.setInt32 (registers this) (2 * register) min;
  view' ← DataView.setInt32 view (2 * register + 1) max;
  Done {| registers := view' |}.

(** A state whose buffer has the size the constructor gives it. *)
Definition sized (this : t) : Prop := length (registers this) = 2 * 4 * 256.
End DfState.

(** ** The execution loop of the debugger host *)

Module ExecutionResult.
(** The results [execution_loop] distinguishes; [Ok] stands for every
    result its [switch] has no case for. *)
Inductive t : Set :=
  | Ok | WaitingVsync | WaitingInput | WaitingSelection | Halted.
End ExecutionResult.

(** The operations of the virtual machine that [execution_loop] calls.
    The class [VirtualMachine] is not part of the sources at hand, so
    the machine is a parameter: any states [M] with these operations.
    [view] gives the answers a state has for the queries of the
    stepping operations. *)
Record Machine (M : Type) : Type := {
  execute : M → ExecutionResult.t * M;
  get_current_source_location : M → option AsmToken;
  vsync : M → M;
  list_select : Z → M → M;
  view : M → VirtualMachine;
}.

Arguments execute {M}.
Arguments get_current_source_location {M}.
Arguments vsync {M}.
Arguments list_select {M}.
Arguments view {M}.

(** The runner with the state of its machine, the number of animation
    frames it has requested and the execution location shown by the
    assembly editor. *)
Record Debugger (M : Type) : Type := {
  runner : QuestRunner;
  machine : M;
  scheduled_frames : nat;
  execution_location : option Z;
}.

Arguments runner {M}.
Arguments machine {M}.
Arguments scheduled_frames {M}.
Arguments execution_location {M}.

Definition set_vm (v : VirtualMachine) (this : QuestRunner) : QuestRunner :=
  {| vm := v; quest := quest this;
     stepping_breakpoints := stepping_breakpoints this;
     break_on_next := break_on_next this |}.

(** [this.stepping_breakpoints.length = 0]. *)
Definition clear_stepping_breakpoints (this : QuestRunner) : QuestRunner :=
  {| vm := vm this; quest := quest this;
     stepping_breakpoints := [];
     break_on_next := break_on_next this |}.

(** The state in which the loop goes round again: [m] is the machine
    as the [switch] left it, [frames] the number of animation frames
    the [switch] requested. *)
Definition continue_with {M : Type} (ops : Machine M) (this : QuestRunner)
    (m : M) (frames : nat) (d : Debugger M) : Debugger M :=
  {| runner := set_vm (view ops m) this; machine := m;
     scheduled_frames := scheduled_frames d + frames;
     execution_location := execution_location d |}.

(** How one round of the [while (true)] ends: with [break exec_loop],
    or by going round again. *)
Inductive round (M : Type) : Type :=
  | Break (d : Debugger M)
  | Again (d : Debugger M).

Arguments Break {M}.
Arguments Again {M}.

(** The body of the [while (true)] of [execution_loop]; [breakpoints]
    are the editor's breakpoints. *)
Definition execution_round {M : Type} (ops : Machine M)
    (breakpoints : list Z) (d : Debugger M) : round M :=
  let '(result, m) := execute ops (machine d) in
  let this := set_vm (view ops m) (runner d) in
  let stop :=
    match get_current_source_location ops m with
    | Some srcloc =>
        if hit_breakpoint this breakpoints srcloc then Some srcloc
        else Datatypes.None
    | Datatypes.None => Datatypes.None
    end in
  match stop with
  | Some srcloc =>
      Break {| runner := clear_stepping_breakpoints this; machine := m;
               scheduled_frames := scheduled_frames d;
               execution_location := Some (line_no srcloc) |}
  | Datatypes.None =>
      let this := set_break_on_next false this in
      match result with
      | ExecutionResult.WaitingVsync =>
          Again (continue_with ops this (vsync ops m) 1 d)
      | ExecutionResult.WaitingInput =>
          Again (continue_with ops this m 1 d)
      | ExecutionResult.WaitingSelection =>
          Again (continue_with ops this (list_select ops 0 m) 1 d)
      | ExecutionResult.Halted =>
          Break {| runner := this; machine := m;
                   scheduled_frames := scheduled_frames d;
                   execution_location := Datatypes.None |}
      | ExecutionResult.Ok =>
          Again (continue_with ops this m 0 d)
      end
  end.

(** [execution_loop], one invocation; [fuel] bounds the number of
    rounds. *)
Fixpoint execution_loop {M : Type} (ops : Machine M) (breakpoints : list Z)
    (fuel : nat) (d : Debugger M) : outcome (Debugger M) :=
  match fuel with
  | 0 => Diverge
  | S fuel' =>
      match execution_round ops breakpoints d with
      | Break d' => Done d'
      | Again d' => execution_loop ops breakpoints fuel' d'
      end
  end.

(** The state [execution_loop] stops in when it stops at [srcloc]
    right after the first instruction it executes. *)
Definition stopped_after_one {M : Type} (ops : Machine M)
    (srcloc : AsmToken) (d : Debugger M) : Debugger M :=
  let m := (execute ops (machine d)).2 in
  {| runner := clear_stepping_breakpoints (set_vm (view ops m) (runner d));
     machine := m;
     scheduled_frames := scheduled_frames d;
     execution_location := Some (line_no srcloc) |}.

(** A machine that runs a straight line of located instructions: its
    state is the number of instructions executed, the instruction
    executed last is at line [10 + state]. *)
Definition line_machine : Machine nat :=
  {| execute := λ m, (ExecutionResult.Ok, S m);
     get_current_source_location :=
       λ m, Some {| line_no := 10 + Z.of_nat m; col := 4; len := 3 |};
     vsync := λ m, m;
     list_select := λ _ m, m;
     view := λ m,
       {| get_current_execution_location := {| seg_idx := 0; inst_idx := m |};
          get_segment_index_by_label := λ _, Throw |} |}.

Definition with_runner {M : Type} (this : QuestRunner) (d : Debugger M)
    : Debugger M :=
  {| runner := this; machine := machine d;
     scheduled_frames := scheduled_frames d;
     execution_location := execution_location d |}.

Definition line_debugger (break_on_next : bool) : Debugger nat :=
  {| runner := {| vm := view line_machine 0; quest := Some call_quest;
                  stepping_breakpoints := [11%Z];
                  break_on_next := break_on_next |};
     machine := 0; scheduled_frames := 0;
     execution_location := Datatypes.None |}.

(** What an invocation of [execution_loop] that started in [d] has left
    behind in [d']: it stopped at a source location, or the machine
    halted. *)
Definition exit_state {M : Type} (ops : Machine M) (breakpoints : list Z)
    (d d' : Debugger M) : Prop :=
  (∃ srcloc,
      get_current_source_location ops (machine d') = Some srcloc
      ∧ execution_location d' = Some (line_no srcloc)
      ∧ stepping_breakpoints (runner d') = []
      ∧ (line_no srcloc ∈ breakpoints
         ∨ line_no srcloc ∈ stepping_breakpoints (runner d)
         ∨ break_on_next (runner d') = true)
      ∧ (break_on_next (runner d') = true →
         break_on_next (runner d) = true
         ∧ d' = stopped_after_one ops srcloc d))
  ∨ ((∃ m, execute ops m = (ExecutionResult.Halted, machine d'))
     ∧ execution_location d' = Datatypes.None
     ∧ break_on_next (runner d') = false
     ∧ stepping_breakpoints (runner d') = stepping_breakpoints (runner d)).

(** A machine that only ever waits for the next frame. *)
Definition waiting_machine : Machine nat :=
  {| execute := λ m, (ExecutionResult.WaitingVsync, S m);
     get_current_source_location :=
       λ m, Some {| line_no := 10 + Z.of_nat m; col := 4; len := 3 |};
     vsync := λ m, m;
     list_select := λ _ m, m;
     view := λ m,
       {| get_current_execution_location := {| seg_idx := 0; inst_idx := m |};
          get_segment_index_by_label := λ _, Throw |} |}.

Definition waiting_debugger : Debugger nat :=
  {| runner := {| vm := view waiting_machine 0; quest := Some call_quest;
                  stepping_breakpoints := [];
                  break_on_next := false |};
     machine := 0; scheduled_frames := 0;
     execution_location := Datatypes.None |}.



(** ** The recursion of the value-set analysis *)

(** A call of [find_value_set]: the block, the index the scan stops
    before, and the register. *)
Definition query : Type := nat * nat * Z.

Definition run (fuel : nat) (blocks : list BasicBlock) (q : query)
    : outcome ValueSet.t :=
  let '(block, stop, register) := q in
  find_value_set fuel blocks block stop register.

(** The [for] loop of [find_value_set] over the instructions of the
    block [b] before [stop], run with recursion budget [fuel]. *)
Definition scan (fuel : nat) (blocks : list BasicBlock) (block : nat)
    (b : BasicBlock) (stop : nat) (register : Z) : outcome ValueSet.t :=
  for_each (scan_instruction (find_value_set fuel blocks) block b register)
    (seq (start b) (stop - start b)) ValueSet.new.

(** The recursive calls of [find_value_set]: at every copy into the
    register before [stop], a call for the source register that stops
    before the copy; and, unless the scan returns a set that is not
    empty, a call at the end of every predecessor block. *)
Inductive calls (blocks : list BasicBlock) : query → query → Prop :=
  | calls_copy block b stop register i instruction source :
      blocks !! block = Some b →
      start b ≤ i < stop →
      instructions (segment b) !! i = Some instruction →
      opcode instruction = Opcode.let_ →
      value <$> args instruction !! 0 = Some register →
      value <$> args instruction !! 1 = Some source →
      calls blocks (block, stop, register) (block, i, source)
  | calls_predecessor block b stop register p pb :
      blocks !! block = Some b →
      (∀ fuel values,
          scan fuel blocks block b stop register = Done values →
          ValueSet.size values = 0) →
      p ∈ from b → blocks !! p = Some pb →
      calls blocks (block, stop, register) (p, end_ pb, register).

(** Every chain of calls that starts at [q] is finite. *)
Definition recursion_ends (blocks : list BasicBlock) (q : query) : Prop :=
  Acc (λ callee caller, calls blocks caller callee) q.

(** A loop behind a block that loads the register itself:
<<
    0:  jmp_on 0, r9      block 0, its own predecessor
        leti r0, 1
        ret               block 1
>> *)
Definition guarded_loop_program : list InstructionSegment :=
  [ {| labels := [0%Z];
       instructions :=
         [ new_instruction 0 Opcode.jmp_on [0%Z; 9%Z];
           new_instruction 1 Opcode.leti [0%Z; 1%Z];
           new_instruction 2 Opcode.ret [] ] |} ].

Definition guarded_loop_graph : ControlFlowGraph :=
  Eval vm_compute in
    graph_of (create_control_flow_graph 1 guarded_loop_program).

(** * Outcomes and loops *)

Lemma bind_Done {A B} (m : outcome A) (k : A → outcome B) (b : B) :
  m ≫= k = Done b ↔ ∃ a, m = Done a ∧ k a = Done b.
Proof.
  destruct m; cbn; split; try done.
  - eauto.
  - by intros (? & [= <-] & ?).
  - by intros (? & ? & ?).
  - by intros (? & ? & ?).
Qed.

Lemma for_each_app {A S} (body : S → A → outcome S) xs ys s :
  for_each body (xs ++ ys) s = s' ← for_each body xs s; for_each body ys s'.
Proof.
  revert s. induction xs as [|x xs IH]; intros s; cbn; [done|].
  destruct (body s x); cbn; auto.
Qed.

Lemma for_each_ext {A S} (f g : S → A → outcome S) xs s :
  (∀ s x, x ∈ xs → f s x = g s x) → for_each f xs s = for_each g xs s.
Proof.
  revert s. induction xs as [|x xs IH]; intros s Hfg; cbn; [done|].
  rewrite Hfg by left. destruct (g s x); cbn; try done.
  apply IH. intros. apply Hfg. by right.
Qed.

(** A property that every iteration carries from state to state, and
    that is reflexive and transitive, relates the state before the loop
    with the state after it. *)
Lemma for_each_preserves {A S} (R : S → S → Prop) (body : S → A → outcome S)
    xs s s' :
  (∀ s, R s s) →
  (∀ s1 s2 s3, R s1 s2 → R s2 s3 → R s1 s3) →
  (∀ s1 s2 x, x ∈ xs → body s1 x = Done s2 → R s1 s2) →
  for_each body xs s = Done s' → R s s'.
Proof.
  intros Hrefl Htrans. revert s.
  induction xs as [|x xs IH]; intros s Hbody; cbn.
  - by intros [= <-].
  - intros (s1 & H1 & H2)%bind_Done.
    eapply Htrans; [eapply Hbody; [left|done]|].
    apply IH; [|done]. intros. eapply Hbody; [by right|done].
Qed.

(** The iteration for an element of the list ran, between a state the
    loop had reached and a state it went on from. *)
Lemma for_each_elem {A S} (R : S → S → Prop) (body : S → A → outcome S)
    xs x s s' :
  (∀ s, R s s) →
  (∀ s1 s2 s3, R s1 s2 → R s2 s3 → R s1 s3) →
  (∀ s1 s2 x, x ∈ xs → body s1 x = Done s2 → R s1 s2) →
  x ∈ xs →
  for_each body xs s = Done s' →
  ∃ s1 s2, R s s1 ∧ body s1 x = Done s2 ∧ R s2 s'.
Proof.
  intros Hrefl Htrans. revert s.
  induction xs as [|y xs IH]; intros s Hbody Hx; [by inversion Hx|].
  cbn. intros (s1 & H1 & H2)%bind_Done.
  apply elem_of_cons in Hx as [->|Hx].
  - exists s, s1. split_and!; [done..|].
    eapply for_each_preserves; [done..| |done].
    intros. eapply Hbody; [by right|done].
  - destruct (IH s1) as (t1 & t2 & Ht1 & Hb & Ht2); [|done..|].
    { intros. eapply Hbody; [by right|done]. }
    exists t1, t2. split_and!; [|done..].
    eapply Htrans; [|done]. eapply Hbody; [left|done].
Qed.

(** An induction principle for [for (i = 0; i < n; i++)] loops. *)
Lemma foldl_seq_ind {St} (P : nat → St → Prop) (f : St → nat → St) n s :
  P 0 s →
  (∀ k s, k < n → P k s → P (S k) (f s k)) →
  P n (foldl f s (seq 0 n)).
Proof.
  intros H0 Hstep. induction n as [|n IH]; [done|].
  rewrite seq_S, foldl_app. cbn. apply Hstep; [lia|].
  apply IH. intros. apply Hstep; [lia|done].
Qed.

(** * Block splitting *)

Lemma classify_continue inst is_last :
  classify inst is_last = Done Datatypes.None → is_last = false.
Proof.
  unfold classify.
  destruct (opcode inst); cbn;
    repeat (destruct (arg_value _ _); cbn); try discriminate;
    by destruct is_last.
Qed.

Lemma elem_of_slice {A} (l : list A) s e x :
  x ∈ slice s e l ↔ ∃ j, s ≤ j < e ∧ l !! j = Some x.
Proof.
  unfold slice. rewrite list_elem_of_lookup. split.
  - intros (k & Hk). apply lookup_take_Some in Hk as [Hk ?].
    rewrite lookup_drop in Hk. exists (s + k). split; [lia|done].
  - intros (j & Hj & Hx). exists (j - s).
    rewrite lookup_take_lt by lia. rewrite lookup_drop.
    by replace (s + (j - s)) with j by lia.
Qed.

Lemma lookup_set_instructions id m insts key :
  set_instructions id m insts !! key
  = if decide (key ∈ inst_id <$> insts) then Some id else m !! key.
Proof.
  unfold set_instructions. revert m.
  induction insts as [|x insts IH]; intros m; cbn.
  - by rewrite decide_False by apply not_elem_of_nil.
  - rewrite IH. destruct (decide (key ∈ inst_id <$> insts)).
    + by rewrite decide_True by by right.
    + destruct (decide (key = inst_id x)) as [->|].
      * by rewrite lookup_insert_eq, decide_True by left.
      * rewrite lookup_insert_ne by done.
        by rewrite decide_False by by intros [?|?]%elem_of_cons.
Qed.

Lemma lookup_set_labels id lb ls label :
  set_labels id lb ls !! label
  = if decide (label ∈ ls) then Some id else lb !! label.
Proof.
  unfold set_labels. revert lb.
  induction ls as [|x ls IH]; intros lb; cbn.
  - by rewrite decide_False by apply not_elem_of_nil.
  - rewrite IH. destruct (decide (label ∈ ls)).
    + by rewrite decide_True by by right.
    + destruct (decide (label = x)) as [->|].
      * by rewrite lookup_insert_eq, decide_True by left.
      * rewrite lookup_insert_ne by done.
        by rewrite decide_False by by intros [?|?]%elem_of_cons.
Qed.

(** ** Tilings *)

Lemma tiling_le seg s bs e : tiling seg s bs e → s ≤ e.
Proof. induction 1; lia. Qed.

Lemma tiling_empty_range seg s bs : tiling seg s bs s → bs = [].
Proof.
  inversion 1 as [|? b bs' ? ? ? ? Ht]; subst; [done|].
  apply tiling_le in Ht. lia.
Qed.

Lemma tiling_nonempty seg s bs e : tiling seg s bs e → s < e → bs ≠ [].
Proof. intros Ht Hlt ->. inversion Ht. lia. Qed.

Lemma tiling_app seg s bs m bs' e :
  tiling seg s bs m → tiling seg m bs' e → tiling seg s (bs ++ bs') e.
Proof. induction 1; cbn; [done|]. intros. constructor; auto. Qed.

Lemma tiling_segment seg s bs e b :
  tiling seg s bs e → b ∈ bs →
  segment b = seg ∧ s ≤ start b ∧ start b < end_ b ∧ end_ b ≤ e.
Proof.
  induction 1 as [|s b' bs e Hseg Hs Hlt Ht IH]; [by inversion 1|].
  intros [->|Hb]%elem_of_cons.
  - apply tiling_le in Ht. split; [done|lia].
  - destruct (IH Hb). split; [done|lia].
Qed.

Lemma tiling_first seg s b bs e : tiling seg s (b :: bs) e → start b = s.
Proof. by inversion 1. Qed.

Lemma tiling_last seg s bs b e : tiling seg s (bs ++ [b]) e → end_ b = e.
Proof.
  revert s. induction bs as [|b' bs IH]; intros s; cbn; inversion 1; subst.
  - match goal with H : tiling _ _ [] _ |- _ => by inversion H end.
  - eauto.
Qed.

(** Every index of the range lies in the range of some block. *)
Lemma tiling_cover seg s bs e j :
  tiling seg s bs e → s ≤ j < e →
  ∃ k b, bs !! k = Some b ∧ start b ≤ j < end_ b.
Proof.
  induction 1 as [|s b bs e Hseg Hs Hlt Ht IH]; [lia|]. intros Hj.
  destruct (decide (j < end_ b)).
  - exists 0, b. split; [done|lia].
  - destruct IH as (k & b' & ? & ?); [lia|]. by exists (S k), b'.
Qed.

(** No index lies in the ranges of two blocks. *)
Lemma tiling_disjoint seg s bs e k k' b b' j :
  tiling seg s bs e →
  bs !! k = Some b → bs !! k' = Some b' →
  start b ≤ j < end_ b → start b' ≤ j < end_ b' → k = k'.
Proof.
  intros Ht. revert k k'.
  induction Ht as [|s b0 bs e Hseg Hs Hlt Ht IH]; intros k k'; [done|].
  destruct k as [|k], k' as [|k']; cbn; intros Hk Hk' Hj Hj'.
  - done.
  - injection Hk as ->.
    apply list_elem_of_lookup_2 in Hk'.
    destruct (tiling_segment _ _ _ _ _ Ht Hk'). lia.
  - injection Hk' as ->.
    apply list_elem_of_lookup_2 in Hk.
    destruct (tiling_segment _ _ _ _ _ Ht Hk). lia.
  - f_equal. eauto.
Qed.

Lemma tiling_static seg s bs bs' e :
  static <$> bs = static <$> bs' → tiling seg s bs e → tiling seg s bs' e.
Proof.
  intros Heq Ht. revert bs' Heq.
  induction Ht as [|s b bs e Hseg Hs Hlt Ht IH]; intros [|b' bs'] Heq;
    try discriminate; [constructor|].
  cbn in Heq. injection Heq as Hsg Hst Hen _ _ Hbs.
  constructor.
  - congruence.
  - congruence.
  - lia.
  - rewrite <- Hen. auto.
Qed.

(** ** The loop of [create_basic_blocks] *)

Lemma drop_cons_lookup {A} (l : list A) i x rest :
  drop i l = x :: rest → l !! i = Some x ∧ drop (S i) l = rest ∧ i < length l.
Proof.
  intros H. assert (l !! i = Some x) as Hx.
  { rewrite <- (Nat.add_0_r i), <- lookup_drop. by rewrite H. }
  split_and!; [done| |by eapply lookup_lt_Some].
  rewrite (drop_S _ _ _ Hx) in H. by injection H.
Qed.

Lemma holds_app blocks new key id :
  holds blocks key id → holds (blocks ++ new) key id.
Proof.
  intros (b & j & inst & Hb & ?). exists b, j, inst.
  split; [|done]. by apply lookup_app_l_Some.
Qed.

Lemma create_basic_blocks_loop_spec seg rest i s fb cfg lb st' :
  create_basic_blocks_loop seg rest i s fb (cfg, lb) = Done st' →
  rest = drop i (instructions seg) →
  s ≤ i ≤ length (instructions seg) →
  (rest = [] → s = i) →
  ∃ new,
    cfg_blocks st'.1 = cfg_blocks cfg ++ new
    ∧ tiling seg s new (length (instructions seg))
    ∧ Forall unlinked new
    ∧ st'.2 = (if fb then
                 match new with
                 | [] => lb
                 | _ => set_labels (length (cfg_blocks cfg)) lb (labels seg)
                 end
               else lb)
    ∧ (∀ key id, cfg_instructions st'.1 !! key = Some id →
         cfg_instructions cfg !! key = Some id
         ∨ holds (cfg_blocks st'.1) key id)
    ∧ (∀ j inst, s ≤ j → instructions seg !! j = Some inst →
         is_Some (cfg_instructions st'.1 !! inst_id inst))
    ∧ (∀ key, is_Some (cfg_instructions cfg !! key) →
         is_Some (cfg_instructions st'.1 !! key)).
Proof.
  revert i s fb cfg lb.
  induction rest as [|inst rest IH]; intros i s fb cfg lb; cbn.
  - intros [= <-] Hdrop Hi Hs. specialize (Hs eq_refl). subst s.
    assert (i = length (instructions seg)) as Hlen.
    { symmetry in Hdrop. apply drop_nil_inv in Hdrop. lia. }
    exists []. rewrite app_nil_r. cbn. split_and!; try done.
    + rewrite <- Hlen. constructor.
    + by destruct fb.
    + auto.
    + intros j inst0 ? Hj%lookup_lt_Some. lia.
  - intros (br & Hbr & Hloop)%bind_Done Hdrop Hi _.
    symmetry in Hdrop.
    apply drop_cons_lookup in Hdrop as (Hinst & Hdrop & Hlt).
    destruct br as [[bt bl]|].
    + unfold add_block in Hloop.
      apply IH in Hloop as (new & Hblocks & Htile & Hun & Hlb & M1 & M2 & M3);
        [|done|lia|lia].
      cbn in *.
      set (block := {| segment := seg; start := s; end_ := i + 1;
                       branch_type := bt; branch_labels := bl;
                       from := []; to := [] |}) in *.
      exists (block :: new). split_and!.
      * by rewrite Hblocks, <- app_assoc.
      * constructor; cbn; [done|done|lia|done].
      * constructor; [done|done].
      * destruct fb; [|done]. by rewrite Hlb.
      * intros key id Hkey. apply M1 in Hkey as [Hkey|Hkey]; [|by right].
        rewrite lookup_set_instructions in Hkey. case_decide as Hin.
        -- right. injection Hkey as <-.
           apply list_elem_of_fmap in Hin as (inst0 & -> & Hin).
           apply elem_of_slice in Hin as (j & Hj & Hin).
           exists block, j, inst0. split_and!; [|cbn; lia|cbn; lia|done..].
           rewrite Hblocks, <- app_assoc.
           by rewrite lookup_app_r, Nat.sub_diag by lia.
        -- by left.
      * intros j inst0 Hj Hj'. destruct (decide (j < i + 1)).
        -- apply M3. rewrite lookup_set_instructions.
           rewrite decide_True; [eauto|].
           apply list_elem_of_fmap. exists inst0. split; [done|].
           apply elem_of_slice. exists j. split; [lia|done].
        -- apply (M2 j); [lia|done].
      * intros key Hkey. apply M3. rewrite lookup_set_instructions.
        destruct (decide _); [eauto|done].
    + apply classify_continue in Hbr.
      apply bool_decide_eq_false in Hbr.
      apply IH in Hloop as (new & Hblocks & Htile & Hun & Hlb & M1 & M2 & M3);
        [|done|lia|].
      * by exists new.
      * intros ->. apply drop_nil_inv in Hdrop. lia.
Qed.

Lemma entry_of_app segs more blocks new label id :
  entry_of segs blocks label id →
  entry_of (segs ++ more) (blocks ++ new) label id.
Proof.
  intros (b & Hb & ? & ? & ?). exists b. split_and!; try done.
  - by apply lookup_app_l_Some.
  - apply elem_of_app. by left.
Qed.

Lemma built_empty : built [] empty_builder.
Proof.
  split; cbn.
  - exists []. split; [done|constructor].
  - constructor.
  - intros key id. by rewrite lookup_empty.
  - intros seg inst Hseg. by inversion Hseg.
  - intros label id. by rewrite lookup_empty.
  - intros seg label Hseg. by inversion Hseg.
Qed.

Lemma built_step done st seg st' :
  built done st →
  create_basic_blocks st seg = Done st' →
  built (done ++ [seg]) st'.
Proof.
  intros [(groups & Hconcat & Hgroups) Hun Hmap Hcover Hlabels Hresolve].
  destruct st as [cfg lb]. unfold create_basic_blocks. intros Hloop.
  apply create_basic_blocks_loop_spec in Hloop
    as (new & Hblocks & Htile & Hnew & Hlb & M1 & M2 & M3);
    [|done|lia|done].
  cbn in *. split.
  - exists (groups ++ [new]). split.
    + by rewrite Hblocks, concat_app, Hconcat; cbn; rewrite app_nil_r.
    + apply Forall2_app; [done|]. by repeat constructor.
  - rewrite Hblocks. by apply Forall_app.
  - intros key id Hkey. apply M1 in Hkey as [Hkey|Hkey]; [|done].
    rewrite Hblocks. apply holds_app. auto.
  - intros seg' inst [Hseg|Hseg]%elem_of_app Hinst.
    + apply M3. eauto.
    + apply list_elem_of_singleton in Hseg as ->.
      apply list_elem_of_lookup in Hinst as (j & Hj).
      apply (M2 j); [lia|done].
  - intros label id Hlookup. rewrite Hlb in Hlookup. rewrite Hblocks.
    destruct new as [|b0 new'].
    { apply entry_of_app. auto. }
    rewrite lookup_set_labels in Hlookup. case_decide as Hin.
    + injection Hlookup as <-. exists b0. split_and!.
      * by rewrite lookup_app_r, Nat.sub_diag by lia.
      * by eapply tiling_first.
      * eapply (tiling_segment _ _ _ _ b0) in Htile as [-> _]; [done|left].
      * eapply (tiling_segment _ _ _ _ b0) in Htile as [-> _]; [|left].
        apply elem_of_app. right. left.
    + apply entry_of_app. auto.
  - intros seg' label [Hseg|Hseg]%elem_of_app Hne Hin.
    + rewrite Hlb. destruct new; [eauto|].
      rewrite lookup_set_labels. destruct (decide _); eauto.
    + apply list_elem_of_singleton in Hseg as ->.
      rewrite Hlb. destruct new as [|b0 new'].
      * exfalso. eapply tiling_nonempty; [done| |done].
        destruct (instructions seg); [done|cbn; lia].
      * rewrite lookup_set_labels. rewrite decide_True by done. eauto.
Qed.

Lemma built_for_each segments done st st' :
  built done st →
  for_each create_basic_blocks segments st = Done st' →
  built (done ++ segments) st'.
Proof.
  revert done st. induction segments as [|seg segments IH]; intros done st.
  - cbn. intros ? [= <-]. by rewrite app_nil_r.
  - cbn. intros Hb (st1 & Hseg & Hrest)%bind_Done.
    replace (done ++ seg :: segments) with ((done ++ [seg]) ++ segments)
      by by rewrite <- app_assoc.
    eapply IH; [|done]. by eapply built_step.
Qed.

(** Block creation establishes [built] for the whole segment list. *)
Lemma create_all_basic_blocks_built segments st :
  create_all_basic_blocks segments = Done st → built segments st.
Proof. intros H. by apply (built_for_each segments [] _ _ built_empty). Qed.

(** * Edge linking *)

Lemma appended_refl bs : appended (λ _, []) bs bs.
Proof. split; [done|]. intros j b Hb. exists b. by rewrite app_nil_r. Qed.

Lemma appended_trans ts ts' bs bs' bs'' :
  appended ts bs bs' → appended ts' bs' bs'' →
  appended (λ j, ts j ++ ts' j) bs bs''.
Proof.
  intros [Hlen H] [Hlen' H']. split; [congruence|].
  intros j b Hb. destruct (H j b Hb) as (b' & Hb' & Hs & Ht).
  destruct (H' j b' Hb') as (b'' & Hb'' & Hs' & Ht').
  exists b''. split_and!; [done|congruence|].
  by rewrite Ht', Ht, app_assoc.
Qed.

Lemma appended_ext ts ts' bs bs' :
  (∀ j, j < length bs → ts j = ts' j) →
  appended ts bs bs' → appended ts' bs bs'.
Proof.
  intros Hext [Hlen H]. split; [done|]. intros j b Hb.
  destruct (H j b Hb) as (b' & ? & ? & ?). exists b'.
  rewrite <- Hext; [done|]. by eapply lookup_lt_Some.
Qed.

Lemma appended_lookup ts bs bs' j b' :
  appended ts bs bs' → bs' !! j = Some b' →
  ∃ b, bs !! j = Some b ∧ static b' = static b ∧ to b' = to b ++ ts j.
Proof.
  intros [Hlen H] Hb'.
  destruct (lookup_lt_is_Some_2 bs j) as [b Hb].
  { rewrite <- Hlen. by eapply lookup_lt_Some. }
  destruct (H j b Hb) as (b'' & Hb'' & ? & ?).
  assert (b'' = b') as -> by congruence. by exists b.
Qed.

Lemma appended_static ts bs bs' :
  appended ts bs bs' → static <$> bs' = static <$> bs.
Proof.
  intros [Hlen H]. apply list_eq. intros j. rewrite !list_lookup_fmap.
  destruct (bs !! j) as [b|] eqn:Hb.
  - destruct (H j b Hb) as (b' & -> & Hs & _). cbn. by rewrite Hs.
  - apply lookup_ge_None in Hb. rewrite <- Hlen in Hb.
    apply lookup_ge_None in Hb. by rewrite Hb.
Qed.

Lemma link_to_appended this other bs :
  appended (λ j, if decide (j = this) then [other] else []) bs
    (link_to this other bs).
Proof.
  unfold link_to. split; [by rewrite !length_alter|].
  intros j b Hb. rewrite !list_lookup_alter.
  repeat case_decide; subst; rewrite ?Hb; cbn; try congruence;
    (eexists; split_and!; [done|done|]); cbn; by rewrite ?app_nil_r.
Qed.

Lemma resolve_cons lb label ls :
  resolve lb (label :: ls)
  = match lb !! label with
    | Some t => t :: resolve lb ls
    | Datatypes.None => resolve lb ls
    end.
Proof. done. Qed.

Lemma link_labels_appended lb i bs ls :
  appended (λ j, if decide (j = i) then resolve lb ls else []) bs
    (link_labels lb i bs ls).
Proof.
  unfold link_labels. revert bs.
  induction ls as [|label ls IH]; intros bs; cbn [foldl].
  - eapply appended_ext; [|apply appended_refl].
    intros j _. by destruct (decide _).
  - destruct (lb !! label) as [t|] eqn:Hl.
    + eapply appended_ext;
        [|eapply appended_trans; [apply link_to_appended|apply IH]].
      intros j _. cbv beta. rewrite resolve_cons, Hl.
      by destruct (decide _).
    + eapply appended_ext; [|apply IH].
      intros j _. cbv beta. by rewrite resolve_cons, Hl.
Qed.

Lemma link_block_appended lb bs cs i b :
  bs !! i = Some b →
  appended (λ j, if decide (j = i) then successors lb (length bs) i b else [])
    bs (link_block lb (bs, cs) i).1
  ∧ (link_block lb (bs, cs) i).2 = cs ++ pending (length bs) i b.
Proof.
  intros Hb. unfold link_block, successors, pending. rewrite Hb.
  destruct (branch_type b); cbn.
  - split; [|by rewrite app_nil_r].
    destruct (decide (i + 1 < length bs)).
    + eapply appended_ext;
        [|eapply appended_trans;
           [apply link_to_appended|apply link_labels_appended]].
      intros j _. cbn. by destruct (decide _).
    + apply link_labels_appended.
  - split; [|by rewrite app_nil_r].
    eapply appended_ext; [|apply appended_refl].
    intros j _. by destruct (decide _).
  - split; [|by rewrite app_nil_r]. apply link_labels_appended.
  - split; [|by rewrite app_nil_r].
    destruct (decide (i + 1 < length bs)).
    + eapply appended_ext;
        [|eapply appended_trans;
           [apply link_to_appended|apply link_labels_appended]].
      intros j _. cbn. by destruct (decide _).
    + apply link_labels_appended.
  - split; [apply link_labels_appended|].
    destruct (decide _); [done|by rewrite app_nil_r].
Qed.

Lemma successors_static lb n i b b' :
  static b' = static b → successors lb n i b' = successors lb n i b.
Proof. unfold static, successors. by intros [= _ _ _ -> ->]. Qed.

Lemma pending_static n i b b' :
  static b' = static b → pending n i b' = pending n i b.
Proof. unfold static, pending. by intros [= _ _ _ -> _]. Qed.

(** The first loop of [link_blocks] appends to every block its
    successors and collects the pending pairs in block order. *)
Lemma link_edges_spec lb bs :
  appended (successors_at lb bs) bs (link_edges lb bs).1
  ∧ (link_edges lb bs).2 = concat (imap (pending (length bs)) bs).
Proof.
  unfold link_edges.
  set (P := λ k (st : list BasicBlock * list (nat * nat)),
         appended (λ j, if decide (j < k) then successors_at lb bs j else [])
           bs st.1
         ∧ st.2 = concat (imap (pending (length bs)) (take k bs))).
  assert (P (length bs) (foldl (link_block lb) (bs, []) (seq 0 (length bs))))
    as [Happ Hcs].
  { apply foldl_seq_ind.
    - split; cbn; [|by rewrite take_0].
      eapply appended_ext; [|apply appended_refl]. done.
    - intros k [bs' cs] Hk [Happ Hcs]. cbn in *.
      destruct (lookup_lt_is_Some_2 bs k Hk) as [b Hb].
      destruct Happ as [Hlen Happ].
      destruct (Happ k b Hb) as (b' & Hb' & Hs & _).
      destruct (link_block_appended lb bs' cs k b' Hb') as [Hstep Hcs'].
      split.
      + eapply appended_ext;
          [|eapply appended_trans; [split; [exact Hlen|exact Happ]|exact Hstep]].
        intros j Hj. cbn. unfold successors_at.
        destruct (decide (j = k)) as [->|].
        * rewrite decide_False, decide_True by lia. rewrite Hb, Hlen. cbn.
          by apply successors_static.
        * destruct (decide (j < k)).
          -- rewrite decide_True by lia. by rewrite app_nil_r.
          -- by rewrite decide_False by lia.
      + etrans; [exact Hcs'|].
        rewrite Hcs, (take_S_r _ _ _ Hb), imap_app, concat_app. cbn.
        rewrite length_take_le by lia. rewrite Nat.add_0_r, app_nil_r, Hlen.
        f_equal. by apply pending_static. }
  split.
  - eapply appended_ext; [|exact Happ].
    intros j Hj. cbv beta. by rewrite decide_True.
  - by rewrite Hcs, firstn_all.
Qed.

Lemma elem_of_concat {A} (x : A) (ls : list (list A)) :
  x ∈ concat ls ↔ ∃ l, x ∈ l ∧ l ∈ ls.
Proof.
  induction ls as [|l ls IH]; cbn.
  - split; [by inversion 1|]. by intros (? & _ & ?%not_elem_of_nil).
  - rewrite elem_of_app, IH. split.
    + intros [?|(l' & ? & ?)]; [exists l; split; [done|left]|].
      exists l'. split; [done|by right].
    + intros (l' & ? & [->|?]%elem_of_cons); [by left|right; eauto].
Qed.

Lemma elem_of_pending_callers bs c r :
  (c, r) ∈ concat (imap (pending (length bs)) bs)
  ↔ ∃ b, bs !! c = Some b ∧ branch_type b = BranchType.Call
         ∧ r = c + 1 ∧ c + 1 < length bs.
Proof.
  rewrite elem_of_concat. split.
  - intros (l & Hin & Hl). apply elem_of_lookup_imap in Hl as (i & b & -> & Hb).
    unfold pending in Hin. destruct (branch_type b) eqn:Hbt;
      try by inversion Hin.
    destruct (decide _); [|by inversion Hin].
    apply list_elem_of_singleton in Hin as [= -> ->]. eauto.
  - intros (b & Hb & Hbt & -> & Hlt). exists [(c, c + 1)]. split; [left|].
    apply elem_of_lookup_imap. exists c, b. split; [|done].
    unfold pending. by rewrite Hbt, decide_True.
Qed.

(** * Return linking *)

Lemma grows_refl bs : grows bs bs.
Proof. exists (λ _, []). split; [apply appended_refl|done]. Qed.

Lemma grows_trans bs bs' bs'' : grows bs bs' → grows bs' bs'' → grows bs bs''.
Proof.
  intros (ts & Happ & Hts) (ts' & Happ' & Hts').
  exists (λ j, ts j ++ ts' j). split; [by eapply appended_trans|].
  intros j b Hb Hbt. rewrite (Hts j b Hb Hbt). cbn.
  destruct Happ as [_ Happ].
  destruct (Happ j b Hb) as (b' & Hb' & Hs & _).
  apply (Hts' j b' Hb').
  unfold static in Hs. injection Hs as _ _ _ Hs _. congruence.
Qed.

Lemma grows_lookup bs bs' j b :
  grows bs bs' → bs !! j = Some b →
  ∃ b' more, bs' !! j = Some b' ∧ static b' = static b
             ∧ to b' = to b ++ more
             ∧ (branch_type b ≠ BranchType.Return → more = []).
Proof.
  intros (ts & [_ Happ] & Hts) Hb.
  destruct (Happ j b Hb) as (b' & ? & ? & ?).
  exists b', (ts j). split_and!; eauto.
Qed.

Lemma grows_static bs bs' : grows bs bs' → static <$> bs' = static <$> bs.
Proof. intros (ts & Happ & _). by eapply appended_static. Qed.

Lemma link_to_grows this other bs tb :
  bs !! this = Some tb → branch_type tb = BranchType.Return →
  grows bs (link_to this other bs).
Proof.
  intros Hb Hbt. eexists. split; [apply link_to_appended|].
  intros j b Hj Hne. cbn. destruct (decide (j = this)); [|done].
  congruence.
Qed.

Lemma link_returning_blocks_grows fuel lb ret block bs bs' :
  link_returning_blocks fuel lb ret block bs = Done bs' → grows bs bs'.
Proof.
  revert ret block bs bs'.
  induction fuel as [|fuel IH]; intros ret block bs bs'; [done|]. cbn.
  destruct (bs !! block) as [b|]; [|done].
  apply for_each_preserves; [apply grows_refl|apply grows_trans|].
  intros s1 s2 label _.
  destruct (lb !! label) as [sub|]; [|intros [= <-]; apply grows_refl].
  destruct (s1 !! sub) as [sb|] eqn:Hsb; [|done].
  intros Hrec%IH. eapply grows_trans; [|done].
  destruct (branch_type sb) eqn:Hbt; try apply grows_refl.
  by eapply link_to_grows.
Qed.

Lemma link_callers_grows fuel lb callers bs bs' :
  link_callers fuel lb callers bs = Done bs' → grows bs bs'.
Proof.
  apply for_each_preserves; [apply grows_refl|apply grows_trans|].
  intros s1 s2 [caller ret] _. apply link_returning_blocks_grows.
Qed.

(** A [Return] block that a recorded call names directly is linked to
    the call's continuation. *)
Lemma link_callers_returns fuel lb callers bs bs' c r cb label sub sb :
  link_callers fuel lb callers bs = Done bs' →
  (c, r) ∈ callers →
  bs !! c = Some cb → label ∈ branch_labels cb →
  lb !! label = Some sub →
  bs !! sub = Some sb → branch_type sb = BranchType.Return →
  ∃ sb', bs' !! sub = Some sb' ∧ r ∈ to sb'.
Proof.
  intros Hall Hin Hcb Hlabel Hsub Hsb Hbt.
  eapply (for_each_elem grows) in Hall as (s1 & s2 & Hs1 & Hrun & Hs2);
    [|apply grows_refl|apply grows_trans| |exact Hin].
  2:{ intros t1 t2 [caller ret] _. apply link_returning_blocks_grows. }
  cbn in Hrun. destruct fuel as [|fuel]; [done|]. cbn in Hrun.
  destruct (grows_lookup _ _ _ _ Hs1 Hcb) as (cb1 & ? & Hcb1 & Hst & _).
  rewrite Hcb1 in Hrun.
  assert (branch_labels cb1 = branch_labels cb) as Hl.
  { unfold static in Hst. by injection Hst. }
  rewrite Hl in Hrun.
  eapply (for_each_elem grows) in Hrun as (t1 & t2 & Ht1 & Hrun & Ht2);
    [|apply grows_refl|apply grows_trans| |exact Hlabel].
  2:{ intros u1 u2 l _.
      destruct (lb !! l) as [k|]; [|intros [= <-]; apply grows_refl].
      destruct (u1 !! k) as [kb|] eqn:Hkb; [|done].
      intros Hrec%link_returning_blocks_grows.
      eapply grows_trans; [|done].
      destruct (branch_type kb) eqn:Hkbt; try apply grows_refl.
      by eapply link_to_grows. }
  cbn in Hrun. rewrite Hsub in Hrun.
  destruct (grows_lookup _ _ _ _ (grows_trans _ _ _ Hs1 Ht1) Hsb)
    as (sb1 & ? & Hsb1 & Hst1 & _).
  rewrite Hsb1 in Hrun.
  assert (branch_type sb1 = BranchType.Return) as Hbt1.
  { unfold static in Hst1. injection Hst1 as _ _ _ Hst1 _. congruence. }
  rewrite Hbt1 in Hrun. apply link_returning_blocks_grows in Hrun.
  destruct (link_to_appended sub r t1) as [_ Hlink].
  destruct (Hlink sub sb1 Hsb1) as (sb2 & Hsb2 & _ & Hto).
  rewrite decide_True in Hto by done.
  destruct (grows_lookup _ _ _ _
              (grows_trans _ _ _ Hrun (grows_trans _ _ _ Ht2 Hs2)) Hsb2)
    as (sb' & more & Hsb' & _ & Hto' & _).
  exists sb'. split; [done|]. rewrite Hto', Hto.
  apply elem_of_app. left. apply elem_of_app. right. left.
Qed.

(** * The graph [create_control_flow_graph] returns *)

Lemma entry_of_static segs bs bs' label id :
  static <$> bs' = static <$> bs →
  entry_of segs bs label id → entry_of segs bs' label id.
Proof.
  intros Hst (b & Hb & H0 & Hl & Hs).
  assert ((static <$> bs') !! id = Some (static b)) as Hb'.
  { by rewrite Hst, list_lookup_fmap, Hb. }
  rewrite list_lookup_fmap in Hb'.
  destruct (bs' !! id) as [b'|] eqn:Hid; [|done]. cbn in Hb'.
  injection Hb' as Hseg Hstart _ _ _.
  exists b'. by rewrite Hseg, Hstart.
Qed.

Lemma holds_static bs bs' key id :
  static <$> bs' = static <$> bs → holds bs key id → holds bs' key id.
Proof.
  intros Hst (b & j & inst & Hb & Hj & Hinst & Hid).
  assert ((static <$> bs') !! id = Some (static b)) as Hb'.
  { by rewrite Hst, list_lookup_fmap, Hb. }
  rewrite list_lookup_fmap in Hb'.
  destruct (bs' !! id) as [b'|] eqn:Hid'; [|done]. cbn in Hb'.
  injection Hb' as Hseg Hstart Hend _ _.
  exists b', j, inst. by rewrite Hseg, Hstart, Hend.
Qed.

(** The stages of [create_control_flow_graph], with what each one
    establishes. *)
Lemma create_control_flow_graph_stages fuel segments cfg :
  create_control_flow_graph fuel segments = Done cfg →
  ∃ cfg0 lb linked callers,
    create_all_basic_blocks segments = Done (cfg0, lb)
    ∧ link_edges lb (cfg_blocks cfg0) = (linked, callers)
    ∧ link_callers fuel lb callers linked = Done (cfg_blocks cfg)
    ∧ cfg_instructions cfg = cfg_instructions cfg0
    ∧ built segments (cfg0, lb)
    ∧ appended (successors_at lb (cfg_blocks cfg0)) (cfg_blocks cfg0) linked
    ∧ callers
      = concat (imap (pending (length (cfg_blocks cfg0))) (cfg_blocks cfg0))
    ∧ grows linked (cfg_blocks cfg).
Proof.
  unfold create_control_flow_graph.
  intros ([cfg0 lb] & Hcreate & Hlink)%bind_Done.
  unfold link_blocks in Hlink.
  destruct (link_edges lb (cfg_blocks cfg0)) as [linked callers] eqn:Hedges.
  apply bind_Done in Hlink as (blocks' & Hcallers & [= <-]).
  destruct (link_edges_spec lb (cfg_blocks cfg0)) as [Happ Hcs].
  rewrite Hedges in Happ, Hcs. cbn in *.
  exists cfg0, lb, linked, callers. split_and!; try done.
  - by apply create_all_basic_blocks_built.
  - by eapply link_callers_grows.
Qed.

(** * Properties of the returned graph *)

Section returned_graph.
Context (fuel : nat) (segments : list InstructionSegment).
Context (cfg : ControlFlowGraph).
Hypothesis returned : create_control_flow_graph fuel segments = Done cfg.

(** The fixed fields of the blocks are those block creation chose. *)
Lemma returned_static cfg0 lb :
  create_all_basic_blocks segments = Done (cfg0, lb) →
  static <$> cfg_blocks cfg = static <$> cfg_blocks cfg0.
Proof using returned.
  intros Hcreate.
  destruct (create_control_flow_graph_stages _ _ _ returned)
    as (cfg0' & lb' & linked & callers & Hc & _ & _ & _ & _ & Happ & _ & Hg).
  rewrite Hcreate in Hc. injection Hc as <- <-.
  by rewrite (grows_static _ _ Hg), (appended_static _ _ _ Happ).
Qed.

(** A block that is not a [Return] block has exactly the successors
    the first loop of [link_blocks] gave it. *)
Lemma returned_successors cfg0 lb i b :
  create_all_basic_blocks segments = Done (cfg0, lb) →
  cfg_blocks cfg !! i = Some b →
  branch_type b ≠ BranchType.Return →
  to b = successors lb (length (cfg_blocks cfg)) i b.
Proof using returned.
  intros Hcreate Hb Hbt.
  destruct (create_control_flow_graph_stages _ _ _ returned)
    as (cfg0' & lb' & linked & callers & Hc & _ & _ & _ & Hbuilt & Happ & _
        & Hg).
  rewrite Hcreate in Hc. injection Hc as <- <-.
  assert (length (cfg_blocks cfg) = length (cfg_blocks cfg0)) as Hlen.
  { rewrite <- (length_fmap static (cfg_blocks cfg)).
    by rewrite (returned_static _ _ Hcreate), length_fmap. }
  destruct (lookup_lt_is_Some_2 (cfg_blocks cfg0) i) as [b0 Hb0].
  { rewrite <- Hlen. by eapply lookup_lt_Some. }
  destruct Happ as [_ Happ].
  destruct (Happ i b0 Hb0) as (b1 & Hb1 & Hs1 & Hto1).
  destruct (grows_lookup _ _ _ _ Hg Hb1) as (b' & more & Hb' & Hs & Hto & Hm).
  assert (b' = b) as -> by congruence.
  assert (to b0 = []) as Hto0.
  { destruct Hbuilt as [_ Hun _ _ _ _]. cbn in Hun.
    rewrite Forall_lookup in Hun. by destruct (Hun i b0 Hb0). }
  rewrite Hto, Hto1, Hto0, Hm. 2:{
    unfold static in Hs. injection Hs as _ _ _ Hs _. congruence. }
  unfold successors_at. rewrite Hb0, app_nil_r, Hlen. cbn.
  symmetry. apply successors_static. congruence.
Qed.

Lemma returned_callers cfg0 lb c r :
  create_all_basic_blocks segments = Done (cfg0, lb) →
  (c, r) ∈ (link_edges lb (cfg_blocks cfg0)).2
  ↔ ∃ b, cfg_blocks cfg !! c = Some b ∧ branch_type b = BranchType.Call
         ∧ r = c + 1 ∧ c + 1 < length (cfg_blocks cfg).
Proof using returned.
  intros Hcreate.
  pose proof (returned_static _ _ Hcreate) as Hst.
  assert (length (cfg_blocks cfg) = length (cfg_blocks cfg0)) as Hlen.
  { rewrite <- (length_fmap static (cfg_blocks cfg)).
    by rewrite Hst, length_fmap. }
  destruct (link_edges_spec lb (cfg_blocks cfg0)) as [_ ->].
  rewrite elem_of_pending_callers, Hlen.
  assert (∀ b b', cfg_blocks cfg !! c = Some b →
                  cfg_blocks cfg0 !! c = Some b' →
                  branch_type b = branch_type b') as Hsame.
  { intros b b' Hb Hb'.
    assert ((static <$> cfg_blocks cfg) !! c = Some (static b')) as H.
    { by rewrite Hst, list_lookup_fmap, Hb'. }
    rewrite list_lookup_fmap, Hb in H. cbn in H.
    by injection H. }
  split; intros (b & Hb & Hbt & ? & ?).
  - destruct (lookup_lt_is_Some_2 (cfg_blocks cfg) c) as [b' Hb']; [lia|].
    exists b'. split_and!; try done. by rewrite (Hsame _ _ Hb' Hb).
  - destruct (lookup_lt_is_Some_2 (cfg_blocks cfg0) c) as [b' Hb']; [lia|].
    exists b'. split_and!; try done. by rewrite <- (Hsame _ _ Hb Hb').
Qed.
End returned_graph.

(** C5. In the graph [create_control_flow_graph] returns, with
    [label_blocks] the label table of block creation and [callers] the
    pairs recorded by the first loop of [link_blocks]:
    - a resolvable label resolves to the first block of a segment that
      carries it;
    - a [None] or [ConditionalJump] block has as successors the
      physically next block (when there is one) followed by the blocks
      its labels resolve to;
    - a [Jump] block has as successors the blocks its labels resolve to,
      and nothing else;
    - a [Call] block has as successors the blocks its labels resolve to,
      and the pair of the block and the next block is recorded;
    - the recorded pairs are exactly those, and a [Return] block that a
      recorded call names is linked to the recorded continuation. *)
Theorem edge_linking_rules (fuel : nat) (segments : list InstructionSegment)
    (cfg : ControlFlowGraph) :
  create_control_flow_graph fuel segments = Done cfg →
  ∃ cfg0 label_blocks linked callers,
    create_all_basic_blocks segments = Done (cfg0, label_blocks)
    ∧ link_edges label_blocks (cfg_blocks cfg0) = (linked, callers)
    ∧ link_callers fuel label_blocks callers linked = Done (cfg_blocks cfg)
    ∧ (∀ label t, label_blocks !! label = Some t →
         entry_of segments (cfg_blocks cfg) label t)
    ∧ (∀ i b, cfg_blocks cfg !! i = Some b →
         let n := length (cfg_blocks cfg) in
         let targets := resolve label_blocks (branch_labels b) in
         match branch_type b with
         | BranchType.None | BranchType.ConditionalJump =>
             to b = (if decide (i + 1 < n) then [i + 1] else []) ++ targets
         | BranchType.Jump => to b = targets
         | BranchType.Call =>
             to b = targets ∧ (i + 1 < n → (i, i + 1) ∈ callers)
         | BranchType.Return => True
         end)
    ∧ (∀ c r, (c, r) ∈ callers
         ↔ ∃ b, cfg_blocks cfg !! c = Some b
                ∧ branch_type b = BranchType.Call
                ∧ r = c + 1 ∧ c + 1 < length (cfg_blocks cfg))
    ∧ (∀ c r cb label sub sb,
         (c, r) ∈ callers →
         cfg_blocks cfg !! c = Some cb → label ∈ branch_labels cb →
         label_blocks !! label = Some sub →
         cfg_blocks cfg !! sub = Some sb →
         branch_type sb = BranchType.Return →
         r ∈ to sb).
Proof.
  intros Hret.
  destruct (create_control_flow_graph_stages _ _ _ Hret)
    as (cfg0 & lb & linked & callers & Hc & He & Hl & _ & Hbuilt & Happ & _
        & Hg).
  pose proof (returned_static _ _ _ Hret _ _ Hc) as Hst.
  assert (∀ c r, (c, r) ∈ callers
            ↔ ∃ b, cfg_blocks cfg !! c = Some b
                   ∧ branch_type b = BranchType.Call
                   ∧ r = c + 1 ∧ c + 1 < length (cfg_blocks cfg)) as Hcallers.
  { intros c r. rewrite <- (returned_callers _ _ _ Hret _ _ _ _ Hc).
    by rewrite He. }
  exists cfg0, lb, linked, callers. split_and!; try done.
  - intros label t Ht. eapply entry_of_static; [done|].
    by apply (built_labels _ _ Hbuilt).
  - intros i b Hb n targets.
    pose proof (returned_successors _ _ _ Hret _ _ _ _ Hc Hb) as Hto.
    unfold successors in Hto.
    destruct (branch_type b) eqn:Hbt; try (by apply Hto); [done|].
    split; [by apply Hto|]. intros Hlt. apply Hcallers. eauto.
  - intros c r cb label sub sb Hin Hcb Hlabel Hsub Hsb Hbt.
    pose proof (grows_static _ _ Hg) as Hst'.
    assert (∀ j b, cfg_blocks cfg !! j = Some b →
                   ∃ b1, linked !! j = Some b1 ∧ static b1 = static b) as Hback.
    { intros j b Hb.
      assert ((static <$> linked) !! j = Some (static b)) as H.
      { by rewrite <- Hst', list_lookup_fmap, Hb. }
      rewrite list_lookup_fmap in H.
      destruct (linked !! j) as [b1|]; [|done]. exists b1.
      split; [done|]. cbn in H. congruence. }
    destruct (Hback _ _ Hcb) as (cb1 & Hcb1 & Hs1).
    destruct (Hback _ _ Hsb) as (sb1 & Hsb1 & Hs2).
    unfold static in Hs1, Hs2.
    injection Hs1 as _ _ _ _ Hl1. injection Hs2 as _ _ _ Hbt2 _.
    destruct (link_callers_returns _ _ _ _ _ c r cb1 label sub sb1 Hl Hin)
      as (sb' & Hsb' & Hr); try done; try congruence.
Qed.

Lemma edge_linking_rules_witness :
  create_control_flow_graph 4 sample_program = Done sample_graph
  ∧ to <$> cfg_blocks sample_graph
    = [[1; 4]; [5]; [3; 4]; [4]; [5]; [2; 5]; []; [5]]
  ∧ ∃ callers : list (nat * nat),
      (∀ c r, (c, r) ∈ callers
         ↔ ∃ b, cfg_blocks sample_graph !! c = Some b
                ∧ branch_type b = BranchType.Call
                ∧ r = c + 1 ∧ c + 1 < length (cfg_blocks sample_graph)).
Proof.
  split; [vm_compute; reflexivity|]. split; [vm_compute; reflexivity|].
  destruct (edge_linking_rules 4 sample_program sample_graph)
    as (cfg0 & lb & linked & callers & _ & _ & _ & _ & _ & Hcallers & _).
  { vm_compute. reflexivity. }
  exists callers. exact Hcallers.
Defined.

Lemma tiling_partitions seg g :
  tiling seg 0 g (length (instructions seg)) → partitions seg g.
Proof.
  intros Ht. split; [done|]. intros j Hj.
  destruct (tiling_cover _ _ _ _ j Ht) as (k & b & Hk & Hr); [lia|].
  exists k, b. split_and!; [done|lia..|].
  intros k' b' Hk' Hr'. by eapply tiling_disjoint.
Qed.

Lemma Forall2_tiling_static segments groups blocks :
  Forall2 (λ seg g, tiling seg 0 g (length (instructions seg)))
    segments groups →
  static <$> blocks = static <$> concat groups →
  ∃ groups',
    blocks = concat groups'
    ∧ Forall2 (λ seg g, tiling seg 0 g (length (instructions seg)))
        segments groups'.
Proof.
  intros HF. revert blocks.
  induction HF as [|seg g segments groups Ht HF IH]; intros blocks Hst.
  - exists []. split; [|constructor].
    cbn in Hst. by apply fmap_nil_inv in Hst.
  - cbn in Hst. rewrite fmap_app in Hst.
    apply fmap_app_inv in Hst as (g' & rest & Hg & Hrest & ->).
    destruct (IH rest (eq_sym Hrest)) as (groups' & -> & HF').
    exists (g' :: groups'). split; [done|].
    constructor; [|done]. by eapply tiling_static.
Qed.

(** C6. In the graph built from a segment list the blocks are, in
    order, one group per segment; the blocks of a group all lie in that
    segment and tile its instruction list (each range is non-empty and
    starts where the previous one ended, the first at 0, the last
    ending at the segment's length), so that every instruction index
    lies in the range of exactly one block; and the instruction table
    maps every instruction of every segment to one block, which holds
    that instruction in its range. *)
Theorem block_partition (fuel : nat) (segments : list InstructionSegment)
    (cfg : ControlFlowGraph) :
  create_control_flow_graph fuel segments = Done cfg →
  (∃ groups,
      cfg_blocks cfg = concat groups
      ∧ Forall2 partitions segments groups)
  ∧ (∀ seg inst, seg ∈ segments → inst ∈ instructions seg →
       ∃ id, cfg_instructions cfg !! inst_id inst = Some id
             ∧ holds (cfg_blocks cfg) (inst_id inst) id)
  ∧ (∀ b, b ∈ cfg_blocks cfg →
       segment b ∈ segments
       ∧ start b < end_ b ∧ end_ b ≤ length (instructions (segment b))).
Proof.
  intros Hret.
  destruct (create_control_flow_graph_stages _ _ _ Hret)
    as (cfg0 & lb & linked & callers & Hc & _ & _ & Hmap & Hbuilt & _ & _ & _).
  pose proof (returned_static _ _ _ Hret _ _ Hc) as Hst.
  destruct Hbuilt as [(groups & Hconcat & HF) _ Hsound Hcover _ _].
  cbn in *. rewrite Hconcat in Hst.
  destruct (Forall2_tiling_static _ _ _ HF Hst) as (groups' & Hblocks & HF').
  split_and!.
  - exists groups'. split; [done|].
    eapply Forall2_impl; [done|]. intros seg g. apply tiling_partitions.
  - intros seg inst Hseg Hinst. rewrite Hmap.
    destruct (Hcover seg inst Hseg Hinst) as [id Hid]. exists id.
    split; [done|]. eapply holds_static; [|by apply Hsound].
    by rewrite Hst, Hconcat.
  - intros b Hb. rewrite Hblocks in Hb.
    apply elem_of_concat in Hb as (g & Hb & Hg).
    apply list_elem_of_lookup in Hg as (k & Hk).
    destruct (Forall2_lookup_r _ _ _ _ _ HF' Hk) as (seg & Hseg & Ht).
    destruct (tiling_segment _ _ _ _ _ Ht Hb) as (-> & _ & ? & ?).
    split; [|done]. by eapply list_elem_of_lookup_2.
Qed.

Lemma block_partition_witness :
  create_control_flow_graph 4 sample_program = Done sample_graph
  ∧ (∀ seg inst, seg ∈ sample_program → inst ∈ instructions seg →
       ∃ id, cfg_instructions sample_graph !! inst_id inst = Some id
             ∧ holds (cfg_blocks sample_graph) (inst_id inst) id).
Proof.
  split; [vm_compute; reflexivity|].
  refine (proj1 (proj2 (block_partition 4 sample_program sample_graph _))).
  vm_compute. reflexivity.
Defined.

Lemma static_lookup (bs bs' : list BasicBlock) j b :
  static <$> bs' = static <$> bs → bs !! j = Some b →
  ∃ b', bs' !! j = Some b' ∧ static b' = static b.
Proof.
  intros Hst Hb.
  assert ((static <$> bs') !! j = Some (static b)) as H.
  { by rewrite Hst, list_lookup_fmap, Hb. }
  rewrite list_lookup_fmap in H.
  destruct (bs' !! j) as [b'|]; [|done]. exists b'.
  split; [done|]. cbn in H. congruence.
Qed.

(** Creating the blocks of further segments appends one tiling per
    segment to the blocks. *)
Lemma for_each_create_basic_blocks_extends segments st st' :
  for_each create_basic_blocks segments st = Done st' →
  ∃ groups,
    cfg_blocks st'.1 = cfg_blocks st.1 ++ concat groups
    ∧ Forall2 (λ seg g, tiling seg 0 g (length (instructions seg)))
        segments groups.
Proof.
  revert st. induction segments as [|seg segments IH]; intros st; cbn.
  - intros [= <-]. exists []. by rewrite app_nil_r.
  - intros ([cfg1 lb1] & Hseg & Hrest)%bind_Done.
    destruct st as [cfg lb]. unfold create_basic_blocks in Hseg.
    apply create_basic_blocks_loop_spec in Hseg
      as (new & Hblocks & Htile & _); [|done|lia|done].
    destruct (IH _ Hrest) as (groups & Hblocks' & HF).
    exists (new :: groups). cbn in *. split; [|by constructor].
    by rewrite Hblocks', Hblocks, <- app_assoc.
Qed.

Lemma list_snoc_cases {A} (l : list A) : l = [] ∨ ∃ l' x, l = l' ++ [x].
Proof. induction l using rev_ind; eauto. Qed.

Lemma Forall2_tiling_empty mid gmid :
  Forall (λ m, instructions m = []) mid →
  Forall2 (λ seg g, tiling seg 0 g (length (instructions seg))) mid gmid →
  concat gmid = [].
Proof.
  intros Hmid HF. induction HF as [|m g mid gmid Ht HF IH]; [done|].
  apply Forall_cons in Hmid as [Hm Hmid]. rewrite Hm in Ht. cbn in Ht.
  apply tiling_empty_range in Ht as ->. cbn. auto.
Qed.

(** C9. Fallthrough and call continuations follow the global block
    order across segment boundaries. For two segments [s] and [s'] with
    instructions that are separated only by segments without
    instructions, the last block [b] of [s] (at index [i]) is directly
    followed by the first block [b'] of [s']; when [b] is a [None] or
    [ConditionalJump] block its first successor is [b'], and when it is
    a [Call] block the pair of [b] and [b'] is recorded as pending.
    The last block of the graph has the blocks its labels resolve to as
    only successors (unless it is a [Return] block), and no pair is
    recorded for it. *)
Theorem fallthrough_across_segments (fuel : nat)
    (segments : list InstructionSegment) (cfg : ControlFlowGraph) :
  create_control_flow_graph fuel segments = Done cfg →
  ∃ cfg0 label_blocks linked callers,
    create_all_basic_blocks segments = Done (cfg0, label_blocks)
    ∧ link_edges label_blocks (cfg_blocks cfg0) = (linked, callers)
    ∧ link_callers fuel label_blocks callers linked = Done (cfg_blocks cfg)
    ∧ (∀ pre s mid s' post,
         segments = pre ++ s :: mid ++ s' :: post →
         instructions s ≠ [] → instructions s' ≠ [] →
         Forall (λ m, instructions m = []) mid →
         ∃ stp i b b',
           create_all_basic_blocks (pre ++ [s]) = Done stp
           ∧ i + 1 = length (cfg_blocks stp.1)
           ∧ cfg_blocks cfg !! i = Some b
           ∧ segment b = s ∧ end_ b = length (instructions s)
           ∧ cfg_blocks cfg !! (i + 1) = Some b'
           ∧ segment b' = s' ∧ start b' = 0
           ∧ (branch_type b = BranchType.None
              ∨ branch_type b = BranchType.ConditionalJump →
              to b = (i + 1) :: resolve label_blocks (branch_labels b))
           ∧ (branch_type b = BranchType.Call → (i, i + 1) ∈ callers))
    ∧ (∀ i b,
         cfg_blocks cfg !! i = Some b →
         i + 1 = length (cfg_blocks cfg) →
         (branch_type b ≠ BranchType.Return →
          to b = resolve label_blocks (branch_labels b))
         ∧ ∀ r, (i, r) ∉ callers).
Proof.
  intros Hret.
  destruct (create_control_flow_graph_stages _ _ _ Hret)
    as (cfg0 & lb & linked & callers & Hc & He & Hl & _ & Hbuilt & _ & _ & _).
  pose proof (returned_static _ _ _ Hret _ _ Hc) as Hst.
  assert (∀ c r, (c, r) ∈ callers
            ↔ ∃ b, cfg_blocks cfg !! c = Some b
                   ∧ branch_type b = BranchType.Call
                   ∧ r = c + 1 ∧ c + 1 < length (cfg_blocks cfg)) as Hcallers.
  { intros c r. rewrite <- (returned_callers _ _ _ Hret _ _ _ _ Hc).
    by rewrite He. }
  exists cfg0, lb, linked, callers. split_and!; try done.
  - intros pre s mid s' post -> Hs Hs' Hmid.
    pose proof Hc as Hc0.
    unfold create_all_basic_blocks in Hc.
    replace (pre ++ s :: mid ++ s' :: post)
      with ((pre ++ [s]) ++ (mid ++ s' :: post)) in Hc
      by by rewrite <- app_assoc.
    rewrite for_each_app in Hc.
    apply bind_Done in Hc as (stp & Hp & Hrest).
    pose proof (create_all_basic_blocks_built _ _ Hp)
      as [(groups & Hconcat & HF) _ _ _ _ _].
    apply Forall2_app_inv_l in HF as (gpre & gs & _ & HFs & ->).
    apply Forall2_cons_inv_l in HFs as (g & gnil & Hg & Hnil & ->).
    apply Forall2_nil_inv_l in Hnil as ->.
    assert (0 < length (instructions s)) as Hlen.
    { destruct (instructions s); [done|cbn; lia]. }
    destruct (list_snoc_cases g) as [->|(g0 & b0 & ->)];
      [by apply tiling_nonempty in Hg|].
    destruct (tiling_segment _ _ _ _ b0 Hg) as (Hseg0 & _);
      [apply elem_of_app; right; left|].
    pose proof (tiling_last _ _ _ _ _ Hg) as Hend0.
    destruct (for_each_create_basic_blocks_extends _ _ _ Hrest)
      as (groups' & Hblocks & HF').
    apply Forall2_app_inv_l in HF' as (gmid & gs' & HFmid & HFs' & ->).
    apply Forall2_cons_inv_l in HFs' as (g' & gpost & Hg' & _ & ->).
    assert (0 < length (instructions s')) as Hlen'.
    { destruct (instructions s'); [done|cbn; lia]. }
    destruct g' as [|b0' g']; [by apply tiling_nonempty in Hg'|].
    destruct (tiling_segment _ _ _ _ b0' Hg') as (Hseg0' & _); [left|].
    pose proof (tiling_first _ _ _ _ _ Hg') as Hstart0'.
    cbn in Hblocks.
    rewrite concat_app, (Forall2_tiling_empty _ _ Hmid HFmid) in Hblocks.
    rewrite Hconcat, concat_app in Hblocks. cbn in Hblocks.
    rewrite app_nil_r in Hblocks.
    set (i := length (concat gpre ++ g0)).
    assert (cfg_blocks cfg0
            = (concat gpre ++ g0) ++ b0 :: b0' :: g' ++ concat gpost)
      as Hshape.
    { rewrite Hblocks, <- !app_assoc. done. }
    assert (cfg_blocks cfg0 !! i = Some b0) as Hi.
    { rewrite Hshape. by apply list_lookup_middle. }
    assert (cfg_blocks cfg0 !! (i + 1) = Some b0') as Hi'.
    { rewrite Hshape, (cons_middle b0), app_assoc.
      apply list_lookup_middle. rewrite length_app. done. }
    destruct (static_lookup _ _ _ _ Hst Hi) as (b & Hb & Hsb).
    destruct (static_lookup _ _ _ _ Hst Hi') as (b' & Hb' & Hsb').
    unfold static in Hsb, Hsb'.
    injection Hsb as Hsg _ Hen _ _. injection Hsb' as Hsg' Hstt' _ _ _.
    exists stp, i, b, b'. split_and!; try done; try congruence.
    + rewrite Hconcat, concat_app. cbn.
      rewrite app_nil_r, app_assoc, length_app. done.
    + intros Hbt.
      rewrite (returned_successors _ _ _ Hret _ _ i b Hc0 Hb)
        by (by destruct Hbt as [-> | ->]).
      unfold successors. apply lookup_lt_Some in Hb'.
      by destruct Hbt as [-> | ->]; rewrite decide_True by done.
    + intros Hbt. apply Hcallers. exists b. split_and!; try done.
      by apply lookup_lt_Some in Hb'.
  - intros i b Hb Hlast. split.
    + intros Hbt.
      rewrite (returned_successors _ _ _ Hret _ _ i b Hc Hb Hbt).
      unfold successors.
      destruct (branch_type b); try done; by rewrite decide_False by lia.
    + intros r (b' & _ & _ & _ & Hlt)%Hcallers. lia.
Qed.

Lemma fallthrough_across_segments_witness :
  create_control_flow_graph 4 sample_program = Done sample_graph
  ∧ ∃ callers : list (nat * nat), (4, 5) ∈ callers ∧ ∀ r, (7, r) ∉ callers.
Proof.
  split; [vm_compute; reflexivity|].
  destruct (fallthrough_across_segments 4 sample_program sample_graph)
    as (cfg0 & lb & linked & callers & _ & _ & _ & Hcross & Hlast).
  { vm_compute. reflexivity. }
  exists callers. split.
  - destruct (Hcross [sample_segment_0] sample_segment_1 []
                sample_segment_2 [sample_segment_3; sample_segment_4])
      as (stp & i & b & b' & Hp & Hi & Hb & _ & _ & _ & _ & _ & _ & Hcall);
      [reflexivity|discriminate|discriminate|constructor|].
    vm_compute in Hp. injection Hp as <-. cbn in Hi.
    assert (i = 4) as -> by lia.
    apply Hcall. vm_compute in Hb. by injection Hb as <-.
  - intros r. eapply (Hlast 7); vm_compute; reflexivity.
Defined.

(** * Termination of return linking *)

Lemma for_each_mono {A St} (f g : St → A → outcome St) xs s s' :
  (∀ s x s', x ∈ xs → f s x = Done s' → g s x = Done s') →
  for_each f xs s = Done s' → for_each g xs s = Done s'.
Proof.
  revert s. induction xs as [|x xs IH]; intros s Hfg; cbn; [done|].
  intros (s1 & H1 & H2)%bind_Done.
  rewrite (Hfg _ _ _ (list_elem_of_here _ _) H1). cbn.
  apply IH; [|done]. intros. apply Hfg; [by right|done].
Qed.

(** More fuel does not change a result. *)
Lemma link_returning_blocks_mono fuel fuel' lb ret block bs bs' :
  fuel ≤ fuel' →
  link_returning_blocks fuel lb ret block bs = Done bs' →
  link_returning_blocks fuel' lb ret block bs = Done bs'.
Proof.
  revert fuel' ret block bs bs'.
  induction fuel as [|fuel IH]; intros fuel' ret block bs bs' Hle; [done|].
  destruct fuel' as [|fuel']; [lia|]. cbn.
  destruct (bs !! block) as [b|]; [|done].
  apply for_each_mono. intros s label s' _.
  destruct (lb !! label) as [sub|]; [|done].
  destruct (s !! sub) as [sb|]; [|done].
  apply IH. lia.
Qed.

Lemma walks_static lb (bs bs' : list BasicBlock) i j :
  static <$> bs' = static <$> bs → walks lb bs i j → walks lb bs' i j.
Proof.
  intros Hst (b & label & Hb & Hl & Hj).
  destruct (static_lookup _ _ _ _ Hst Hb) as (b' & Hb' & Hs).
  exists b', label. split_and!; [done| |done].
  unfold static in Hs. injection Hs as _ _ _ _ ->. done.
Qed.

Section walk_terminates.
Context (lb : gmap Z nat) (bs0 : list BasicBlock) (rank : nat → nat).
Context (reach : nat → Prop).
Hypothesis resolved_in_range : ∀ label j, lb !! label = Some j → j < length bs0.
Hypothesis reach_closed : ∀ i j, reach i → walks lb bs0 i j → reach j.
Hypothesis rank_decreases :
  ∀ i j, reach i → walks lb bs0 i j → rank j < rank i.

(** The walk from a block from which no cycle of label references can
    be reached returns, with some fuel. *)
Lemma link_returning_blocks_terminates n :
  ∀ i, rank i < n → reach i →
  ∀ ret bs, static <$> bs = static <$> bs0 → i < length bs0 →
  ∃ fuel bs', link_returning_blocks fuel lb ret i bs = Done bs'.
Proof using resolved_in_range reach_closed rank_decreases.
  induction n as [|n IH]; intros i Hrank Hreach ret bs Hst Hi; [lia|].
  destruct (lookup_lt_is_Some_2 bs0 i Hi) as [b0 Hb0].
  destruct (static_lookup _ _ _ _ Hst Hb0) as (b & Hb & Hs).
  assert (∀ label, label ∈ branch_labels b →
            ∀ j, lb !! label = Some j → walks lb bs0 i j) as Hwalk.
  { intros label Hl j Hj. exists b0, label. split_and!; [done| |done].
    unfold static in Hs. by injection Hs as _ _ _ _ <-. }
  assert (∀ ls bs1, (∀ label, label ∈ ls → label ∈ branch_labels b) →
            static <$> bs1 = static <$> bs0 →
            ∃ fuel bs',
              for_each
                (λ bs label,
                   match lb !! label with
                   | Datatypes.None => Done bs
                   | Some sub_block =>
                       match bs !! sub_block with
                       | Datatypes.None => Throw
                       | Some sb =>
                           link_returning_blocks fuel lb ret sub_block
                             match branch_type sb with
                             | BranchType.Return => link_to sub_block ret bs
                             | _ => bs
                             end
                       end
                   end) ls bs1 = Done bs') as Hloop.
  { induction ls as [|label ls IHls]; intros bs1 Hls Hst1.
    { by exists 0, bs1. }
    assert (∀ bs2, static <$> bs2 = static <$> bs0 →
              ∃ fuel1 bs3,
                match lb !! label with
                | Datatypes.None => Done bs2
                | Some sub_block =>
                    match bs2 !! sub_block with
                    | Datatypes.None => Throw
                    | Some sb =>
                        link_returning_blocks fuel1 lb ret sub_block
                          match branch_type sb with
                          | BranchType.Return => link_to sub_block ret bs2
                          | _ => bs2
                          end
                    end
                end = Done bs3 ∧ static <$> bs3 = static <$> bs0) as Hhead.
    { intros bs2 Hst2. destruct (lb !! label) as [j|] eqn:Hj.
      2:{ by exists 0, bs2. }
      pose proof (Hwalk label (Hls _ (list_elem_of_here _ _)) j Hj) as Hw.
      pose proof (resolved_in_range _ _ Hj) as Hjlt.
      destruct (lookup_lt_is_Some_2 bs0 j Hjlt) as [sb0 Hsb0].
      destruct (static_lookup _ _ _ _ Hst2 Hsb0) as (sb & Hsb & Hssb).
      rewrite Hsb.
      set (bs2' := match branch_type sb with
                   | BranchType.Return => link_to j ret bs2
                   | _ => bs2
                   end).
      assert (grows bs2 bs2') as Hg.
      { unfold bs2'. destruct (branch_type sb) eqn:Hbt; try apply grows_refl.
        by eapply link_to_grows. }
      assert (static <$> bs2' = static <$> bs0) as Hst2'.
      { by rewrite (grows_static _ _ Hg). }
      destruct (IH j) with (ret := ret) (bs := bs2') as (fuel1 & bs3 & Hrun);
        [|by eapply reach_closed|done|done|].
      { pose proof (rank_decreases _ _ Hreach Hw). lia. }
      exists fuel1, bs3. split; [done|].
      by rewrite (grows_static _ _ (link_returning_blocks_grows _ _ _ _ _ _ Hrun)). }
    destruct (Hhead bs1 Hst1) as (fuel1 & bs3 & Hrun1 & Hst3).
    destruct (IHls bs3) as (fuel2 & bs' & Hrun2); [|done|].
    { intros. apply Hls. by right. }
    exists (fuel1 `max` fuel2), bs'. cbn [for_each].
    apply bind_Done. exists bs3. split.
    - destruct (lb !! label) as [j|]; [|done].
      destruct (bs1 !! j) as [sb|]; [|done].
      eapply link_returning_blocks_mono; [|done]. lia.
    - eapply for_each_mono; [|done]. intros s l s' _. cbv beta.
      destruct (lb !! l) as [j|]; [|done].
      destruct (s !! j) as [sb|]; [|done].
      apply link_returning_blocks_mono. lia. }
  destruct (Hloop (branch_labels b) bs) as (fuel & bs' & Hrun); [done..|].
  exists (S fuel), bs'. cbn [link_returning_blocks]. by rewrite Hb.
Qed.
End walk_terminates.

Lemma link_callers_mono fuel fuel' lb callers bs bs' :
  fuel ≤ fuel' →
  link_callers fuel lb callers bs = Done bs' →
  link_callers fuel' lb callers bs = Done bs'.
Proof.
  intros Hle. apply for_each_mono. intros s [c r] s' _.
  by apply link_returning_blocks_mono.
Qed.

Lemma link_callers_terminates lb (bs0 : list BasicBlock) (rank : nat → nat)
    (callers : list (nat * nat)) :
  (∀ label j, lb !! label = Some j → j < length bs0) →
  (∀ c r, (c, r) ∈ callers → c < length bs0) →
  (∀ c r i j, (c, r) ∈ callers → rtc (walks lb bs0) c i →
              walks lb bs0 i j → rank j < rank i) →
  ∀ bs, static <$> bs = static <$> bs0 →
  ∃ fuel bs', link_callers fuel lb callers bs = Done bs'.
Proof.
  intros Hrange Hcallers Hrank.
  set (reach := λ i, ∃ c r, (c, r) ∈ callers ∧ rtc (walks lb bs0) c i).
  assert (∀ i j, reach i → walks lb bs0 i j → reach j) as Hclosed.
  { intros i j (c & r & Hin & Hrtc) Hw. exists c, r. split; [done|].
    by eapply rtc_r. }
  assert (∀ i j, reach i → walks lb bs0 i j → rank j < rank i) as Hdec.
  { intros i j (c & r & Hin & Hrtc) Hw. by eapply Hrank. }
  assert (∀ cs, (∀ c r, (c, r) ∈ cs → (c, r) ∈ callers) →
            ∀ bs, static <$> bs = static <$> bs0 →
            ∃ fuel bs', link_callers fuel lb cs bs = Done bs') as Hloop.
  { induction cs as [|[c r] cs IH]; intros Hcs bs Hst.
    { by exists 0, bs. }
    pose proof (Hcs c r (list_elem_of_here _ _)) as Hin.
    destruct (link_returning_blocks_terminates lb bs0 rank reach Hrange
                Hclosed Hdec (S (rank c)) c) with (ret := r) (bs := bs)
      as (fuel1 & bs1 & Hrun1); [lia| |done|by eapply Hcallers|].
    { by exists c, r. }
    destruct (IH) with (bs := bs1) as (fuel2 & bs' & Hrun2).
    { intros. apply Hcs. by right. }
    { by rewrite (grows_static _ _
                    (link_returning_blocks_grows _ _ _ _ _ _ Hrun1)). }
    exists (fuel1 `max` fuel2), bs'. unfold link_callers. cbn [for_each].
    apply bind_Done. exists bs1. split.
    - eapply link_returning_blocks_mono; [|done]. lia.
    - eapply link_callers_mono; [|done]. lia. }
  by apply Hloop.
Qed.

(** The walk of [link_returning_blocks] from a block that calls itself
    never returns. *)
Lemma link_returning_blocks_self lb ret block b :
  ∀ fuel bs,
    bs !! block = Some b →
    branch_type b = BranchType.Call →
    (∃ label, branch_labels b = [label] ∧ lb !! label = Some block) →
    link_returning_blocks fuel lb ret block bs = Diverge.
Proof.
  intros fuel. induction fuel as [|fuel IH]; intros bs Hb Hbt Hl; [done|].
  cbn. rewrite Hb. destruct Hl as (label & Hls & Hlabel).
  rewrite Hls. cbn. rewrite Hlabel, Hb, Hbt. rewrite IH; eauto.
Qed.

Lemma recursive_program_diverges fuel :
  create_control_flow_graph fuel recursive_program = Diverge.
Proof.
  unfold create_control_flow_graph.
  destruct (create_all_basic_blocks recursive_program)
    as [[cfg0 lb]| |] eqn:Hc; vm_compute in Hc; try discriminate.
  injection Hc as <- <-. cbn [mbind outcome_bind]. unfold link_blocks.
  match goal with
  | |- context [link_edges ?lb ?bs] =>
      destruct (link_edges lb bs) as [linked callers] eqn:He
  end.
  vm_compute in He. injection He as <- <-.
  unfold link_callers. cbn [for_each].
  erewrite link_returning_blocks_self; [done|reflexivity|reflexivity|].
  by exists 0%Z.
Qed.

(** C3, as stated, fails: on the subroutine [0: call 0; ret], whose
    call refers to its own label, no recursion budget lets graph
    construction terminate. *)
Lemma recursive_subroutine_diverges :
  ¬ ∃ fuel result,
      settled result
      ∧ create_control_flow_graph fuel recursive_program = result.
Proof.
  intros (fuel & result & Hsettled & Hrun).
  rewrite recursive_program_diverges in Hrun. by subst result.
Qed.

(** C3, amended. Block creation and edge linking always terminate; the
    walk of return linking has no guard against revisiting a block.
    [create_control_flow_graph] returns a graph, and the same graph at
    every larger recursion budget, whenever block creation succeeds and
    no cycle of label references ([walks]) can be reached from a block
    recorded as caller: that is, whenever the blocks reachable from the
    recorded callers can be ranked so that every reference goes to a
    block of smaller rank. *)
Theorem construction_terminates_without_reachable_cycle
    (segments : list InstructionSegment) (cfg0 : ControlFlowGraph)
    (label_blocks : gmap Z nat) (rank : nat → nat) :
  create_all_basic_blocks segments = Done (cfg0, label_blocks) →
  (∀ c r i j,
      (c, r) ∈ (link_edges label_blocks (cfg_blocks cfg0)).2 →
      rtc (walks label_blocks (cfg_blocks cfg0)) c i →
      walks label_blocks (cfg_blocks cfg0) i j →
      rank j < rank i) →
  ∃ fuel cfg,
    ∀ fuel', fuel ≤ fuel' →
             create_control_flow_graph fuel' segments = Done cfg.
Proof.
  intros Hc Hrank.
  pose proof (create_all_basic_blocks_built _ _ Hc) as Hbuilt.
  destruct (link_edges_spec label_blocks (cfg_blocks cfg0)) as [Happ Hcs].
  destruct (link_edges label_blocks (cfg_blocks cfg0))
    as [linked callers] eqn:He.
  cbn in Happ, Hcs, Hrank.
  destruct (link_callers_terminates label_blocks (cfg_blocks cfg0) rank callers)
    with (bs := linked) as (fuel & bs' & Hrun).
  - intros label j Hj.
    destruct (built_labels _ _ Hbuilt label j Hj) as (b & Hb & _).
    by eapply lookup_lt_Some.
  - intros c r Hin. rewrite Hcs in Hin.
    apply elem_of_pending_callers in Hin as (_ & _ & _ & _ & ?). lia.
  - done.
  - by eapply appended_static.
  - exists fuel, {| cfg_blocks := bs';
                    cfg_instructions := cfg_instructions cfg0 |}.
    intros fuel' Hle. unfold create_control_flow_graph. rewrite Hc.
    cbn [mbind outcome_bind]. unfold link_blocks. rewrite He.
    by rewrite (link_callers_mono _ _ _ _ _ _ Hle Hrun).
Qed.

Lemma construction_terminates_without_reachable_cycle_witness :
  create_all_basic_blocks call_and_loop_program = Done call_and_loop_built
  ∧ walks call_and_loop_built.2 (cfg_blocks call_and_loop_built.1) 3 3
  ∧ ∃ fuel cfg,
      ∀ fuel', fuel ≤ fuel' →
               create_control_flow_graph fuel' call_and_loop_program = Done cfg.
Proof.
  split; [vm_compute; reflexivity|]. split.
  { eexists _, 2%Z. split_and!; [reflexivity| |reflexivity]. cbn. left. }
  apply (construction_terminates_without_reachable_cycle
           call_and_loop_program call_and_loop_built.1 call_and_loop_built.2
           (λ i, if decide (i = 0) then 1 else 0)).
  { vm_compute. reflexivity. }
  intros c r i j Hin Hrtc Hw.
  assert (c = 0) as ->.
  { vm_compute in Hin. apply list_elem_of_singleton in Hin. congruence. }
  assert (∀ z, walks call_and_loop_built.2 (cfg_blocks call_and_loop_built.1)
                 0 z → z = 2) as H0.
  { intros z (b & label & Hb & Hl & Hz). injection Hb as <-. cbn in Hl.
    apply list_elem_of_singleton in Hl as ->. vm_compute in Hz. congruence. }
  assert (∀ z, ¬ walks call_and_loop_built.2
                   (cfg_blocks call_and_loop_built.1) 2 z) as H2.
  { intros z (b & label & Hb & Hl & Hz). injection Hb as <-. cbn in Hl.
    by apply not_elem_of_nil in Hl. }
  assert (i = 0 ∨ i = 2) as [-> | ->].
  { revert Hrtc. generalize i.
    apply (rtc_ind_r (λ i, i = 0 ∨ i = 2)); [by left|].
    intros y z _ Hw' [-> | ->]; [right; by apply H0|by apply H2 in Hw']. }
  - apply H0 in Hw as ->. cbv beta.
    rewrite decide_False by lia. rewrite decide_True by done. lia.
  - by apply H2 in Hw.
Defined.

(** * Termination of the value-set analysis *)

Lemma for_each_settled_mono {A St} (f g : St → A → outcome St) xs s o :
  (∀ s x o, x ∈ xs → f s x = o → settled o → g s x = o) →
  for_each f xs s = o → settled o → for_each g xs s = o.
Proof.
  revert s. induction xs as [|x xs IH]; intros s Hfg; cbn; [done|].
  destruct (f s x) as [s1| |] eqn:Hf; cbn; intros Ho Hs.
  - rewrite (Hfg s x (Done s1)); [|left|done|done]. cbn.
    apply IH; [|done..]. intros. apply Hfg; [by right|done..].
  - rewrite (Hfg s x Throw); [done|left|done|done].
  - by subst o.
Qed.

(** A loop whose iterations all settle with some budget, for every
    state, settles with some budget. *)
Lemma for_each_settles {A St} (body : nat → St → A → outcome St) xs :
  (∀ fuel fuel' s x o, fuel ≤ fuel' → body fuel s x = o → settled o →
                       body fuel' s x = o) →
  (∀ x, x ∈ xs → ∀ s, ∃ fuel o, settled o ∧ body fuel s x = o) →
  ∀ s, ∃ fuel o, settled o ∧ for_each (body fuel) xs s = o.
Proof.
  intros Hmono. induction xs as [|x xs IH]; intros Hall s.
  - exists 0, (Done s). by split.
  - destruct (Hall x (list_elem_of_here _ _) s) as (f1 & o1 & Ho1 & Hb1).
    destruct o1 as [s1| |]; [| |done].
    + destruct (IH (λ y Hy, Hall y (list_elem_of_further _ _ _ Hy)) s1)
        as (f2 & o2 & Ho2 & Hb2).
      exists (f1 `max` f2), o2. split; [done|]. cbn.
      rewrite (Hmono f1 (f1 `max` f2) s x (Done s1)); [|lia|done|done]. cbn.
      eapply for_each_settled_mono; [|done|done].
      intros s' y o _. apply Hmono. lia.
    + exists f1, Throw. split; [done|]. cbn. by rewrite Hb1.
Qed.

Lemma scan_instruction_mono self self' block b register values i o :
  (∀ bl stop r o, self bl stop r = o → settled o → self' bl stop r = o) →
  scan_instruction self block b register values i = o → settled o →
  scan_instruction self' block b register values i = o.
Proof.
  intros Hself. unfold scan_instruction.
  destruct (instructions (segment b) !! i) as [instruction|]; [|done].
  destruct (opcode instruction); try done.
  destruct (arg_value (args instruction) 0) as [a0| |]; cbn; try done.
  destruct (decide (a0 = register)); [|done].
  destruct (arg_value (args instruction) 1) as [a1| |]; cbn; try done.
  apply Hself.
Qed.

Lemma union_predecessors_mono self self' blocks register preds values o :
  (∀ bl stop r o, self bl stop r = o → settled o → self' bl stop r = o) →
  union_predecessors self blocks register preds values = o → settled o →
  union_predecessors self' blocks register preds values = o.
Proof.
  intros Hself. apply for_each_settled_mono. intros s p o' _.
  destruct (blocks !! p) as [fb|]; [|done].
  destruct (self p (end_ fb) register) as [vs| |] eqn:Hp; cbn.
  - by rewrite (Hself _ _ _ _ Hp).
  - by rewrite (Hself _ _ _ _ Hp).
  - by intros <-.
Qed.

(** More fuel does not change a settled result. *)
Lemma find_value_set_mono fuel fuel' blocks block stop register o :
  fuel ≤ fuel' →
  find_value_set fuel blocks block stop register = o → settled o →
  find_value_set fuel' blocks block stop register = o.
Proof.
  revert fuel' block stop register o.
  induction fuel as [|fuel IH]; intros fuel' block stop register o Hle.
  { cbn. by intros <-. }
  destruct fuel' as [|fuel']; [lia|]. cbn.
  destruct (blocks !! block) as [b|]; [|done].
  assert (∀ bl st r o', find_value_set fuel blocks bl st r = o' → settled o' →
            find_value_set fuel' blocks bl st r = o') as Hself.
  { intros. apply IH; [lia|done..]. }
  destruct (for_each (scan_instruction (find_value_set fuel blocks) _ _ _) _ _)
    as [values| |] eqn:Hscan; cbn.
  - erewrite for_each_settled_mono; [|
      intros s x o' _; by apply scan_instruction_mono|exact Hscan|done].
    cbn. destruct (decide _); [|done].
    by apply union_predecessors_mono.
  - erewrite for_each_settled_mono; [|
      intros s x o' _; by apply scan_instruction_mono|exact Hscan|done].
    done.
  - by intros <-.
Qed.

Section analysis_terminates.
Context (blocks : list BasicBlock) (rank : nat → nat) (reach : nat → Prop).
Hypothesis reach_closed :
  ∀ i b p, reach i → blocks !! i = Some b → p ∈ from b → reach p.
Hypothesis rank_decreases :
  ∀ i b p, reach i → blocks !! i = Some b → p ∈ from b → rank p < rank i.

(** From a block behind which no cycle of predecessor edges lies, the
    scan settles with some fuel. *)
Lemma find_value_set_settles n :
  ∀ block, rank block < n → reach block →
  ∀ stop register,
    ∃ fuel o, settled o ∧ find_value_set fuel blocks block stop register = o.
Proof using reach_closed rank_decreases.
  induction n as [|n IHrank]; intros block Hrank Hreach; [lia|].
  intros stop. induction (lt_wf stop) as [stop _ IHstop]. intros register.
  destruct (blocks !! block) as [b|] eqn:Hb.
  2:{ exists 1, Throw. split; [done|]. cbn. by rewrite Hb. }
  destruct (for_each_settles
              (λ fuel, scan_instruction (find_value_set fuel blocks)
                         block b register)
              (seq (start b) (stop - start b)))
    with (s := ValueSet.new) as (f1 & o1 & Ho1 & Hscan).
  { intros fuel fuel' s x o Hle. apply scan_instruction_mono.
    intros. by eapply find_value_set_mono. }
  { intros i Hi%elem_of_seq s. unfold scan_instruction.
    destruct (instructions (segment b) !! i) as [instruction|];
      [|by exists 0, Throw].
    assert (∀ a1, ∃ fuel o,
              settled o ∧ find_value_set fuel blocks block i a1 = o) as Hcopy.
    { intros a1. apply IHstop. lia. }
    unfold arg_value.
    destruct (opcode instruction);
      try (by exists 0, (Done s));
      (destruct (args instruction !! 0) as [a0|]; cbn;
         [|by exists 0, Throw]);
      (destruct (decide (value a0 = register)); [|by exists 0, (Done s)]);
      (destruct (args instruction !! 1) as [a1|]; cbn;
         [|by exists 0, Throw]);
      try (by eexists 0, (Done _)).
    apply Hcopy. }
  destruct o1 as [values| |]; [| |done].
  2:{ exists (S f1), Throw. split; [done|]. cbn. by rewrite Hb, Hscan. }
  destruct (decide (ValueSet.size values = 0)) as [Hempty|Hne].
  2:{ exists (S f1), (Done values). split; [done|]. cbn.
      rewrite Hb, Hscan. cbn. by rewrite decide_False. }
  destruct (for_each_settles
              (λ fuel values from,
                 match blocks !! from with
                 | Datatypes.None => Throw
                 | Some fb =>
                     vs ← find_value_set fuel blocks from (end_ fb) register;
                     Done (ValueSet.union values vs)
                 end) (from b))
    with (s := values) as (f2 & o2 & Ho2 & Hpreds).
  { intros fuel fuel' s p o Hle.
    destruct (blocks !! p) as [fb|]; [|done].
    destruct (find_value_set fuel blocks p (end_ fb) register)
      as [vs| |] eqn:Hp; cbn.
    - by rewrite (find_value_set_mono _ _ _ _ _ _ _ Hle Hp).
    - by rewrite (find_value_set_mono _ _ _ _ _ _ _ Hle Hp).
    - by intros <-. }
  { intros p Hp s. destruct (blocks !! p) as [fb|]; [|by exists 0, Throw].
    destruct (IHrank p) with (stop := end_ fb) (register := register)
      as (f & o & Ho & Hrun).
    { pose proof (rank_decreases _ _ _ Hreach Hb Hp). lia. }
    { by eapply reach_closed. }
    exists f. rewrite Hrun.
    destruct o as [vs| |]; [|by exists Throw|done].
    exists (Done (ValueSet.union s vs)). by split. }
  exists (S (f1 `max` f2)), o2. split; [done|]. cbn. rewrite Hb.
  erewrite for_each_settled_mono; [| |exact Hscan|done].
  2:{ intros s x o _. apply scan_instruction_mono.
      intros. eapply find_value_set_mono; [|done..]. lia. }
  cbn. rewrite decide_True by done.
  eapply union_predecessors_mono; [|exact Hpreds|done].
  intros. eapply find_value_set_mono; [|done..]. lia.
Qed.
End analysis_terminates.

(** ** The scan does not throw on a well-formed graph *)

Lemma for_each_no_throw {A St} (body : St → A → outcome St) xs s :
  (∀ s x, x ∈ xs → body s x ≠ Throw) →
  for_each body xs s ≠ Throw.
Proof.
  revert s. induction xs as [|x xs IH]; intros s Hbody; cbn; [done|].
  destruct (body s x) as [s1| |] eqn:Hb; cbn; [| |done].
  - apply IH. intros. apply Hbody. by right.
  - exfalso. by eapply Hbody; [left|].
Qed.

Lemma block_ok_spec n b :
  block_ok n b = true →
  start b ≤ end_ b ∧ end_ b ≤ length (instructions (segment b))
  ∧ (∀ p, p ∈ from b → p < n)
  ∧ (∀ i instruction, instructions (segment b) !! i = Some instruction →
       operands_ok instruction = true).
Proof.
  unfold block_ok. rewrite !andb_true_iff, !bool_decide_eq_true.
  intros [[[? ?] Hfrom] Hops]. split_and!; [done..| |].
  - intros p Hp. rewrite forallb_forall in Hfrom.
    apply list_elem_of_In, Hfrom in Hp. by apply bool_decide_eq_true in Hp.
  - intros i instruction Hi. rewrite forallb_forall in Hops.
    apply Hops, list_elem_of_In. by eapply list_elem_of_lookup_2.
Qed.

Lemma find_value_set_no_throw blocks fuel :
  forallb (block_ok (length blocks)) blocks = true →
  ∀ block b stop register,
    blocks !! block = Some b → stop ≤ end_ b →
    find_value_set fuel blocks block stop register ≠ Throw.
Proof.
  intros Hok.
  assert (∀ i b, blocks !! i = Some b → block_ok (length blocks) b = true)
    as Hblock.
  { intros i b Hb. rewrite forallb_forall in Hok.
    apply Hok, list_elem_of_In. by eapply list_elem_of_lookup_2. }
  induction fuel as [|fuel IH]; intros block b stop register Hb Hstop; [done|].
  cbn. rewrite Hb.
  destruct (block_ok_spec _ _ (Hblock _ _ Hb)) as (Hse & Hlen & Hfrom & Hops).
  destruct (for_each _ _ _) as [values| |] eqn:Hscan; cbn; [| |done].
  - destruct (decide _); [|done].
    apply for_each_no_throw. intros s p Hp.
    destruct (lookup_lt_is_Some_2 blocks p (Hfrom p Hp)) as [fb Hfb].
    rewrite Hfb.
    destruct (find_value_set fuel blocks p (end_ fb) register) eqn:Hrun;
      cbn; try done.
    by eapply IH in Hrun.
  - exfalso. revert Hscan. apply for_each_no_throw.
    intros s i Hi%elem_of_seq. unfold scan_instruction.
    destruct (lookup_lt_is_Some_2 (instructions (segment b)) i)
      as [instruction Hinst]; [lia|].
    rewrite Hinst. pose proof (Hops _ _ Hinst) as Hop.
    unfold operands_ok in Hop. unfold arg_value.
    destruct (opcode instruction); try done;
      apply bool_decide_eq_true in Hop;
      (destruct (args instruction) as [|a0 [|a1 ?]]; cbn in Hop; try lia);
      cbn; (destruct (decide _); [|done]); cbn; try done;
      apply (IH block b); [done|lia].
Qed.

Lemma find_inst_idx_le b instruction inst_idx n :
  find_inst_idx b instruction inst_idx n ≤ inst_idx + n.
Proof.
  revert inst_idx. induction n as [|n IH]; intros inst_idx; cbn; [lia|].
  destruct (instructions (segment b) !! inst_idx) as [x|].
  - destruct (decide _); [lia|]. specialize (IH (S inst_idx)). lia.
  - specialize (IH (S inst_idx)). lia.
Qed.

Lemma graph_ok_spec cfg :
  graph_ok cfg = true →
  forallb (block_ok (length (cfg_blocks cfg))) (cfg_blocks cfg) = true
  ∧ ∀ key id, cfg_instructions cfg !! key = Some id →
              id < length (cfg_blocks cfg).
Proof.
  unfold graph_ok. rewrite andb_true_iff. intros [Hblocks Hmap].
  split; [done|]. intros key id Hid.
  rewrite forallb_forall in Hmap.
  apply elem_of_map_to_list, list_elem_of_In, Hmap in Hid.
  by apply bool_decide_eq_true in Hid.
Qed.

(** The scan from the only block of [loop_graph], which is its own
    predecessor, runs out of every budget. *)
Lemma find_value_set_loop fuel :
  ∀ stop, stop ≤ 1 →
          find_value_set fuel (cfg_blocks loop_graph) 0 stop 0 = Diverge.
Proof.
  induction fuel as [|fuel IH]; intros stop Hstop; [done|].
  destruct stop as [|[|stop]]; [| |lia].
  - cbn. rewrite IH; [done|lia].
  - cbn. rewrite IH; [done|lia].
Qed.

Lemma register_value_set_loop fuel :
  register_value_set fuel loop_graph (new_instruction 0 Opcode.jmp [0%Z]) 0
  = Diverge.
Proof.
  unfold register_value_set.
  change (cfg_instructions loop_graph
            !! inst_id (new_instruction 0 Opcode.jmp [0%Z]))
    with (Some 0).
  destruct (cfg_blocks loop_graph !! 0) as [b|] eqn:Hb;
    vm_compute in Hb; [|discriminate].
  injection Hb as <-. apply find_value_set_loop. vm_compute. lia.
Qed.

(** C2, as stated, fails: on the graph of the loop [0: jmp 0] no
    recursion budget lets the analysis of register 0 at the [jmp]
    terminate. *)
Lemma value_set_of_loop_diverges :
  ¬ ∃ fuel result,
      settled result
      ∧ register_value_set fuel loop_graph
          (new_instruction 0 Opcode.jmp [0%Z]) 0 = result.
Proof.
  intros (fuel & result & Hsettled & Hrun).
  rewrite register_value_set_loop in Hrun. by subst result.
Qed.

Section register_value_set_terminates.
Context (cfg : ControlFlowGraph) (rank : nat → nat).
Context (instruction : Instruction) (register : Z).
Hypothesis ranked :
  ∀ block i p,
    cfg_instructions cfg !! inst_id instruction = Some block →
    rtc (precedes (cfg_blocks cfg)) block i →
    precedes (cfg_blocks cfg) i p →
    rank p < rank i.

Lemma register_value_set_settles :
  ∃ fuel result,
    settled result
    ∧ ∀ fuel', fuel ≤ fuel' →
               register_value_set fuel' cfg instruction register = result.
Proof using ranked.
  unfold register_value_set.
  destruct (cfg_instructions cfg !! inst_id instruction) as [block|] eqn:Hid.
  2:{ by exists 0, (Done ValueSet.new). }
  destruct (cfg_blocks cfg !! block) as [b|] eqn:Hb.
  2:{ by exists 0, Throw. }
  destruct (find_value_set_settles (cfg_blocks cfg) rank
              (λ i, rtc (precedes (cfg_blocks cfg)) block i))
    with (n := S (rank block)) (block := block)
         (stop := find_inst_idx b instruction (start b) (end_ b - start b))
         (register := register) as (fuel & o & Ho & Hrun).
  { intros i bi p Hi Hbi Hp. eapply rtc_r; [done|]. by exists bi. }
  { intros i bi p Hi Hbi Hp. eapply ranked; [done..|]. by exists bi. }
  { lia. }
  { done. }
  exists fuel, o. split; [done|]. intros fuel' Hle.
  by eapply find_value_set_mono.
Qed.

Lemma register_value_set_returns :
  graph_ok cfg = true →
  ∃ fuel values,
    ∀ fuel', fuel ≤ fuel' →
             register_value_set fuel' cfg instruction register = Done values.
Proof using ranked.
  intros [Hblocks Hmap]%graph_ok_spec.
  destruct register_value_set_settles as (fuel & o & Ho & Hrun).
  destruct o as [values| |]; [by exists fuel, values| |done].
  exfalso. specialize (Hrun fuel (le_n _)).
  unfold register_value_set in Hrun.
  destruct (cfg_instructions cfg !! inst_id instruction) as [block|] eqn:Hid;
    [|done].
  destruct (cfg_blocks cfg !! block) as [b|] eqn:Hb.
  2:{ apply Hmap in Hid. apply lookup_ge_None in Hb. lia. }
  assert (block_ok (length (cfg_blocks cfg)) b = true) as Hbok.
  { rewrite forallb_forall in Hblocks.
    apply Hblocks, list_elem_of_In. by eapply list_elem_of_lookup_2. }
  apply block_ok_spec in Hbok as (Hse & _).
  eapply find_value_set_no_throw; [done|done| |done].
  pose proof (find_inst_idx_le b instruction (start b) (end_ b - start b)).
  lia.
Qed.
End register_value_set_terminates.

Lemma join_graph_ranked i p :
  precedes (cfg_blocks join_graph) i p → p < i.
Proof.
  intros (b & Hb & Hp).
  destruct i as [|[|[|[|i]]]]; vm_compute in Hb; try discriminate;
    injection Hb as <-; cbn in Hp;
    repeat (apply elem_of_cons in Hp as [->|Hp]; [lia|]);
    by apply not_elem_of_nil in Hp.
Qed.


(** * When the value-set analysis returns *)

Lemma scan_mono fuel fuel' blocks block b stop register o :
  fuel ≤ fuel' →
  scan fuel blocks block b stop register = o → settled o →
  scan fuel' blocks block b stop register = o.
Proof.
  intros Hle. unfold scan. apply for_each_settled_mono.
  intros s x o' _. apply scan_instruction_mono.
  intros. by eapply find_value_set_mono.
Qed.

Lemma scan_agrees fuel fuel' blocks block b stop register values values' :
  scan fuel blocks block b stop register = Done values →
  scan fuel' blocks block b stop register = Done values' →
  values' = values.
Proof.
  intros H H'.
  apply (scan_mono _ (fuel `max` fuel')) in H; [|lia|done].
  apply (scan_mono _ (fuel `max` fuel')) in H'; [|lia|done].
  congruence.
Qed.

Lemma for_each_Done_elem {A St} (body : St → A → outcome St) xs x s s' :
  for_each body xs s = Done s' → x ∈ xs →
  ∃ s1 s2, body s1 x = Done s2.
Proof.
  intros Hrun Hx.
  destruct (for_each_elem (λ _ _, True) body xs x s s') as (s1 & s2 & _ & H & _);
    eauto.
Qed.

(** A call that returns has made finitely many calls. *)
Lemma find_value_set_returns_ends blocks fuel :
  ∀ block stop register values,
    find_value_set fuel blocks block stop register = Done values →
    recursion_ends blocks (block, stop, register).
Proof.
  induction fuel as [|fuel IH]; intros block stop register values;
    cbn [find_value_set]; [done|].
  destruct (blocks !! block) as [b|] eqn:Hb; [|done].
  fold (scan fuel blocks block b stop register).
  intros (scanned & Hscan & Hrest)%bind_Done.
  constructor. intros callee Hcall.
  inversion Hcall as [? b' ? ? i instruction source Hb' Hi Hinst Hop H0 H1
                     |? b' ? ? p pb Hb' Hempty Hp Hpb]; subst.
  - assert (b' = b) as -> by congruence.
    destruct (for_each_Done_elem _ _ i _ _ Hscan) as (s1 & s2 & Hbody).
    { apply elem_of_seq. lia. }
    unfold scan_instruction in Hbody. rewrite Hinst, Hop in Hbody.
    unfold arg_value in Hbody.
    destruct (args instruction !! 0) as [a0|]; [|done].
    destruct (args instruction !! 1) as [a1|]; [|done].
    cbn in H0, H1, Hbody. injection H0 as H0. injection H1 as H1.
    rewrite H0, H1, decide_True in Hbody by done.
    by eapply IH.
  - assert (b' = b) as -> by congruence.
    rewrite (Hempty _ _ Hscan) in Hrest. cbn in Hrest.
    destruct (decide (0 = 0)); [|done].
    destruct (for_each_Done_elem _ _ p _ _ Hrest Hp) as (s1 & s2 & Hbody).
    rewrite Hpb in Hbody. apply bind_Done in Hbody as (vs & Hvs & _).
    by eapply IH.
Qed.

(** A call that makes finitely many calls settles. *)
Lemma find_value_set_ends_settles blocks q :
  recursion_ends blocks q →
  ∃ fuel o, settled o ∧ run fuel blocks q = o.
Proof.
  induction 1 as [[[block stop] register] _ IH]. cbn [run].
  destruct (blocks !! block) as [b|] eqn:Hb.
  2:{ exists 1, Throw. split; [done|]. cbn. by rewrite Hb. }
  destruct (for_each_settles
              (λ fuel, scan_instruction (find_value_set fuel blocks)
                         block b register)
              (seq (start b) (stop - start b)))
    with (s := ValueSet.new) as (f1 & o1 & Ho1 & Hscan).
  { intros fuel fuel' s x o Hle. apply scan_instruction_mono.
    intros. by eapply find_value_set_mono. }
  { intros i Hi%elem_of_seq s. unfold scan_instruction.
    destruct (instructions (segment b) !! i) as [instruction|] eqn:Hinst;
      [|by exists 0, Throw].
    unfold arg_value.
    destruct (opcode instruction) eqn:Hop;
      try (by exists 0, (Done s));
      (destruct (args instruction !! 0) as [a0|] eqn:H0; cbn;
         [|by exists 0, Throw]);
      (destruct (decide (value a0 = register)) as [Ha0|];
         [|by exists 0, (Done s)]);
      (destruct (args instruction !! 1) as [a1|] eqn:H1; cbn;
         [|by exists 0, Throw]);
      try (by eexists 0, (Done _)).
    apply (IH (block, i, value a1)).
    eapply calls_copy; [done|lia|done|done|by rewrite H0, <-Ha0|by rewrite H1]. }
  fold (scan f1 blocks block b stop register) in Hscan.
  destruct o1 as [values| |]; [| |done].
  2:{ exists (S f1), Throw. split; [done|]. cbn [find_value_set].
      rewrite Hb. fold (scan f1 blocks block b stop register).
      by rewrite Hscan. }
  destruct (decide (ValueSet.size values = 0)) as [Hempty|Hne].
  2:{ exists (S f1), (Done values). split; [done|]. cbn [find_value_set].
      rewrite Hb. fold (scan f1 blocks block b stop register).
      rewrite Hscan. cbn [mbind outcome_bind]. by rewrite decide_False. }
  destruct (for_each_settles
              (λ fuel values from,
                 match blocks !! from with
                 | Datatypes.None => Throw
                 | Some fb =>
                     vs ← find_value_set fuel blocks from (end_ fb) register;
                     Done (ValueSet.union values vs)
                 end) (from b))
    with (s := values) as (f2 & o2 & Ho2 & Hpreds).
  { intros fuel fuel' s p o Hle.
    destruct (blocks !! p) as [fb|]; [|done].
    destruct (find_value_set fuel blocks p (end_ fb) register)
      as [vs| |] eqn:Hp; cbn.
    - by rewrite (find_value_set_mono _ _ _ _ _ _ _ Hle Hp).
    - by rewrite (find_value_set_mono _ _ _ _ _ _ _ Hle Hp).
    - by intros <-. }
  { intros p Hp s. destruct (blocks !! p) as [fb|] eqn:Hfb;
      [|by exists 0, Throw].
    destruct (IH (p, end_ fb, register)) as (f & o & Ho & Hrun).
    { eapply calls_predecessor; [done| |done|done].
      intros fuel values' Hscan'.
      by rewrite (scan_agrees _ _ _ _ _ _ _ _ _ Hscan Hscan'). }
    cbn [run] in Hrun. exists f. rewrite Hrun.
    destruct o as [vs| |]; [|by exists Throw|done].
    exists (Done (ValueSet.union s vs)). by split. }
  exists (S (f1 `max` f2)), o2. split; [done|]. cbn [find_value_set].
  rewrite Hb. fold (scan (f1 `max` f2) blocks block b stop register).
  rewrite (scan_mono f1 (f1 `max` f2) _ _ _ _ _ _ ltac:(lia) Hscan) by done.
  cbn [mbind outcome_bind]. rewrite decide_True by done.
  eapply union_predecessors_mono; [|exact Hpreds|done].
  intros. eapply find_value_set_mono; [|done..]. lia.
Qed.

Lemma ranked_recursion_ends blocks (rank : nat → nat) block0 :
  (∀ i p, rtc (precedes blocks) block0 i → precedes blocks i p →
          rank p < rank i) →
  ∀ n i, rank i < n → rtc (precedes blocks) block0 i →
         ∀ stop register, recursion_ends blocks (i, stop, register).
Proof.
  intros Hrank. induction n as [|n IHn]; intros i Hi Hreach; [lia|].
  intros stop. induction (lt_wf stop) as [stop _ IHstop]. intros register.
  constructor. intros callee Hcall.
  inversion Hcall as [? b ? ? j instruction source Hb Hj _ _ _ _
                     |? b ? ? p pb Hb _ Hp _]; subst.
  - apply IHstop. lia.
  - assert (precedes blocks i p) as Hpre by (by exists b).
    apply IHn; [|by eapply rtc_r].
    pose proof (Hrank i p Hreach Hpre). lia.
Qed.

Lemma register_value_set_unfold fuel cfg instruction register block b :
  cfg_instructions cfg !! inst_id instruction = Some block →
  cfg_blocks cfg !! block = Some b →
  register_value_set fuel cfg instruction register
  = run fuel (cfg_blocks cfg)
      (block, find_inst_idx b instruction (start b) (end_ b - start b),
       register).
Proof. intros Hid Hb. unfold register_value_set. by rewrite Hid, Hb. Qed.

(** C2, amended. [register_value_set] keeps no record of the blocks it
    has visited, and whether it returns depends on the calls
    [find_value_set] makes: one at every copy into the register before
    the queried position (for the source register, stopping before the
    copy) and, unless the scan of the block returns a set that is not
    empty, one at the end of every predecessor block. For an
    instruction of the graph:
    - when every chain of these calls from the query is finite, the
      analysis settles, with the same outcome at every larger
      recursion budget, and on a well-formed graph the outcome is a
      value set;
    - conversely, when it returns a value set, every chain of calls
      from the query is finite; so on a well-formed graph with an
      infinite chain it does not return, whatever the budget;
    - every chain is finite, in particular, when no cycle of
      predecessor edges is reachable backwards from the block of the
      instruction. *)
Theorem value_set_returns_iff_recursion_ends (cfg : ControlFlowGraph)
    (instruction : Instruction) (register : Z) (block : nat)
    (b : BasicBlock) :
  cfg_instructions cfg !! inst_id instruction = Some block →
  cfg_blocks cfg !! block = Some b →
  let q := (block,
            find_inst_idx b instruction (start b) (end_ b - start b),
            register) in
  (recursion_ends (cfg_blocks cfg) q →
   ∃ fuel result,
     settled result
     ∧ ∀ fuel', fuel ≤ fuel' →
                register_value_set fuel' cfg instruction register = result)
  ∧ (graph_ok cfg = true → recursion_ends (cfg_blocks cfg) q →
     ∃ fuel values,
       ∀ fuel', fuel ≤ fuel' →
                register_value_set fuel' cfg instruction register
                = Done values)
  ∧ (∀ fuel values,
       register_value_set fuel cfg instruction register = Done values →
       recursion_ends (cfg_blocks cfg) q)
  ∧ (graph_ok cfg = true → ¬ recursion_ends (cfg_blocks cfg) q →
     ∀ fuel, register_value_set fuel cfg instruction register = Diverge)
  ∧ (∀ rank : nat → nat,
       (∀ i p, rtc (precedes (cfg_blocks cfg)) block i →
               precedes (cfg_blocks cfg) i p → rank p < rank i) →
       recursion_ends (cfg_blocks cfg) q).
Proof.
  intros Hid Hb q.
  assert (∀ fuel, register_value_set fuel cfg instruction register
                  = run fuel (cfg_blocks cfg) q) as Hrun.
  { intros fuel. by apply register_value_set_unfold. }
  assert (graph_ok cfg = true →
          ∀ fuel, register_value_set fuel cfg instruction register ≠ Throw)
    as Hno.
  { intros [Hblocks Hmap]%graph_ok_spec fuel. rewrite Hrun. cbn [run].
    assert (block_ok (length (cfg_blocks cfg)) b = true) as Hbok.
    { rewrite forallb_forall in Hblocks.
      apply Hblocks, list_elem_of_In. by eapply list_elem_of_lookup_2. }
    apply block_ok_spec in Hbok as (Hse & _).
    eapply find_value_set_no_throw; [done|done|].
    pose proof (find_inst_idx_le b instruction (start b) (end_ b - start b)).
    lia. }
  assert (recursion_ends (cfg_blocks cfg) q →
          ∃ fuel result,
            settled result
            ∧ ∀ fuel', fuel ≤ fuel' →
                       register_value_set fuel' cfg instruction register
                       = result) as Hsettles.
  { intros (fuel & o & Ho & Ho')%find_value_set_ends_settles.
    exists fuel, o. split; [done|]. intros fuel' Hle. rewrite Hrun.
    cbn [run] in *. by eapply find_value_set_mono. }
  assert (∀ fuel values,
            register_value_set fuel cfg instruction register = Done values →
            recursion_ends (cfg_blocks cfg) q) as Hends.
  { intros fuel values. rewrite Hrun. apply find_value_set_returns_ends. }
  split_and!.
  - exact Hsettles.
  - intros Hok (fuel & o & Ho & Ho')%Hsettles.
    destruct o as [values| |]; [by exists fuel, values| |done].
    by destruct (Hno Hok fuel (Ho' fuel (le_n _))).
  - exact Hends.
  - intros Hok Hinf fuel.
    destruct (register_value_set fuel cfg instruction register)
      as [values| |] eqn:Hout; [|by destruct (Hno Hok fuel)|done].
    by destruct (Hinf (Hends _ _ Hout)).
  - intros rank Hrank.
    eapply (ranked_recursion_ends _ rank block Hrank (S (rank block)));
      [lia|done].
Qed.

Lemma value_set_returns_iff_recursion_ends_witness :
  precedes (cfg_blocks guarded_loop_graph) 1 0
  ∧ precedes (cfg_blocks guarded_loop_graph) 0 0
  ∧ register_value_set 1 guarded_loop_graph
      (new_instruction 2 Opcode.ret []) 0 = Done {[ 1%Z ]}
  ∧ ∃ fuel values,
      ∀ fuel', fuel ≤ fuel' →
               register_value_set fuel' guarded_loop_graph
                 (new_instruction 2 Opcode.ret []) 0
               = Done values.
Proof.
  split; [eexists; split; [reflexivity|]; left|].
  split; [eexists; split; [reflexivity|]; left|].
  split; [vm_compute; reflexivity|].
  destruct (cfg_blocks guarded_loop_graph !! 1) as [b|] eqn:Hb;
    [|vm_compute in Hb; discriminate].
  destruct (value_set_returns_iff_recursion_ends guarded_loop_graph
              (new_instruction 2 Opcode.ret []) 0 1 b eq_refl Hb)
    as (_ & Hreturns & _).
  apply Hreturns; [vm_compute; reflexivity|].
  vm_compute in Hb. injection Hb as <-.
  constructor. intros callee Hcall. exfalso.
  inversion Hcall as [? b ? ? i instruction source Hb Hi Hinst Hop _ _
                     |? b ? ? p pb Hb Hempty _ _]; subst.
  - vm_compute in Hb. injection Hb as <-. cbn in Hi, Hinst.
    assert (i = 1) as -> by lia. cbn in Hinst. injection Hinst as <-.
    discriminate Hop.
  - vm_compute in Hb. injection Hb as <-.
    specialize (Hempty 0 {[ 1%Z ]} eq_refl). vm_compute in Hempty.
    discriminate Hempty.
Defined.

(** * What the scan computes *)

Lemma scan_opaque self block b register values i instruction :
  instructions (segment b) !! i = Some instruction →
  opaque_for register instruction →
  scan_instruction self block b register values i = Done values.
Proof.
  intros Hi Hop. unfold scan_instruction, opaque_for, arg_value in *.
  rewrite Hi.
  destruct (opcode instruction); try done;
    destruct Hop as (a0 & -> & Hne); cbn; by rewrite decide_False.
Qed.

Lemma scan_opaque_range self block b register values s n :
  (∀ j, s ≤ j < s + n →
        ∃ instruction, instructions (segment b) !! j = Some instruction
                       ∧ opaque_for register instruction) →
  for_each (scan_instruction self block b register) (seq s n) values
  = Done values.
Proof.
  revert s. induction n as [|n IH]; intros s Hop; cbn; [done|].
  destruct (Hop s) as (instruction & Hi & Ho); [lia|].
  rewrite (scan_opaque _ _ _ _ _ _ _ Hi Ho). cbn.
  apply IH. intros j Hj. apply Hop. lia.
Qed.

Lemma scan_copy self block b register values i copy source :
  instructions (segment b) !! i = Some copy →
  opcode copy = Opcode.let_ →
  value <$> args copy !! 0 = Some register →
  value <$> args copy !! 1 = Some source →
  scan_instruction self block b register values i = self block i source.
Proof.
  intros Hi Hop H0 H1. unfold scan_instruction, arg_value.
  rewrite Hi, Hop.
  apply fmap_Some in H0 as (a0 & -> & ->).
  apply fmap_Some in H1 as (a1 & -> & ->).
  cbn. by rewrite decide_True.
Qed.

(** C10. Whether the predecessors are consulted is decided by the
    emptiness of the accumulated set. Let the instruction at index [i]
    of a block be a copy [let register, source], let every instruction
    between it and the query point leave [register] alone, and let the
    scan of the instructions before it complete (whatever they are: an
    immediate load to [register] may be among them). If the value set
    of [source] at the copy point is empty, then the value set of
    [register] at the query point is the union, over the predecessors
    of the block, of the value sets of [register] at their ends. *)
Theorem copy_of_empty_falls_back (fuel : nat) (cfg : ControlFlowGraph)
    (instruction copy : Instruction) (register source : Z)
    (block i : nat) (b : BasicBlock) (earlier : ValueSet.t) :
  let blocks := cfg_blocks cfg in
  let stop := find_inst_idx b instruction (start b) (end_ b - start b) in
  cfg_instructions cfg !! inst_id instruction = Some block →
  blocks !! block = Some b →
  start b ≤ i < stop →
  instructions (segment b) !! i = Some copy →
  opcode copy = Opcode.let_ →
  value <$> args copy !! 0 = Some register →
  value <$> args copy !! 1 = Some source →
  (∀ j, i < j < stop →
        ∃ other, instructions (segment b) !! j = Some other
                 ∧ opaque_for register other) →
  for_each (scan_instruction (find_value_set fuel blocks) block b register)
    (seq (start b) (i - start b)) ValueSet.new = Done earlier →
  find_value_set fuel blocks block i source = Done ∅ →
  register_value_set (S fuel) cfg instruction register
  = union_predecessors (find_value_set fuel blocks) blocks register
      (from b) ∅.
Proof.
  intros blocks stop Hid Hb Hi Hcopy Hop H0 H1 Hafter Hbefore Hempty.
  unfold register_value_set. rewrite Hid. fold blocks. rewrite Hb.
  fold stop. cbn [find_value_set]. rewrite Hb.
  replace (stop - start b)
    with ((i - start b) + (1 + (stop - i - 1))) by lia.
  rewrite seq_app, for_each_app, Hbefore.
  replace (start b + (i - start b)) with i by lia.
  cbn [mbind outcome_bind]. rewrite seq_app, for_each_app.
  cbn [seq for_each].
  rewrite (scan_copy _ _ _ _ _ _ _ _ Hcopy Hop H0 H1), Hempty.
  cbn [mbind outcome_bind].
  rewrite scan_opaque_range.
  - cbn [mbind outcome_bind]. by rewrite decide_True.
  - intros j Hj. apply Hafter. lia.
Qed.

Lemma copy_of_empty_falls_back_witness :
  register_value_set 3 copy_graph (new_instruction 4 Opcode.ret []) 0
  = Done {[ 1%Z ]}
  ∧ find_value_set 2 (cfg_blocks copy_graph) 1 1 0 = Done {[ 9%Z ]}.
Proof.
  split; [|vm_compute; reflexivity].
  etrans.
  - eapply (copy_of_empty_falls_back 2 copy_graph
              (new_instruction 4 Opcode.ret [])
              (new_instruction 3 Opcode.let_ [0%Z; 5%Z]) 0 5 1 1 _ {[ 9%Z ]}).
    + reflexivity.
    + reflexivity.
    + vm_compute. lia.
    + reflexivity.
    + reflexivity.
    + reflexivity.
    + reflexivity.
    + intros j Hj. vm_compute in Hj. lia.
    + vm_compute. reflexivity.
    + vm_compute. reflexivity.
  - vm_compute. reflexivity.
Defined.

(** ** The forward scan against the backward scan *)

Lemma size_singleton_ne (v : Z) : base.size ({[ v ]} : gset Z) ≠ 0.
Proof. by rewrite size_singleton. Qed.

(** What one iteration of the forward scan does, in terms of the
    instruction's effect on the register. *)
Lemma scan_instruction_effect self block b register values i vals :
  scan_instruction self block b register values i = Done vals →
  ∃ instruction,
    instructions (segment b) !! i = Some instruction
    ∧ match Reference.effect_on register instruction with
      | Reference.Immediate v => vals = {[ v ]}
      | Reference.Copy source => self block i source = Done vals
      | Reference.Opaque => vals = values
      end.
Proof.
  unfold scan_instruction, Reference.effect_on, arg_value. intros H.
  destruct (instructions (segment b) !! i) as [instruction|]; [|done].
  exists instruction. split; [done|].
  destruct (args instruction) as [|a0 [|a1 rest]];
    destruct (opcode instruction); cbn in *;
    repeat case_decide; try done; try congruence.
  all: try (by injection H).
Qed.

Section scan_refines.
Context (self self' : nat → nat → Z → outcome ValueSet.t).
Context (blocks : list BasicBlock) (block : nat) (b : BasicBlock).
Context (register : Z).
Hypothesis self_refines :
  ∀ bl stop r values, self bl stop r = Done values →
                      self' bl stop r = Done values.

(** The set accumulated by the forward scan of [n] instructions is the
    one the backward scan stops at; where the forward scan ends with an
    empty set, the backward scan has come to the predecessors. *)
Lemma scan_forward_backward at_start n values :
  for_each (scan_instruction self block b register)
    (seq (start b) n) ValueSet.new = Done values →
  Reference.scan_backward true self' at_start block b register n
  = if decide (ValueSet.size values = 0) then at_start else Done values.
Proof using self_refines.
  revert values. induction n as [|n IH]; intros values.
  { cbn. intros [= <-]. by rewrite decide_True. }
  rewrite seq_S, for_each_app. cbn [for_each].
  intros (v1 & Hv1 & Hlast)%bind_Done.
  specialize (IH v1 Hv1).
  apply bind_Done in Hlast as (vals & Hstep & [= ->]).
  apply scan_instruction_effect in Hstep as (instruction & Hi & Heffect).
  cbn [Reference.scan_backward]. rewrite Hi.
  cbn [fmap option_fmap option_map].
  destruct (Reference.effect_on register instruction) as [v|source|].
  - subst values. by rewrite decide_False by apply size_singleton_ne.
  - rewrite (self_refines _ _ _ _ Heffect). cbn.
    unfold ValueSet.size.
    destruct (decide (base.size values = 0)) as [Hz|Hz].
    + by rewrite bool_decide_eq_true_2.
    + by rewrite bool_decide_eq_false_2.
  - by subst values.
Qed.

Lemma union_predecessors_union_all preds acc values :
  union_predecessors self blocks register preds acc = Done values →
  for_each (λ (acc : gset Z) p,
              match blocks !! p with
              | Datatypes.None => Throw
              | Some pb =>
                  vs ← self' p (end_ pb) register; Done (acc ∪ vs)
              end) preds acc = Done values.
Proof using self_refines.
  unfold union_predecessors. apply for_each_mono. intros s p s' _.
  destruct (blocks !! p) as [pb|]; [|done].
  intros (vs & Hvs & Hs')%bind_Done.
  by rewrite (self_refines _ _ _ _ Hvs).
Qed.
End scan_refines.

(** Whenever [find_value_set] returns a set, it is the set of the
    backward scan with the fallback for empty copies. *)
Lemma find_value_set_refines fuel blocks block stop register values :
  find_value_set fuel blocks block stop register = Done values →
  Reference.value_set_at true fuel blocks block stop register = Done values.
Proof.
  revert block stop register values.
  induction fuel as [|fuel IH]; intros block stop register values; [done|].
  cbn [find_value_set Reference.value_set_at].
  destruct (blocks !! block) as [b|]; [|done].
  intros (vals & Hscan & Hrest)%bind_Done.
  rewrite (scan_forward_backward _ _ block b register IH _ _ _ Hscan).
  destruct (decide (ValueSet.size vals = 0)) as [Hz|Hz]; [|done].
  unfold ValueSet.size in Hz. apply size_empty_inv in Hz.
  apply leibniz_equiv in Hz. subst vals.
  unfold Reference.union_all.
  by apply (union_predecessors_union_all _ _ _ _ IH).
Qed.

Lemma register_value_set_refines fuel cfg instruction register values :
  register_value_set fuel cfg instruction register = Done values →
  Reference.register_value_set true fuel cfg instruction register
  = Done values.
Proof.
  unfold register_value_set, Reference.register_value_set.
  destruct (cfg_instructions cfg !! inst_id instruction) as [block|];
    [|done].
  destruct (cfg_blocks cfg !! block) as [b|]; [|done].
  apply find_value_set_refines.
Qed.

(** C4, as stated, fails: in [copy_program] the nearest instruction
    that resolves register 0 before the [ret] is a copy from register 5,
    which nothing assigns. The backward scan of the specification stops
    there with the empty set; the code goes on to the predecessor and
    returns {1}. *)
Lemma copy_of_empty_differs_from_backward_scan :
  register_value_set 3 copy_graph (new_instruction 4 Opcode.ret []) 0
  = Done {[ 1%Z ]}
  ∧ Reference.register_value_set false 3 copy_graph
      (new_instruction 4 Opcode.ret []) 0
    = Done ∅
  ∧ register_value_set 3 copy_graph (new_instruction 4 Opcode.ret []) 0
    ≠ Reference.register_value_set false 3 copy_graph
        (new_instruction 4 Opcode.ret []) 0.
Proof.
  assert (register_value_set 3 copy_graph (new_instruction 4 Opcode.ret []) 0
          = Done {[ 1%Z ]}) as Hcode by (vm_compute; reflexivity).
  assert (Reference.register_value_set false 3 copy_graph
            (new_instruction 4 Opcode.ret []) 0 = Done ∅) as Href
    by (vm_compute; reflexivity).
  split_and!; [done|done|]. rewrite Hcode, Href. intros H.
  pose proof (f_equal (λ o : outcome (gset Z),
                         match o with Done s => s | _ => ∅ end) H) as Hs.
  cbv beta iota in Hs.
  apply (not_elem_of_empty (C := gset Z) 1%Z).
  refine (eq_ind _ (λ s : gset Z, (1%Z : Z) ∈ s) _ _ Hs).
  by apply elem_of_singleton.
Qed.

(** C4, amended. Whenever [register_value_set] returns a set, it is the
    set of the backward scan in which the nearest immediate load to the
    register yields a singleton, the nearest copy yields the value set
    of its source at the copy point, other instructions are skipped, and
    the union over the predecessors is taken at the block start and
    also when a copy yields the empty set. On a well-formed graph
    without a reachable cycle of predecessor edges both return, with
    the same set. Queried right after [leti r0, 5] the result is {5};
    queried at the entry of the block joining [r2 := 1] and [r2 := 2]
    it is {1, 2}. *)
Theorem value_set_matches_backward_scan :
  (∀ fuel cfg instruction register values,
      register_value_set fuel cfg instruction register = Done values →
      Reference.register_value_set true fuel cfg instruction register
      = Done values)
  ∧ (∀ cfg (rank : nat → nat) instruction register,
      graph_ok cfg = true →
      (∀ block i p,
          cfg_instructions cfg !! inst_id instruction = Some block →
          rtc (precedes (cfg_blocks cfg)) block i →
          precedes (cfg_blocks cfg) i p →
          rank p < rank i) →
      ∃ fuel values,
        ∀ fuel', fuel ≤ fuel' →
          register_value_set fuel' cfg instruction register = Done values
          ∧ Reference.register_value_set true fuel' cfg instruction register
            = Done values)
  ∧ (∀ fuel, 1 ≤ fuel →
      register_value_set fuel sample_graph
        (new_instruction 1 Opcode.jmp_on [1%Z; 0%Z]) 0
      = Done {[ 5%Z ]})
  ∧ (∀ fuel, 2 ≤ fuel →
      register_value_set fuel join_graph
        (new_instruction 5 (Opcode.other 0) []) 2
      = Done {[ 1%Z; 2%Z ]}).
Proof.
  split_and!.
  - apply register_value_set_refines.
  - intros cfg rank instruction register Hok Hrank.
    destruct (register_value_set_returns cfg rank instruction register
                Hrank Hok) as (fuel & values & Hrun).
    exists fuel, values. intros fuel' Hle. split; [by apply Hrun|].
    apply register_value_set_refines. by apply Hrun.
  - intros fuel Hle. unfold register_value_set.
    change (cfg_instructions sample_graph
              !! inst_id (new_instruction 1 Opcode.jmp_on [1%Z; 0%Z]))
      with (Some 0).
    destruct (cfg_blocks sample_graph !! 0) as [b|] eqn:Hb;
      vm_compute in Hb; [|discriminate].
    injection Hb as <-.
    eapply find_value_set_mono; [exact Hle|vm_compute; reflexivity|done].
  - intros fuel Hle. unfold register_value_set.
    change (cfg_instructions join_graph
              !! inst_id (new_instruction 5 (Opcode.other 0) []))
      with (Some 3).
    destruct (cfg_blocks join_graph !! 3) as [b|] eqn:Hb;
      vm_compute in Hb; [|discriminate].
    injection Hb as <-.
    eapply find_value_set_mono; [exact Hle|vm_compute; reflexivity|done].
Qed.

Lemma value_set_matches_backward_scan_witness :
  Reference.register_value_set true 3 copy_graph
    (new_instruction 4 Opcode.ret []) 0
  = Done {[ 1%Z ]}
  ∧ graph_ok join_graph = true
  ∧ ∃ fuel values,
      ∀ fuel', fuel ≤ fuel' →
        register_value_set fuel' join_graph
          (new_instruction 5 (Opcode.other 0) []) 2 = Done values
        ∧ Reference.register_value_set true fuel' join_graph
            (new_instruction 5 (Opcode.other 0) []) 2 = Done values.
Proof.
  split_and!.
  - apply (proj1 value_set_matches_backward_scan). vm_compute. reflexivity.
  - vm_compute. reflexivity.
  - apply (proj1 (proj2 value_set_matches_backward_scan)
             join_graph (λ i, i)).
    + vm_compute. reflexivity.
    + intros block i p _ _ Hp. by apply join_graph_ranked.
Defined.

(** * Unresolved references *)

Lemma classify_no_throw inst is_last :
  branch_operands_ok inst = true → classify inst is_last ≠ Throw.
Proof.
  unfold branch_operands_ok, classify, arg_value.
  destruct (opcode inst); try done;
    try (by destruct is_last);
    intros Hok%bool_decide_eq_true;
    destruct (args inst) as [|a0 [|a1 [|a2 ?]]]; cbn in *; try done; lia.
Qed.

Lemma create_basic_blocks_loop_no_throw seg rest i s fb st :
  Forall (λ inst, branch_operands_ok inst = true) rest →
  ∃ st', create_basic_blocks_loop seg rest i s fb st = Done st'.
Proof.
  revert i s fb st. induction rest as [|inst rest IH]; intros i s fb st Hok.
  { by exists st. }
  apply Forall_cons in Hok as [Hinst Hrest]. cbn.
  pose proof (classify_no_throw inst
                (bool_decide (i = length (instructions seg) - 1)) Hinst) as H.
  destruct (classify inst _) as [[[bt bl]|]| |] eqn:Hc; cbn; [..|done|].
  - by apply IH.
  - by apply IH.
  - exfalso. revert Hc. unfold classify, arg_value.
    destruct (opcode inst); try done;
      try (by destruct (bool_decide _));
      by destruct (args inst !! _).
Qed.

Lemma create_all_basic_blocks_no_throw segments :
  (∀ seg inst, seg ∈ segments → inst ∈ instructions seg →
               branch_operands_ok inst = true) →
  ∃ st, create_all_basic_blocks segments = Done st.
Proof.
  unfold create_all_basic_blocks. generalize empty_builder.
  induction segments as [|seg segments IH]; intros st Hok.
  { by exists st. }
  cbn [for_each].
  destruct (create_basic_blocks_loop_no_throw seg (instructions seg) 0 0
              true st) as (st1 & Hseg).
  { apply Forall_forall. intros inst Hinst. eapply Hok; [left|done]. }
  change (create_basic_blocks st seg) with
    (create_basic_blocks_loop seg (instructions seg) 0 0 true st).
  rewrite Hseg. cbn [mbind outcome_bind]. apply IH.
  intros seg' inst Hseg'. apply Hok. by right.
Qed.

Lemma for_each_no_throw_inv {A St} (P : St → Prop)
    (body : St → A → outcome St) xs s :
  P s →
  (∀ s x, x ∈ xs → P s →
          body s x ≠ Throw ∧ ∀ s', body s x = Done s' → P s') →
  for_each body xs s ≠ Throw.
Proof.
  revert s. induction xs as [|x xs IH]; intros s Hs Hbody; cbn; [done|].
  destruct (Hbody s x (list_elem_of_here _ _) Hs) as [Hne Hnext].
  destruct (body s x) as [s1| |]; cbn; [|done|done].
  apply IH; [by apply Hnext|]. intros s' y Hy. apply Hbody. by right.
Qed.

Lemma grows_length bs bs' : grows bs bs' → length bs' = length bs.
Proof. by intros (ts & [Hlen _] & _). Qed.

Lemma link_returning_blocks_no_throw lb n fuel :
  (∀ label j, lb !! label = Some j → j < n) →
  ∀ ret block bs,
    length bs = n → block < n →
    link_returning_blocks fuel lb ret block bs ≠ Throw.
Proof.
  intros Hrange. induction fuel as [|fuel IH]; intros ret block bs Hlen Hblock;
    [done|].
  cbn. destruct (lookup_lt_is_Some_2 bs block) as [b ->]; [lia|].
  apply (for_each_no_throw_inv (λ s, length s = n)); [done|].
  intros s label _ Hs. destruct (lb !! label) as [j|] eqn:Hj.
  2:{ split; [done|]. by intros s' [= <-]. }
  pose proof (Hrange _ _ Hj) as Hjn.
  destruct (lookup_lt_is_Some_2 s j) as [sb ->]; [lia|].
  assert (length (match branch_type sb with
                  | BranchType.Return => link_to j ret s
                  | _ => s
                  end) = n) as Hlen'.
  { destruct (branch_type sb); try done.
    unfold link_to. by rewrite !length_alter. }
  split; [by apply IH|].
  intros s' Hrun%link_returning_blocks_grows%grows_length. congruence.
Qed.

Lemma resolve_filter lb label ls :
  lb !! label = Datatypes.None →
  resolve lb ls = resolve lb (filter (λ l, l ≠ label) ls).
Proof.
  intros Hnone. induction ls as [|l ls IH]; [done|].
  rewrite filter_cons. destruct (decide (l ≠ label)) as [Hne|Heq].
  - rewrite !resolve_cons, IH. done.
  - apply dec_stable in Heq as ->. by rewrite resolve_cons, Hnone.
Qed.

Lemma successors_fallthrough lb n i b :
  branch_type b ≠ BranchType.Return →
  successors lb n i b = fallthrough n i b ++ resolve lb (branch_labels b).
Proof. unfold successors, fallthrough. by destruct (branch_type b). Qed.

Lemma link_callers_no_throw fuel lb callers bs :
  (∀ label j, lb !! label = Some j → j < length bs) →
  (∀ c r, (c, r) ∈ callers → c < length bs) →
  link_callers fuel lb callers bs ≠ Throw.
Proof.
  intros Hrange Hcallers. unfold link_callers.
  apply (for_each_no_throw_inv (λ s, length s = length bs)); [done|].
  intros s [c r] Hin Hs. split.
  - eapply link_returning_blocks_no_throw; [done|done|by eapply Hcallers].
  - intros s' Hrun%link_returning_blocks_grows%grows_length. congruence.
Qed.

(** C7. Unresolved references do not make the analysis fail:
    - for a program whose branch instructions have their label operand,
      [create_control_flow_graph] does not throw, whether or not the
      labels resolve;
    - a branch label that no segment carries has no entry in the label
      table and contributes no edge: the successors of a block are its
      fallthrough successor followed by the blocks that its other
      labels resolve to;
    - [register_value_set] of an instruction that is not in the graph's
      instruction table is the empty value set. *)
Theorem dangling_references_degrade :
  (∀ fuel segments,
      (∀ seg inst, seg ∈ segments → inst ∈ instructions seg →
                   branch_operands_ok inst = true) →
      create_control_flow_graph fuel segments ≠ Throw)
  ∧ (∀ fuel segments cfg label,
      create_control_flow_graph fuel segments = Done cfg →
      (∀ seg, seg ∈ segments → label ∉ labels seg) →
      ∃ cfg0 label_blocks,
        create_all_basic_blocks segments = Done (cfg0, label_blocks)
        ∧ label_blocks !! label = Datatypes.None
        ∧ ∀ i b,
            cfg_blocks cfg !! i = Some b →
            branch_type b ≠ BranchType.Return →
            to b = fallthrough (length (cfg_blocks cfg)) i b
                   ++ resolve label_blocks
                        (filter (λ l, l ≠ label) (branch_labels b)))
  ∧ (∀ fuel cfg instruction register,
      cfg_instructions cfg !! inst_id instruction = Datatypes.None →
      register_value_set fuel cfg instruction register = Done ∅).
Proof.
  split_and!.
  - intros fuel segments Hok.
    destruct (create_all_basic_blocks_no_throw segments Hok)
      as ([cfg0 lb] & Hc).
    pose proof (create_all_basic_blocks_built _ _ Hc) as Hbuilt.
    unfold create_control_flow_graph. rewrite Hc.
    cbn [mbind outcome_bind]. unfold link_blocks.
    destruct (link_edges_spec lb (cfg_blocks cfg0)) as [[Hlen _] Hcs].
    destruct (link_edges lb (cfg_blocks cfg0)) as [linked callers].
    cbn in Hlen, Hcs.
    pose proof (link_callers_no_throw fuel lb callers linked) as Hno.
    destruct (link_callers fuel lb callers linked); cbn; try done.
    intros _. apply Hno; [| |done].
    + intros label j Hj. rewrite Hlen.
      destruct (built_labels _ _ Hbuilt label j Hj) as (b & Hb & _).
      by eapply lookup_lt_Some.
    + intros c r Hin. rewrite Hcs in Hin. rewrite Hlen.
      apply elem_of_pending_callers in Hin as (_ & _ & _ & _ & ?). lia.
  - intros fuel segments cfg label Hret Hnone.
    destruct (create_control_flow_graph_stages _ _ _ Hret)
      as (cfg0 & lb & linked & callers & Hc & _ & _ & _ & Hbuilt & _).
    assert (lb !! label = Datatypes.None) as Hlabel.
    { destruct (lb !! label) as [id|] eqn:Hid; [|done].
      destruct (built_labels _ _ Hbuilt label id Hid) as (b & _ & _ & Hl & Hs).
      by apply Hnone in Hs. }
    exists cfg0, lb. split_and!; [done..|].
    intros i b Hb Hbt.
    rewrite (returned_successors _ _ _ Hret _ _ _ _ Hc Hb Hbt).
    rewrite successors_fallthrough by done.
    by rewrite <- resolve_filter.
  - intros fuel cfg instruction register Hid.
    unfold register_value_set. by rewrite Hid.
Qed.

Lemma dangling_references_degrade_witness :
  (∀ fuel, create_control_flow_graph fuel sample_program ≠ Throw)
  ∧ create_control_flow_graph 4 sample_program = Done sample_graph
  ∧ to <$> cfg_blocks sample_graph !! 6 = Some []
  ∧ register_value_set 0 sample_graph (new_instruction 77 Opcode.ret []) 0
    = Done ∅.
Proof.
  destruct dangling_references_degrade as (Hno & Hedge & Hempty).
  split_and!.
  - intros fuel. apply Hno. intros seg inst Hseg Hinst.
    unfold sample_program in Hseg.
    repeat (apply elem_of_cons in Hseg as [->|Hseg];
            [cbn in Hinst;
             repeat (apply elem_of_cons in Hinst as [->|Hinst];
                     [reflexivity|]);
             by apply not_elem_of_nil in Hinst|]).
    by apply not_elem_of_nil in Hseg.
  - vm_compute. reflexivity.
  - destruct (Hedge 4 sample_program sample_graph 9%Z)
      as (cfg0 & lb & _ & _ & Hto).
    + vm_compute. reflexivity.
    + intros seg Hseg. unfold sample_program in Hseg.
      repeat (apply elem_of_cons in Hseg as [->|Hseg];
              [cbn; intros [=]%list_elem_of_singleton|]).
      by apply not_elem_of_nil in Hseg.
    + destruct (cfg_blocks sample_graph !! 6) as [b|] eqn:Hb;
        vm_compute in Hb; [|discriminate].
      cbn. f_equal. rewrite (Hto 6 b).
      * injection Hb as <-. reflexivity.
      * by vm_compute.
      * injection Hb as <-. discriminate.
  - apply Hempty. vm_compute. reflexivity.
Defined.

(** * Round trip of the binary codec *)

Section codec_round_trip.
Context (F : Codec.Format) (lawful : Codec.Lawful F).

Lemma read_write_code c rest :
  Codec.valid_code F c →
  Codec.read_code F (Codec.write_code F c ++ rest) = Some (c, rest).
Proof using lawful.
  pose proof (Codec.escape_byte F lawful) as He.
  unfold Codec.valid_code, Codec.write_code, Codec.read_code.
  intros [[Hc Hne]|Hc].
  - rewrite decide_True by lia. cbn.
    rewrite decide_False by done. by rewrite decide_True.
  - rewrite decide_False by lia. cbn.
    rewrite decide_True by done.
    rewrite decide_True by (unfold Codec.is_byte; lia).
    do 2 f_equal. lia.
Qed.

Lemma write_read_code bs c rest :
  Codec.read_code F bs = Some (c, rest) →
  Codec.valid_code F c ∧ bs = Codec.write_code F c ++ rest.
Proof using lawful.
  pose proof (Codec.escape_byte F lawful) as He.
  unfold Codec.valid_code, Codec.write_code, Codec.read_code, Codec.is_byte.
  destruct bs as [|b bs]; [done|].
  destruct (decide (b = Codec.escape F)) as [->|Hne].
  - destruct bs as [|lo bs]; [done|].
    destruct (decide _) as [Hlo|]; [|done]. intros [= <- <-].
    split; [right; lia|]. rewrite decide_False by lia. cbn.
    do 2 f_equal. lia.
  - destruct (decide _) as [Hb|]; [|done]. intros [= <- <-].
    split; [by left|]. by rewrite decide_True by lia.
Qed.

Lemma write_code_nonempty c : Codec.write_code F c ≠ [].
Proof. unfold Codec.write_code. by destruct (decide _). Qed.

Lemma read_write_params ts vs rest :
  Forall2 (Codec.valid F) ts vs →
  Codec.read_params F ts (Codec.write_params F ts vs ++ rest)
  = Some (vs, rest).
Proof using lawful.
  induction 1 as [|t v ts vs Hv _ IH]; cbn; [done|].
  rewrite <- app_assoc, (Codec.get_put F lawful) by done. cbn.
  by rewrite IH.
Qed.

Lemma write_read_params ts bs vs rest :
  Codec.read_params F ts bs = Some (vs, rest) →
  Forall2 (Codec.valid F) ts vs
  ∧ bs = Codec.write_params F ts vs ++ rest.
Proof using lawful.
  revert bs vs. induction ts as [|t ts IH]; intros bs vs; cbn.
  { intros [= <- <-]. by split. }
  destruct (Codec.get F t bs) as [[v r1]|] eqn:Hget; [|done]. cbn.
  destruct (Codec.read_params F ts r1) as [[ws r2]|] eqn:Hrest; [|done].
  cbn. intros [= <- <-].
  apply (Codec.put_get F lawful) in Hget as [Hv ->].
  apply IH in Hrest as [Hws ->].
  split; [by constructor|]. cbn. by rewrite <- app_assoc.
Qed.

Lemma write_params_app ts vs ws :
  length vs = length ts →
  Codec.write_params F ts (vs ++ ws) = Codec.write_params F ts vs.
Proof.
  revert vs. induction ts as [|t ts IH]; intros [|v vs]; cbn; try done.
  intros [= Hlen]. by rewrite IH.
Qed.

Lemma read_write_operands sig vs rest :
  Codec.valid_operands F sig vs →
  Codec.read_operands F sig (Codec.write_operands F sig vs ++ rest)
  = Some (vs, rest).
Proof using lawful.
  unfold Codec.valid_operands, Codec.write_operands, Codec.read_operands.
  intros [Hparams Htail].
  pose proof (Forall2_length _ _ _ Hparams) as Hlen.
  rewrite <- (take_drop (length (Codec.params sig)) vs) at 1.
  rewrite write_params_app by done.
  rewrite <- app_assoc, read_write_params by done. cbn.
  destruct (Codec.variadic sig) as [t|].
  - rewrite (Codec.get_put_tail F lawful) by done. cbn.
    by rewrite take_drop.
  - cbn. by rewrite take_ge by lia.
Qed.

Lemma write_read_operands sig bs vs rest :
  Codec.read_operands F sig bs = Some (vs, rest) →
  Codec.valid_operands F sig vs
  ∧ bs = Codec.write_operands F sig vs ++ rest.
Proof using lawful.
  unfold Codec.valid_operands, Codec.write_operands, Codec.read_operands.
  destruct (Codec.read_params F _ bs) as [[ps r1]|] eqn:Hps; [|done]. cbn.
  apply write_read_params in Hps as [Hps ->].
  pose proof (Forall2_length _ _ _ Hps) as Hlen.
  destruct (Codec.variadic sig) as [t|].
  - destruct (Codec.get_tail F t r1) as [[ws r2]|] eqn:Hws; [|done]. cbn.
    intros [= <- <-].
    apply (Codec.put_get_tail F lawful) in Hws as [Hws ->].
    rewrite take_app_length', drop_app_length' by done.
    rewrite write_params_app by done.
    split; [done|]. by rewrite <- app_assoc.
  - intros [= <- <-]. rewrite take_ge by lia.
    split; [done|]. by rewrite app_nil_r.
Qed.

Lemma read_write_instruction i rest :
  Codec.valid_instruction F i →
  Codec.read_instruction F (Codec.write_instruction F i ++ rest)
  = Some (i, rest).
Proof using lawful.
  intros [Hcode (sig & Hsig & Hops)].
  unfold Codec.write_instruction, Codec.read_instruction.
  rewrite Hsig, <- app_assoc, read_write_code by done. cbn.
  rewrite Hsig. cbn. rewrite read_write_operands by done. cbn.
  by destruct i.
Qed.

Lemma write_read_instruction bs i rest :
  Codec.read_instruction F bs = Some (i, rest) →
  Codec.valid_instruction F i
  ∧ bs = Codec.write_instruction F i ++ rest.
Proof using lawful.
  unfold Codec.write_instruction, Codec.read_instruction,
    Codec.valid_instruction.
  destruct (Codec.read_code F bs) as [[c r1]|] eqn:Hc; [|done]. cbn.
  destruct (Codec.table F c) as [sig|] eqn:Hsig; [|done]. cbn.
  destruct (Codec.read_operands F sig r1) as [[vs r2]|] eqn:Hops; [|done].
  cbn. intros [= <- <-]. cbn.
  apply write_read_code in Hc as [Hc ->].
  apply write_read_operands in Hops as [Hops ->].
  rewrite Hsig. split; [|by rewrite <- app_assoc]. eauto.
Qed.

Lemma read_write_instructions insts fuel :
  Forall (Codec.valid_instruction F) insts →
  length insts ≤ fuel →
  Codec.read_instructions F fuel (Codec.write_instructions F insts)
  = Some insts.
Proof using lawful.
  unfold Codec.write_instructions.
  intros Hvalid. revert fuel.
  induction Hvalid as [|i insts Hi _ IH]; intros fuel Hfuel.
  { by destruct fuel. }
  cbn in *. destruct fuel as [|fuel]; [lia|].
  assert (∃ b bs, Codec.write_instruction F i
                    ++ concat (Codec.write_instruction F <$> insts)
                  = b :: bs) as (b & bs & Hbs).
  { unfold Codec.write_instruction.
    pose proof (write_code_nonempty (Codec.code i)).
    destruct (Codec.write_code F (Codec.code i)); [done|]. cbn. eauto. }
  cbn. rewrite Hbs, <- Hbs. rewrite read_write_instruction by done. cbn.
  rewrite IH by lia. done.
Qed.

Lemma write_read_instructions fuel bs insts :
  Codec.read_instructions F fuel bs = Some insts →
  Forall (Codec.valid_instruction F) insts
  ∧ Codec.write_instructions F insts = bs.
Proof using lawful.
  unfold Codec.write_instructions.
  revert bs insts. induction fuel as [|fuel IH]; intros bs insts.
  { destruct bs; [|done]. by intros [= <-]. }
  destruct bs as [|b bs]; [by intros [= <-]|].
  cbn [Codec.read_instructions].
  destruct (Codec.read_instruction F (b :: bs)) as [[i r1]|] eqn:Hi; [|done].
  cbn. destruct (Codec.read_instructions F fuel r1) as [rest|] eqn:Hrest;
    [|done].
  cbn. intros [= <-].
  apply write_read_instruction in Hi as [Hi ->].
  apply IH in Hrest as [Hrest <-].
  split; [by constructor|done].
Qed.

Lemma length_write_instructions insts :
  length insts ≤ length (Codec.write_instructions F insts).
Proof.
  unfold Codec.write_instructions.
  induction insts as [|i insts IH]; cbn; [lia|].
  rewrite length_app. unfold Codec.write_instruction at 1.
  rewrite length_app.
  pose proof (write_code_nonempty (Codec.code i)).
  destruct (Codec.write_code F (Codec.code i)); [done|]. cbn. lia.
Qed.

Lemma read_write_content c :
  match c with
  | Codec.Instructions insts => Forall (Codec.valid_instruction F) insts
  | _ => True
  end →
  Codec.read_content F (Codec.kind_of c) (Codec.write_content F c) = Some c.
Proof using lawful.
  destruct c as [insts|bytes|bytes]; cbn; try done.
  intros Hvalid.
  by rewrite read_write_instructions
    by (done || apply length_write_instructions).
Qed.

Lemma write_read_content k body c :
  Codec.read_content F k body = Some c →
  Codec.kind_of c = k ∧ Codec.write_content F c = body
  ∧ match c with
    | Codec.Instructions insts => Forall (Codec.valid_instruction F) insts
    | _ => True
    end.
Proof using lawful.
  destruct k; cbn.
  - destruct (Codec.read_instructions F _ body) as [insts|] eqn:Hi; [|done].
    cbn. intros [= <-]. apply write_read_instructions in Hi as [? ?].
    by split_and!.
  - by intros [= <-].
  - by intros [= <-].
Qed.

Lemma read_write_segments segments fuel :
  Forall (Codec.valid_segment F) segments →
  length segments ≤ fuel →
  Codec.read_segments F fuel (Codec.write F segments) = Some segments.
Proof using lawful.
  unfold Codec.write. intros Hvalid. revert fuel.
  induction Hvalid as [|s segments [Hframe Hcontent] _ IH]; intros fuel Hfuel.
  { by destruct fuel. }
  cbn in *. destruct fuel as [|fuel]; [lia|].
  assert (∃ b bs, Codec.write_segment F s
                    ++ concat (Codec.write_segment F <$> segments)
                  = b :: bs) as (b & bs & Hbs).
  { unfold Codec.write_segment.
    pose proof (Codec.frame_nonempty F lawful
                  (Codec.kind_of (Codec.content s)) (Codec.labels s)
                  (Codec.write_content F (Codec.content s))).
    destruct (Codec.frame F _ _ _); [done|]. cbn. eauto. }
  cbn. rewrite Hbs, <- Hbs. unfold Codec.write_segment at 1.
  rewrite (Codec.unframe_frame F lawful) by done. cbn.
  rewrite read_write_content by done. cbn.
  rewrite IH by lia. cbn. by destruct s.
Qed.

Lemma write_read_segments fuel bs segments :
  Codec.read_segments F fuel bs = Some segments →
  Forall (Codec.valid_segment F) segments ∧ Codec.write F segments = bs.
Proof using lawful.
  unfold Codec.write.
  revert bs segments. induction fuel as [|fuel IH]; intros bs segments.
  { destruct bs; [|done]. by intros [= <-]. }
  destruct bs as [|b bs]; [by intros [= <-]|].
  cbn [Codec.read_segments].
  destruct (Codec.unframe F (b :: bs)) as [[[[k ls] body] rest]|] eqn:Hf;
    [|done].
  cbn. destruct (Codec.read_content F k body) as [c|] eqn:Hc; [|done]. cbn.
  destruct (Codec.read_segments F fuel rest) as [more|] eqn:Hmore; [|done].
  cbn. intros [= <-].
  apply (Codec.frame_unframe F lawful) in Hf as [Hf ->].
  apply write_read_content in Hc as (<- & <- & Hc).
  apply IH in Hmore as [Hmore <-].
  split; [|done]. constructor; [|done]. by split.
Qed.

Lemma length_write segments :
  length segments ≤ length (Codec.write F segments).
Proof using lawful.
  unfold Codec.write.
  induction segments as [|s segments IH]; cbn; [lia|].
  rewrite length_app. unfold Codec.write_segment at 1.
  pose proof (Codec.frame_nonempty F lawful
                (Codec.kind_of (Codec.content s)) (Codec.labels s)
                (Codec.write_content F (Codec.content s))).
  destruct (Codec.frame F _ _ _); [done|]. cbn. lia.
Qed.
End codec_round_trip.

(** ** The plain byte layout meets the requirements *)

Lemma fits_succ w z :
  PlainFormat.fits (S w) z → PlainFormat.fits w (z / 256).
Proof.
  unfold PlainFormat.fits. rewrite Nat2Z.inj_succ, Z.pow_succ_r by lia.
  intros [? ?]. split; [by apply Z.div_pos|].
  apply Z.div_lt_upper_bound; lia.
Qed.

Lemma get_put_int w z rest :
  PlainFormat.fits w z →
  PlainFormat.get_int w (PlainFormat.put_int w z ++ rest) = Some (z, rest).
Proof.
  revert z. induction w as [|w IH]; intros z Hz.
  - unfold PlainFormat.fits in Hz. cbn in *.
    by replace z with 0%Z by lia.
  - cbn. rewrite decide_True.
    2:{ unfold Codec.is_byte. apply Z.mod_pos_bound. lia. }
    rewrite IH by by apply fits_succ. cbn. do 2 f_equal.
    rewrite (Z.div_mod z 256) at 3 by lia. lia.
Qed.

Lemma put_get_int w bs z rest :
  PlainFormat.get_int w bs = Some (z, rest) →
  PlainFormat.fits w z ∧ bs = PlainFormat.put_int w z ++ rest.
Proof.
  revert bs z. induction w as [|w IH]; intros bs z; cbn.
  { intros [= <- <-]. split; [|done]. unfold PlainFormat.fits. cbn. lia. }
  destruct bs as [|b bs]; [done|].
  destruct (decide (Codec.is_byte b)) as [Hb|]; [|done].
  destruct (PlainFormat.get_int w bs) as [[v r]|] eqn:Hget; [|done].
  cbn. intros [= <- <-]. apply IH in Hget as [Hv ->].
  unfold Codec.is_byte, PlainFormat.fits in *.
  rewrite Nat2Z.inj_succ, Z.pow_succ_r by lia.
  split; [lia|].
  replace ((b + 256 * v) mod 256)%Z with b
    by (apply (Z.mod_unique_pos _ _ v); lia).
  replace ((b + 256 * v) / 256)%Z with v
    by (apply (Z.div_unique_pos _ _ _ b); lia).
  done.
Qed.

Lemma get_put_string cs rest :
  Forall PlainFormat.is_char cs →
  PlainFormat.get_string (cs ++ 0%Z :: rest) = Some (cs, rest).
Proof.
  induction 1 as [|c cs Hc _ IH]; cbn; [done|].
  unfold PlainFormat.is_char in Hc.
  rewrite decide_False by lia. rewrite decide_True by done.
  by rewrite IH.
Qed.

Lemma put_get_string bs cs rest :
  PlainFormat.get_string bs = Some (cs, rest) →
  Forall PlainFormat.is_char cs ∧ bs = cs ++ 0%Z :: rest.
Proof.
  revert cs. induction bs as [|b bs IH]; intros cs; cbn; [done|].
  destruct (decide (b = 0%Z)) as [->|_]; [by intros [= <- <-]|].
  destruct (decide (PlainFormat.is_char b)) as [Hb|]; [|done].
  destruct (PlainFormat.get_string bs) as [[ds r]|]; [|done].
  cbn. intros [= <- <-]. destruct (IH ds eq_refl) as [Hds ->].
  split; [by constructor|done].
Qed.

Lemma plain_get_put t v rest :
  PlainFormat.valid t v →
  PlainFormat.get t (PlainFormat.put t v ++ rest) = Some (v, rest).
Proof.
  unfold PlainFormat.valid, PlainFormat.get, PlainFormat.put.
  destruct t, v as [z|cs]; cbv beta iota; try done;
    try (intros Hz; by rewrite get_put_int).
  intros Hcs. rewrite <- app_assoc.
  change ([0%Z] ++ rest) with (0%Z :: rest).
  by rewrite get_put_string.
Qed.

Lemma plain_put_get t bs v rest :
  PlainFormat.get t bs = Some (v, rest) →
  PlainFormat.valid t v ∧ bs = PlainFormat.put t v ++ rest.
Proof.
  unfold PlainFormat.valid, PlainFormat.get, PlainFormat.put.
  destruct t; cbv beta iota;
    try (destruct (PlainFormat.get_int _ bs) as [[z r]|] eqn:Hget; [|done];
         cbn [mbind option_bind]; intros [= <- <-];
         by apply put_get_int in Hget).
  destruct (PlainFormat.get_string bs) as [[cs r]|] eqn:Hget; [|done].
  cbn [mbind option_bind]. intros [= <- <-].
  apply put_get_string in Hget as [? ->].
  split; [done|]. by rewrite <- app_assoc.
Qed.

Section many.
Context {A : Type} (p : A → list Z) (g : list Z → option (A * list Z)).
Context (V : A → Prop).
Hypothesis g_p : ∀ x rest, V x → g (p x ++ rest) = Some (x, rest).
Hypothesis p_g : ∀ bs x rest, g bs = Some (x, rest) → V x ∧ bs = p x ++ rest.

Lemma get_put_many xs rest :
  Forall V xs →
  PlainFormat.get_many g (length xs) (concat (p <$> xs) ++ rest)
  = Some (xs, rest).
Proof using g_p.
  induction 1 as [|x xs Hx _ IH]; cbn; [done|].
  rewrite <- app_assoc, g_p by done. cbn. by rewrite IH.
Qed.

Lemma put_get_many n bs xs rest :
  PlainFormat.get_many g n bs = Some (xs, rest) →
  length xs = n ∧ Forall V xs ∧ bs = concat (p <$> xs) ++ rest.
Proof using p_g.
  revert bs xs. induction n as [|n IH]; intros bs xs; cbn.
  { by intros [= <- <-]. }
  destruct (g bs) as [[x r]|] eqn:Hg; [|done]. cbn.
  destruct (PlainFormat.get_many g n r) as [[ys r']|] eqn:Hmany; [|done].
  cbn. intros [= <- <-]. apply p_g in Hg as [Hx ->].
  apply IH in Hmany as (<- & Hys & ->).
  split_and!; [done|by constructor|]. cbn. by rewrite <- app_assoc.
Qed.
End many.

Lemma fits_count n : n < 256 → PlainFormat.fits 1 (Z.of_nat n).
Proof. unfold PlainFormat.fits. cbn. lia. Qed.

Lemma plain_lawful : Codec.Lawful PlainFormat.format.
Proof.
  split;
    cbn [PlainFormat.format Codec.table Codec.escape Codec.put Codec.get
         Codec.valid Codec.put_tail Codec.get_tail Codec.valid_tail
         Codec.frame Codec.unframe Codec.valid_frame].
  - lia.
  - apply plain_get_put.
  - apply plain_put_get.
  - intros t vs rest [Hlen Hvs].
    unfold PlainFormat.get_tail, PlainFormat.put_tail.
    rewrite <- app_assoc, get_put_int by by apply fits_count.
    cbn [mbind option_bind]. rewrite Nat2Z.id.
    by apply (get_put_many _ _ (PlainFormat.valid t) (plain_get_put t)).
  - intros t bs vs rest. unfold PlainFormat.get_tail, PlainFormat.put_tail.
    destruct (PlainFormat.get_int 1 bs) as [[n r]|] eqn:Hn; [|done].
    cbn [mbind option_bind].
    intros Hmany. apply put_get_int in Hn as [Hn ->].
    apply (put_get_many _ _ (PlainFormat.valid t) (plain_put_get t))
      in Hmany as (Hlen & Hvs & ->).
    unfold PlainFormat.fits in Hn. change (256 ^ Z.of_nat 1)%Z with 256%Z in Hn.
    split; [split; [lia|done]|].
    rewrite Hlen, Z2Nat.id by lia. by rewrite <- app_assoc.
  - intros k ls body rest (Hlen & Hls & Hbody).
    unfold PlainFormat.unframe, PlainFormat.frame.
    assert (PlainFormat.byte_kind (PlainFormat.kind_byte k) = Some k) as Hk
      by by destruct k.
    cbn [app]. rewrite Hk. cbn [mbind option_bind].
    rewrite <- !app_assoc, get_put_int by by apply fits_count.
    cbn [mbind option_bind]. rewrite Nat2Z.id.
    rewrite (get_put_many _ _ (PlainFormat.fits 2) (get_put_int 2)) by done.
    cbn [mbind option_bind]. rewrite get_put_int by done.
    cbn [mbind option_bind]. rewrite Nat2Z.id.
    rewrite decide_True by (rewrite length_app; lia).
    by rewrite take_app_length, drop_app_length.
  - intros bs k ls body rest. unfold PlainFormat.unframe, PlainFormat.frame.
    destruct bs as [|b r0]; [done|].
    destruct (PlainFormat.byte_kind b) as [k'|] eqn:Hk; [|done].
    cbn [mbind option_bind].
    destruct (PlainFormat.get_int 1 r0) as [[n r1]|] eqn:Hn; [|done].
    cbn [mbind option_bind].
    destruct (PlainFormat.get_many _ _ r1) as [[ls' r2]|] eqn:Hls; [|done].
    cbn [mbind option_bind].
    destruct (PlainFormat.get_int 4 r2) as [[m r3]|] eqn:Hm; [|done].
    cbn [mbind option_bind].
    destruct (decide _) as [Hle|]; [|done]. intros [= <- <- <- <-].
    apply put_get_int in Hn as [Hn ->].
    apply (put_get_many _ _ (PlainFormat.fits 2) (λ bs, put_get_int 2 bs))
      in Hls as (Hlen & Hls & ->).
    apply put_get_int in Hm as [Hm ->].
    assert (b = PlainFormat.kind_byte k') as ->.
    { unfold PlainFormat.byte_kind in Hk.
      repeat (destruct (decide _) as [->|_] in Hk;
              [by injection Hk as <-|]). done. }
    unfold PlainFormat.fits in Hn.
    change (256 ^ Z.of_nat 1)%Z with 256%Z in Hn.
    pose proof Hm as [Hm0 _].
    split; [split_and!; [lia|done|]|].
    + rewrite length_take_le, Z2Nat.id by lia. done.
    + rewrite length_take_le by done.
      rewrite Hlen, !Z2Nat.id by lia. cbn [app]. f_equal.
      rewrite <- !app_assoc. by rewrite take_drop.
  - done.
Qed.

(** C1. For every byte layout of segment frames, operands and variadic
    tails that can be read back from the front of a byte sequence, and
    only from there, the codec built as the specification describes
    (a frame per segment; in an instruction segment each instruction as
    its opcode code, on one byte or behind the escape byte, followed by
    its operands in the order of the Opcode Table's signature, the
    variadic tail last) satisfies both round trips: writing valid
    segments and parsing the bytes gives the segments back, and every
    byte sequence that parses is written back, byte for byte, from the
    segments it parses to. *)
Theorem codec_round_trip (F : Codec.Format) :
  Codec.Lawful F →
  (∀ segments,
      Forall (Codec.valid_segment F) segments →
      Codec.parse F (Codec.write F segments) = Some segments)
  ∧ (∀ bs segments,
      Codec.parse F bs = Some segments →
      Forall (Codec.valid_segment F) segments
      ∧ Codec.write F segments = bs).
Proof.
  intros lawful. split.
  - intros segments Hvalid. unfold Codec.parse.
    apply read_write_segments; [done|done|].
    by apply length_write.
  - intros bs segments. unfold Codec.parse.
    by apply write_read_segments.
Qed.

Lemma example_valid :
  Forall (Codec.valid_segment PlainFormat.format) PlainFormat.example.
Proof.
  assert (∀ w z, (0 ≤ z)%Z → (z < 256 ^ Z.of_nat w)%Z → PlainFormat.fits w z)
    as Hfits by (by split).
  assert (∀ c, (0 < c)%Z → (c < 256)%Z → PlainFormat.is_char c)
    as Hchar by (by split).
  unfold PlainFormat.example.
  repeat (apply Forall_cons_2 || apply Forall_nil_2).
  - split.
    + split_and!; [cbn; lia| |apply Hfits; vm_compute; done].
      repeat (apply Forall_cons_2 || apply Forall_nil_2).
      apply Hfits; cbn; lia.
    + cbn [Codec.content].
      repeat (apply Forall_cons_2 || apply Forall_nil_2).
      * split; [left; cbn; lia|].
        eexists. split; [reflexivity|]. split; cbn.
        -- repeat (apply Forall2_cons_2 || apply Forall2_nil_2).
           apply Hfits; cbn; lia.
        -- split; [cbn; lia|].
           repeat (apply Forall_cons_2 || apply Forall_nil_2);
             apply Hfits; cbn; lia.
      * split; [right; cbn; lia|].
        eexists. split; [reflexivity|]. split; cbn; [|done].
        repeat (apply Forall2_cons_2 || apply Forall2_nil_2). cbn.
        repeat (apply Forall_cons_2 || apply Forall_nil_2);
          apply Hchar; lia.
      * split; [left; cbn; lia|].
        eexists. split; [reflexivity|]. split; cbn; [constructor|done].
  - split; [|done].
    split_and!; [cbn; lia| |apply Hfits; vm_compute; done].
    repeat (apply Forall_cons_2 || apply Forall_nil_2);
      apply Hfits; cbn; lia.
Qed.

Lemma codec_round_trip_witness :
  Codec.Lawful PlainFormat.format
  ∧ Codec.parse PlainFormat.format
      (Codec.write PlainFormat.format PlainFormat.example)
    = Some PlainFormat.example
  ∧ Codec.write PlainFormat.format PlainFormat.example
    = [ 0; 1; 0; 0; 15; 0; 0; 0;
        64; 90; 3; 100; 0; 101; 0; 102; 0;
        248; 1; 104; 105; 0;
        1;
        1; 2; 100; 0; 101; 0; 3; 0; 0; 0; 1; 2; 3 ]%Z.
Proof.
  split; [apply plain_lawful|]. split; [|vm_compute; reflexivity].
  apply (proj1 (codec_round_trip PlainFormat.format plain_lawful)).
  apply example_valid.
Defined.

(** * Stepping in the debugger host *)

Section stepping.
Context (this : QuestRunner) (q : QuestModel).
Context (src_segment : InstructionSegment) (cur_instr : Instruction).

Let execloc := get_current_execution_location (vm this).

Hypothesis quest_loaded : quest this = Some q.
Hypothesis at_segment :
  object_code q !! seg_idx execloc = Some (InstructionSeg src_segment).
Hypothesis at_instruction :
  instructions src_segment !! inst_idx execloc = Some cur_instr.

Lemma current_segment :
  get_instruction_segment_by_index this (seg_idx execloc) = Done src_segment.
Proof using quest_loaded at_segment.
  unfold get_instruction_segment_by_index.
  by rewrite quest_loaded, at_segment.
Qed.

Lemma label_argument_call label :
  call_target cur_instr = Some label →
  get_step_innable_instruction_label_argument (Some cur_instr)
  = Done (Some label).
Proof.
  unfold call_target, get_step_innable_instruction_label_argument, arg_value.
  destruct (opcode cur_instr); try discriminate;
    intros H; apply fmap_Some in H as (a & -> & ->); done.
Qed.

Lemma label_argument_other :
  ¬ call_classified cur_instr →
  get_step_innable_instruction_label_argument (Some cur_instr)
  = Done Datatypes.None.
Proof.
  unfold call_classified, get_step_innable_instruction_label_argument.
  intros H. destruct (opcode cur_instr); try done; exfalso; apply H; auto.
Qed.




Lemma step_over_other :
  ¬ call_classified cur_instr →
  step_over this = Done (set_break_on_next true this).
Proof using quest_loaded at_segment at_instruction.
  intros H. unfold step_over. fold execloc.
  rewrite quest_loaded, current_segment. cbn. rewrite at_instruction.
  by rewrite (label_argument_other H).
Qed.


End stepping.



(** * Edges: what every mutation through [link_to] keeps *)

Lemma length_link_to this other bs : length (link_to this other bs) = length bs.
Proof. unfold link_to. by rewrite !length_alter. Qed.

Lemma lookup_link_to this other bs k :
  link_to this other bs !! k
  = (λ b, (if decide (k = other) then push_from this b else b))
      <$> ((λ b, if decide (k = this) then push_to other b else b)
             <$> bs !! k).
Proof.
  unfold link_to. rewrite !list_lookup_alter.
  repeat case_decide; subst; try done; by destruct (bs !! _).
Qed.

Section link_closed.
Context (P : list BasicBlock → Prop) (n : nat) (lb : gmap Z nat).
Hypothesis link_step :
  ∀ bs a b, length bs = n → P bs → a < n → b < n → P (link_to a b bs).
Hypothesis resolved_in_range : ∀ label j, lb !! label = Some j → j < n.

Lemma link_labels_closed i ls :
  i < n →
  ∀ bs, length bs = n → P bs →
        P (link_labels lb i bs ls) ∧ length (link_labels lb i bs ls) = n.
Proof using Type*.
  intros Hi. unfold link_labels.
  induction ls as [|label ls IH]; intros bs Hlen HP; cbn [foldl]; [done|].
  destruct (lb !! label) as [t|] eqn:Hl; [|by apply IH].
  apply IH; [by rewrite length_link_to|].
  apply link_step; eauto.
Qed.

Lemma link_block_closed bs cs i :
  length bs = n → P bs →
  P (link_block lb (bs, cs) i).1 ∧ length (link_block lb (bs, cs) i).1 = n.
Proof using Type*.
  intros Hlen HP. unfold link_block.
  destruct (bs !! i) as [b|] eqn:Hb; [|done].
  assert (i < n) as Hi by (rewrite <-Hlen; by eapply lookup_lt_Some).
  destruct (branch_type b); cbn [fst]; try done.
  - destruct (decide (i + 1 < length bs)).
    + apply link_labels_closed; [done|by rewrite length_link_to|].
      apply link_step; [done|done|done|lia].
    + by apply link_labels_closed.
  - by apply link_labels_closed.
  - destruct (decide (i + 1 < length bs)).
    + apply link_labels_closed; [done|by rewrite length_link_to|].
      apply link_step; [done|done|done|lia].
    + by apply link_labels_closed.
  - by apply link_labels_closed.
Qed.

Lemma link_edges_closed bs :
  length bs = n → P bs →
  P (link_edges lb bs).1 ∧ length (link_edges lb bs).1 = n.
Proof using Type*.
  intros Hlen HP. unfold link_edges.
  apply (foldl_seq_ind (λ _ st, P st.1 ∧ length st.1 = n)); [done|].
  intros k [bs' cs] _ [HP' Hlen']. by apply link_block_closed.
Qed.

Lemma link_returning_blocks_closed fuel ret :
  ret < n →
  ∀ block bs bs',
    length bs = n → P bs →
    link_returning_blocks fuel lb ret block bs = Done bs' →
    P bs' ∧ length bs' = n.
Proof using Type*.
  intros Hret. induction fuel as [|fuel IH]; intros block bs bs' Hlen HP;
    cbn [link_returning_blocks]; [done|].
  destruct (bs !! block) as [b|]; [|done].
  generalize (branch_labels b). intros ls. revert bs Hlen HP.
  induction ls as [|label ls IHls]; intros bs Hlen HP; cbn [for_each].
  { intros [= <-]. done. }
  destruct (lb !! label) as [sub|] eqn:Hl; cbn [mbind outcome_bind].
  2:{ by apply IHls. }
  destruct (bs !! sub) as [sb|] eqn:Hsb; [|done].
  intros (bs1 & Hrec & Hrest)%bind_Done.
  apply IH in Hrec as [HP1 Hlen1].
  - by apply (IHls bs1).
  - destruct (branch_type sb); try done. by rewrite length_link_to.
  - destruct (branch_type sb); try done.
    apply link_step; eauto.
Qed.

Lemma link_callers_closed fuel callers :
  (∀ c r, (c, r) ∈ callers → r < n) →
  ∀ bs bs',
    length bs = n → P bs →
    link_callers fuel lb callers bs = Done bs' →
    P bs' ∧ length bs' = n.
Proof using Type*.
  unfold link_callers.
  induction callers as [|[c r] callers IH]; intros Hcs bs bs' Hlen HP;
    cbn [for_each].
  { by intros [= <-]. }
  intros (bs1 & Hrec & Hrest)%bind_Done.
  apply link_returning_blocks_closed in Hrec as [HP1 Hlen1]; [|
    by eapply Hcs; left|done|done].
  apply (IH (λ c' r' H, Hcs c' r' (list_elem_of_further _ _ _ H)) bs1);
    done.
Qed.

End link_closed.

Lemma link_to_lookup_Some this other bs k b' :
  link_to this other bs !! k = Some b' →
  ∃ b, bs !! k = Some b ∧ static b' = static b
       ∧ to b' = to b ++ (if decide (k = this) then [other] else [])
       ∧ from b' = from b ++ (if decide (k = other) then [this] else []).
Proof.
  rewrite lookup_link_to. destruct (bs !! k) as [b|]; [|done].
  cbn. intros [= <-]. exists b.
  repeat case_decide; cbn; rewrite ?app_nil_r; done.
Qed.

Lemma occurrences_snoc x l y :
  occurrences x (l ++ [y])
  = occurrences x l + (if decide (y = x) then 1 else 0).
Proof.
  unfold occurrences. rewrite filter_app, length_app. f_equal.
  rewrite filter_cons, filter_nil. by case_decide.
Qed.

Lemma occurrences_pos x l : 0 < occurrences x l ↔ x ∈ l.
Proof.
  unfold occurrences. split.
  - intros Hpos. destruct (filter _ l) as [|y ys] eqn:Hf; [cbn in Hpos; lia|].
    assert (y ∈ filter (λ y, y = x) l) as Hy by (rewrite Hf; left).
    apply list_elem_of_filter in Hy as [-> Hy]. done.
  - intros Hx.
    assert (x ∈ filter (λ y, y = x) l) as Hy by (by apply list_elem_of_filter).
    destruct (filter _ l); [by apply elem_of_nil in Hy|cbn; lia].
Qed.

Lemma link_to_mirrored a b bs : mirrored bs → mirrored (link_to a b bs).
Proof.
  intros Hm i j bi' bj' Hi Hj.
  apply link_to_lookup_Some in Hi as (bi & Hi & _ & Hto & _).
  apply link_to_lookup_Some in Hj as (bj & Hj & _ & _ & Hfrom).
  rewrite Hto, Hfrom. specialize (Hm i j bi bj Hi Hj).
  destruct (decide (i = a)) as [->|Hia]; destruct (decide (j = b)) as [->|Hjb];
    rewrite ?app_nil_r, ?occurrences_snoc; repeat case_decide; try done; lia.
Qed.

Lemma link_to_edges_closed a b bs :
  a < length bs → b < length bs →
  edges_closed bs → edges_closed (link_to a b bs).
Proof.
  intros Ha Hb Hc i b' Hi j Hj. rewrite length_link_to.
  apply link_to_lookup_Some in Hi as (b0 & Hi & _ & Hto & Hfrom).
  rewrite Hto, Hfrom in Hj. rewrite !elem_of_app in Hj.
  destruct Hj as [[Hj|Hj]|[Hj|Hj]]; try (eapply Hc; eauto; fail).
  - case_decide; [apply list_elem_of_singleton in Hj as ->; done|].
    by apply elem_of_nil in Hj.
  - case_decide; [apply list_elem_of_singleton in Hj as ->; done|].
    by apply elem_of_nil in Hj.
Qed.

Lemma built_label_range segments st label j :
  built segments st → st.2 !! label = Some j → j < length (cfg_blocks st.1).
Proof.
  intros Hb Hl. apply (built_labels _ _ Hb) in Hl as (b & Hb' & _).
  by eapply lookup_lt_Some.
Qed.

(** Whatever holds of the unlinked blocks and is kept by [link_to]
    between blocks of the store holds of the returned graph. *)
Lemma create_control_flow_graph_closed (P : list BasicBlock → Prop)
    fuel segments cfg :
  (∀ bs a b, length bs = length (cfg_blocks cfg) → P bs →
             a < length bs → b < length bs → P (link_to a b bs)) →
  (∀ bs, Forall unlinked bs → P bs) →
  create_control_flow_graph fuel segments = Done cfg →
  P (cfg_blocks cfg).
Proof.
  intros Hstep Hinit Hcfg.
  destruct (create_control_flow_graph_stages _ _ _ Hcfg)
    as (cfg0 & lb & linked & callers & Hall & Hedges & Hcallers & _
        & Hbuilt & Happ & Hcs & Hgrows).
  assert (length (cfg_blocks cfg) = length (cfg_blocks cfg0)) as Hlen.
  { transitivity (length linked).
    - destruct Hgrows as (ts & [Hl _] & _). done.
    - by destruct Happ as [Hl _]. }
  set (n := length (cfg_blocks cfg0)).
  assert (∀ label j, lb !! label = Some j → j < n) as Hrange.
  { intros label j. apply (built_label_range _ _ _ _ Hbuilt). }
  assert (∀ bs a b, length bs = n → P bs → a < n → b < n →
                    P (link_to a b bs)) as Hstep'.
  { intros bs a b Hl HP Ha Hb. apply Hstep; [by rewrite Hlen|done|lia|lia]. }
  destruct (link_edges_closed P n lb Hstep' Hrange (cfg_blocks cfg0))
    as [HP1 Hlen1]; [done|apply Hinit, (built_unlinked _ _ Hbuilt)|].
  rewrite Hedges in HP1, Hlen1. cbn in HP1, Hlen1.
  eapply (link_callers_closed P n lb Hstep' Hrange fuel callers); [|done..].
  intros c r Hcr. rewrite Hcs in Hcr.
  apply elem_of_pending_callers in Hcr as (b & _ & _ & -> & Hlt). done.
Qed.

Lemma unlinked_mirrored bs : Forall unlinked bs → mirrored bs.
Proof.
  intros Hu i j bi bj Hi Hj.
  rewrite Forall_forall in Hu.
  destruct (Hu bi (list_elem_of_lookup_2 _ _ _ Hi)) as [_ ->].
  destruct (Hu bj (list_elem_of_lookup_2 _ _ _ Hj)) as [-> _]. done.
Qed.

Lemma unlinked_edges_closed bs : Forall unlinked bs → edges_closed bs.
Proof.
  intros Hu i b Hi j Hj. rewrite Forall_forall in Hu.
  destruct (Hu b (list_elem_of_lookup_2 _ _ _ Hi)) as [Hf Ht].
  rewrite Hf, Ht in Hj. destruct Hj as [Hj|Hj]; by apply elem_of_nil in Hj.
Qed.

Lemma returned_mirrored fuel segments cfg :
  create_control_flow_graph fuel segments = Done cfg →
  mirrored (cfg_blocks cfg).
Proof.
  apply (create_control_flow_graph_closed mirrored).
  - intros bs a b _ Hm _ _. by apply link_to_mirrored.
  - apply unlinked_mirrored.
Qed.

Lemma returned_edges_closed fuel segments cfg :
  create_control_flow_graph fuel segments = Done cfg →
  edges_closed (cfg_blocks cfg).
Proof.
  apply (create_control_flow_graph_closed edges_closed).
  - intros bs a b _ Hc Ha Hb. by apply link_to_edges_closed.
  - apply unlinked_edges_closed.
Qed.

(** X1. In the graph [create_control_flow_graph] returns, every
    successor and every predecessor of a block is a block of the graph,
    and the [from] lists mirror the [to] lists: the block [j] occurs in
    the successors of the block [i] exactly as often as [i] occurs in
    the predecessors of [j]; in particular [j] is a successor of [i] if
    and only if [i] is a predecessor of [j]. *)
Theorem edges_are_mirrored (fuel : nat) (segments : list InstructionSegment)
    (cfg : ControlFlowGraph) :
  create_control_flow_graph fuel segments = Done cfg →
  (∀ i b j, cfg_blocks cfg !! i = Some b → j ∈ to b ∨ j ∈ from b →
            j < length (cfg_blocks cfg))
  ∧ (∀ i j bi bj,
       cfg_blocks cfg !! i = Some bi → cfg_blocks cfg !! j = Some bj →
       occurrences j (to bi) = occurrences i (from bj))
  ∧ (∀ i j bi bj,
       cfg_blocks cfg !! i = Some bi → cfg_blocks cfg !! j = Some bj →
       j ∈ to bi ↔ i ∈ from bj).
Proof.
  intros Hcfg.
  pose proof (returned_mirrored _ _ _ Hcfg) as Hm.
  pose proof (returned_edges_closed _ _ _ Hcfg) as Hc.
  split_and!.
  - intros i b j Hi Hj. by eapply Hc.
  - exact Hm.
  - intros i j bi bj Hi Hj.
    rewrite <-!occurrences_pos. by rewrite (Hm i j bi bj Hi Hj).
Qed.

Lemma edges_are_mirrored_witness :
  create_control_flow_graph 4 sample_program = Done sample_graph
  ∧ from <$> cfg_blocks sample_graph
    = [[]; [0]; [5]; [2]; [0; 2; 3]; [1; 4; 7; 5]; []; []]
  ∧ (∀ i j bi bj,
       cfg_blocks sample_graph !! i = Some bi →
       cfg_blocks sample_graph !! j = Some bj →
       j ∈ to bi ↔ i ∈ from bj).
Proof.
  split; [vm_compute; reflexivity|]. split; [vm_compute; reflexivity|].
  refine (proj2 (proj2 (edges_are_mirrored 4 sample_program sample_graph _))).
  vm_compute. reflexivity.
Defined.

(** * The analysis on a constructed graph *)

Lemma returned_block_ranges fuel segments cfg b :
  create_control_flow_graph fuel segments = Done cfg →
  b ∈ cfg_blocks cfg →
  segment b ∈ segments
  ∧ start b < end_ b ∧ end_ b ≤ length (instructions (segment b)).
Proof.
  intros Hret Hb.
  destruct (create_control_flow_graph_stages _ _ _ Hret)
    as (cfg0 & lb & linked & callers & Hc & _ & _ & _ & Hbuilt & _ & _ & _).
  pose proof (returned_static _ _ _ Hret _ _ Hc) as Hst.
  destruct Hbuilt as [(groups & Hconcat & HF) _ _ _ _ _].
  cbn in *. rewrite Hconcat in Hst.
  destruct (Forall2_tiling_static _ _ _ HF Hst) as (groups' & Hblocks & HF').
  rewrite Hblocks in Hb.
  apply elem_of_concat in Hb as (g & Hb & Hg).
  apply list_elem_of_lookup in Hg as (k & Hk).
  destruct (Forall2_lookup_r _ _ _ _ _ HF' Hk) as (seg & Hseg & Ht).
  destruct (tiling_segment _ _ _ _ _ Ht Hb) as (-> & _ & ? & ?).
  split; [|done]. by eapply list_elem_of_lookup_2.
Qed.

Lemma returned_table_range fuel segments cfg key id :
  create_control_flow_graph fuel segments = Done cfg →
  cfg_instructions cfg !! key = Some id → id < length (cfg_blocks cfg).
Proof.
  intros Hret Hid.
  destruct (create_control_flow_graph_stages _ _ _ Hret)
    as (cfg0 & lb & linked & callers & Hc & _ & _ & Hmap & Hbuilt & _ & _ & _).
  pose proof (returned_static _ _ _ Hret _ _ Hc) as Hst.
  rewrite Hmap in Hid.
  destruct (built_map _ _ Hbuilt key id Hid) as (b & j & inst & Hb & _).
  cbn in Hb.
  apply lookup_lt_Some in Hb.
  rewrite <-(length_fmap static (cfg_blocks cfg)), Hst, length_fmap. done.
Qed.

Lemma returned_graph_ok fuel segments cfg :
  create_control_flow_graph fuel segments = Done cfg →
  (∀ seg inst, seg ∈ segments → inst ∈ instructions seg →
               operands_ok inst = true) →
  graph_ok cfg = true.
Proof.
  intros Hret Hops. unfold graph_ok. apply andb_true_iff. split.
  - apply forallb_forall. intros b Hb%list_elem_of_In.
    destruct (returned_block_ranges _ _ _ _ Hret Hb) as (Hseg & Hlt & Hle).
    unfold block_ok. rewrite !andb_true_iff, !bool_decide_eq_true.
    split_and!; [lia|done| |].
    + apply forallb_forall. intros p Hp%list_elem_of_In.
      apply bool_decide_eq_true.
      apply list_elem_of_lookup in Hb as (i & Hi).
      eapply (returned_edges_closed _ _ _ Hret); eauto.
    + apply forallb_forall. intros inst Hinst%list_elem_of_In.
      by eapply Hops.
  - apply forallb_forall. intros [key id] Hkv%list_elem_of_In.
    apply elem_of_map_to_list in Hkv. apply bool_decide_eq_true. cbn.
    by eapply returned_table_range.
Qed.

Lemma register_value_set_no_throw cfg fuel instruction register :
  graph_ok cfg = true →
  register_value_set fuel cfg instruction register ≠ Throw.
Proof.
  intros [Hblocks Hmap]%graph_ok_spec. unfold register_value_set.
  destruct (cfg_instructions cfg !! inst_id instruction) as [block|] eqn:Hid;
    [|done].
  destruct (cfg_blocks cfg !! block) as [b|] eqn:Hb.
  2:{ apply Hmap in Hid. apply lookup_ge_None in Hb. lia. }
  assert (block_ok (length (cfg_blocks cfg)) b = true) as Hbok.
  { rewrite forallb_forall in Hblocks.
    apply Hblocks, list_elem_of_In. by eapply list_elem_of_lookup_2. }
  apply block_ok_spec in Hbok as (Hse & _).
  eapply find_value_set_no_throw; [done|done|].
  pose proof (find_inst_idx_le b instruction (start b) (end_ b - start b)).
  lia.
Qed.

(** X2. A graph that [create_control_flow_graph] returns for segments
    whose copy and immediate-load instructions have their two operands
    is well formed for the analysis, and [register_value_set] never
    throws on it, for any instruction and register: it returns a value
    set or does not return. *)
Theorem analysis_of_constructed_graph_never_throws (fuel : nat)
    (segments : list InstructionSegment) (cfg : ControlFlowGraph) :
  create_control_flow_graph fuel segments = Done cfg →
  (∀ seg inst, seg ∈ segments → inst ∈ instructions seg →
               operands_ok inst = true) →
  graph_ok cfg = true
  ∧ ∀ fuel' instruction register,
      register_value_set fuel' cfg instruction register ≠ Throw.
Proof.
  intros Hret Hops.
  pose proof (returned_graph_ok _ _ _ Hret Hops) as Hok.
  split; [done|]. intros fuel' instruction register.
  by apply register_value_set_no_throw.
Qed.

Lemma analysis_of_constructed_graph_never_throws_witness :
  create_control_flow_graph 1 join_program = Done join_graph
  ∧ graph_ok join_graph = true
  ∧ ∀ fuel' instruction register,
      register_value_set fuel' join_graph instruction register ≠ Throw.
Proof.
  split; [vm_compute; reflexivity|].
  apply (analysis_of_constructed_graph_never_throws 1 join_program).
  - vm_compute. reflexivity.
  - intros seg inst Hseg Hinst.
    assert (forallb (λ s, forallb operands_ok (instructions s)) join_program
            = true) as Hall by reflexivity.
    rewrite forallb_forall in Hall.
    apply list_elem_of_In, Hall in Hseg. rewrite forallb_forall in Hseg.
    by apply Hseg, list_elem_of_In.
Defined.

(** * Return edges *)

Lemma tc_walks_static lb (bs bs' : list BasicBlock) i j :
  static <$> bs' = static <$> bs →
  tc (walks lb bs) i j → tc (walks lb bs') i j.
Proof.
  intros Hst Htc. induction Htc as [x y H|x y z H _ IH].
  - apply tc_once. by eapply walks_static.
  - eapply tc_l; [|done]. by eapply walks_static.
Qed.

Lemma grows_lookup_r bs bs' j b' :
  grows bs bs' → bs' !! j = Some b' →
  ∃ b, bs !! j = Some b ∧ static b' = static b ∧ ∀ r, r ∈ to b → r ∈ to b'.
Proof.
  intros (ts & Happ & _) Hj.
  destruct (appended_lookup _ _ _ _ _ Happ Hj) as (b & Hb & Hst & Hto).
  exists b. split_and!; [done..|]. intros r Hr. rewrite Hto.
  apply elem_of_app. by left.
Qed.

Lemma static_branch_type b b' : static b' = static b → branch_type b' = branch_type b.
Proof. unfold static. by intros [= _ _ _ -> _]. Qed.

Lemma static_branch_labels b b' :
  static b' = static b → branch_labels b' = branch_labels b.
Proof. unfold static. by intros [= _ _ _ _ ->]. Qed.

Section returning.
Context (lb : gmap Z nat) (bs0 : list BasicBlock).

Lemma link_returning_blocks_sound ret fuel :
  ∀ block bs bs',
    static <$> bs = static <$> bs0 →
    link_returning_blocks fuel lb ret block bs = Done bs' →
    ∃ ts, appended ts bs bs'
          ∧ ∀ j r, r ∈ ts j → r = ret ∧ returns_from lb bs0 block j.
Proof using Type*.
  induction fuel as [|fuel IH]; intros block bs bs' Hst;
    cbn [link_returning_blocks]; [done|].
  destruct (bs !! block) as [b|] eqn:Hb; [|done].
  destruct (static_lookup _ _ _ _ (eq_sym Hst) Hb) as (b0 & Hb0 & Hsb).
  assert (∀ label, label ∈ branch_labels b → label ∈ branch_labels b0)
    as Hincl.
  { intros label. by rewrite (static_branch_labels _ _ Hsb). }
  revert Hincl. generalize (branch_labels b). intros ls. clear Hb.
  revert bs Hst. induction ls as [|label ls IHls]; intros bs Hst Hincl;
    cbn [for_each].
  { intros [= <-]. exists (λ _, []). split; [apply appended_refl|].
    intros j r Hr. by apply elem_of_nil in Hr. }
  assert (∀ l, l ∈ ls → l ∈ branch_labels b0) as Hincl'.
  { intros l Hl. apply Hincl. by right. }
  destruct (lb !! label) as [sub|] eqn:Hl; cbn [mbind outcome_bind].
  2:{ by apply IHls. }
  destruct (bs !! sub) as [sb|] eqn:Hsub; [|done].
  intros (bs2 & Hrec & Hrest)%bind_Done.
  assert (walks lb bs0 block sub) as Hwalk.
  { exists b0, label. split_and!; [done| |done]. apply Hincl. by left. }
  destruct (static_lookup _ _ _ _ (eq_sym Hst) Hsub) as (sb0 & Hsb0 & Hssb).
  set (bs1 := match branch_type sb with
              | BranchType.Return => link_to sub ret bs
              | _ => bs
              end) in *.
  assert (∃ ts1, appended ts1 bs bs1
                 ∧ ∀ j r, r ∈ ts1 j → r = ret ∧ returns_from lb bs0 block j)
    as (ts1 & Happ1 & Hts1).
  { subst bs1. destruct (branch_type sb) eqn:Hbt;
      try (exists (λ _, []); split; [apply appended_refl|];
           intros j r Hr; by apply elem_of_nil in Hr).
    eexists. split; [apply link_to_appended|]. intros j r Hr. cbn in Hr.
    case_decide as Hj; [|by apply elem_of_nil in Hr].
    apply list_elem_of_singleton in Hr as ->. subst j.
    split; [done|]. split; [by apply tc_once|].
    exists sb0. split; [done|].
    by rewrite (static_branch_type _ _ Hssb). }
  assert (static <$> bs1 = static <$> bs0) as Hst1.
  { by rewrite (appended_static _ _ _ Happ1). }
  destruct (IH sub bs1 bs2 Hst1 Hrec) as (ts2 & Happ2 & Hts2).
  assert (static <$> bs2 = static <$> bs0) as Hst2.
  { by rewrite (appended_static _ _ _ Happ2). }
  destruct (IHls bs2 Hst2 Hincl' Hrest) as (ts3 & Happ3 & Hts3).
  eexists. split; [exact (appended_trans _ _ _ _ _
                            (appended_trans _ _ _ _ _ Happ1 Happ2) Happ3)|].
  intros j r. cbn. rewrite !elem_of_app. intros [[Hr|Hr]|Hr]; eauto.
  destruct (Hts2 j r Hr) as (-> & Htc & Hret). split; [done|].
  split; [|done]. by eapply tc_l.
Qed.

Lemma link_returning_blocks_body_grows ret fuel bs label bs' :
  match lb !! label with
  | Datatypes.None => Done bs
  | Some sub_block =>
      match bs !! sub_block with
      | Datatypes.None => Throw
      | Some sb =>
          link_returning_blocks fuel lb ret sub_block
            match branch_type sb with
            | BranchType.Return => link_to sub_block ret bs
            | _ => bs
            end
      end
  end = Done bs' →
  grows bs bs'.
Proof.
  destruct (lb !! label) as [sub|]; [|intros [= <-]; apply grows_refl].
  destruct (bs !! sub) as [sb|] eqn:Hsub; [|done].
  intros Hrec%link_returning_blocks_grows.
  eapply grows_trans; [|done].
  destruct (branch_type sb) eqn:Hbt; try apply grows_refl.
  by eapply link_to_grows.
Qed.

Lemma link_returning_blocks_complete ret fuel :
  ∀ block bs bs',
    static <$> bs = static <$> bs0 →
    link_returning_blocks fuel lb ret block bs = Done bs' →
    ∀ j b', returns_from lb bs0 block j → bs' !! j = Some b' → ret ∈ to b'.
Proof using Type*.
  induction fuel as [|fuel IH]; intros block bs bs' Hst;
    cbn [link_returning_blocks]; [done|].
  destruct (bs !! block) as [b|] eqn:Hb; [|done].
  destruct (static_lookup _ _ _ _ (eq_sym Hst) Hb) as (b0 & Hb0 & Hsb).
  intros Hrun j b' [Htc (bj0 & Hbj0 & Hret)] Hj.
  assert (∃ sub, walks lb bs0 block sub ∧ (sub = j ∨ tc (walks lb bs0) sub j))
    as (sub & (b0' & label & Hb0' & Hlabel & Hl) & Hsub).
  { inversion Htc; subst; eauto. }
  assert (b0' = b0) as -> by congruence.
  rewrite (static_branch_labels _ _ Hsb) in Hlabel.
  destruct (for_each_elem grows _ _ label _ _ grows_refl grows_trans
              (λ s1 s2 x _ H, link_returning_blocks_body_grows ret fuel s1 x s2 H)
              Hlabel Hrun) as (s1 & s2 & Hg1 & Hbody & Hg2).
  rewrite Hl in Hbody.
  destruct (s1 !! sub) as [sb|] eqn:Hsb1; [|done].
  assert (static <$> s1 = static <$> bs0) as Hst1.
  { by rewrite (grows_static _ _ Hg1). }
  destruct (grows_lookup_r _ _ _ _ Hg2 Hj) as (b2 & Hb2 & Hsb2 & Hto2).
  apply Hto2.
  destruct Hsub as [->|Htc'].
  - pose proof (link_returning_blocks_grows _ _ _ _ _ _ Hbody) as Hg.
    destruct (grows_lookup_r _ _ _ _ Hg Hb2) as (b1 & Hb1 & Hsb1' & Hto1).
    apply Hto1.
    destruct (static_lookup _ _ _ _ (eq_sym Hst1) Hsb1) as (x & Hx & Hsx).
    assert (x = bj0) as -> by congruence.
    rewrite <-(static_branch_type _ _ Hsx), Hret in Hb1.
    apply link_to_lookup_Some in Hb1 as (y & _ & _ & Hto & _).
    rewrite Hto, decide_True by done. apply elem_of_app. right. left.
  - eapply (IH sub _ s2); [|done| |done].
    + destruct (branch_type sb); try done.
      pose proof (link_to_appended sub ret s1) as Happ.
      by rewrite (appended_static _ _ _ Happ).
    + split; [done|]. eauto.
Qed.

End returning.

Lemma returns_from_static lb (bs bs' : list BasicBlock) block j :
  static <$> bs' = static <$> bs →
  returns_from lb bs block j → returns_from lb bs' block j.
Proof.
  intros Hst [Htc (b & Hb & Hret)]. split; [by eapply tc_walks_static|].
  destruct (static_lookup _ _ _ _ Hst Hb) as (b' & Hb' & Hs).
  exists b'. split; [done|]. by rewrite (static_branch_type _ _ Hs).
Qed.

Lemma link_callers_sound lb bs0 fuel callers :
  ∀ bs bs',
    static <$> bs = static <$> bs0 →
    link_callers fuel lb callers bs = Done bs' →
    ∃ ts, appended ts bs bs'
          ∧ ∀ j r, r ∈ ts j →
                   ∃ c, (c, r) ∈ callers ∧ returns_from lb bs0 c j.
Proof.
  unfold link_callers.
  induction callers as [|[c r0] callers IH]; intros bs bs' Hst; cbn [for_each].
  { intros [= <-]. exists (λ _, []). split; [apply appended_refl|].
    intros j r Hr. by apply elem_of_nil in Hr. }
  intros (bs1 & Hrec & Hrest)%bind_Done.
  destruct (link_returning_blocks_sound lb bs0 r0 fuel c bs bs1 Hst Hrec)
    as (ts1 & Happ1 & Hts1).
  assert (static <$> bs1 = static <$> bs0) as Hst1.
  { by rewrite (appended_static _ _ _ Happ1). }
  destruct (IH bs1 bs' Hst1 Hrest) as (ts2 & Happ2 & Hts2).
  eexists. split; [exact (appended_trans _ _ _ _ _ Happ1 Happ2)|].
  intros j r. cbn. rewrite elem_of_app. intros [Hr|Hr].
  - destruct (Hts1 j r Hr) as [-> Hfrom]. exists c. split; [left|done].
  - destruct (Hts2 j r Hr) as (c' & Hc' & Hfrom). exists c'.
    split; [by right|done].
Qed.

Lemma link_callers_complete lb bs0 fuel callers bs bs' c r j b' :
  static <$> bs = static <$> bs0 →
  link_callers fuel lb callers bs = Done bs' →
  (c, r) ∈ callers → returns_from lb bs0 c j →
  bs' !! j = Some b' → r ∈ to b'.
Proof.
  intros Hst Hrun Hcr Hfrom Hj. unfold link_callers in Hrun.
  destruct (for_each_elem grows
              (λ bs '(caller, ret),
                 link_returning_blocks fuel lb ret caller bs)
              callers (c, r) bs bs' grows_refl grows_trans)
    as (s1 & s2 & Hg1 & Hbody & Hg2); [|done|done|].
  { intros s1 s2 [c' r'] _ H. by eapply link_returning_blocks_grows. }
  destruct (grows_lookup_r _ _ _ _ Hg2 Hj) as (b2 & Hb2 & _ & Hto2).
  apply Hto2.
  eapply (link_returning_blocks_complete lb bs0 r fuel c s1 s2); [|done..].
  by rewrite (grows_static _ _ Hg1).
Qed.

(** X3. In the graph [create_control_flow_graph] returns, the successors
    of a [Return] block are exactly the continuation blocks of the
    calls that reach it: the block [r] is a successor of the [Return]
    block [s] if and only if [r] is the block after a [Call] block [c]
    from which [s] is reached in one or more steps, each from a block
    to a block that one of its branch labels resolves to. Blocks
    reached by falling through are not visited by this walk. *)
Theorem return_edges (fuel : nat) (segments : list InstructionSegment)
    (cfg : ControlFlowGraph) :
  create_control_flow_graph fuel segments = Done cfg →
  ∃ cfg0 label_blocks,
    create_all_basic_blocks segments = Done (cfg0, label_blocks)
    ∧ ∀ s sb r,
        cfg_blocks cfg !! s = Some sb →
        branch_type sb = BranchType.Return →
        r ∈ to sb
        ↔ ∃ c cb,
            cfg_blocks cfg !! c = Some cb
            ∧ branch_type cb = BranchType.Call
            ∧ r = c + 1 ∧ c + 1 < length (cfg_blocks cfg)
            ∧ tc (walks label_blocks (cfg_blocks cfg)) c s.
Proof.
  intros Hret.
  destruct (create_control_flow_graph_stages _ _ _ Hret)
    as (cfg0 & lb & linked & callers & Hc & Hedges & Hcallers & _ & Hbuilt
        & Happ & Hcs & Hgrows).
  exists cfg0, lb. split; [done|]. intros s sb r Hs Hbt.
  pose proof (grows_static _ _ Hgrows) as Hst.
  assert (∀ c r, (c, r) ∈ callers
                 ↔ ∃ b, cfg_blocks cfg !! c = Some b
                        ∧ branch_type b = BranchType.Call
                        ∧ r = c + 1 ∧ c + 1 < length (cfg_blocks cfg))
    as Hpairs.
  { intros c r'. rewrite <-(returned_callers _ _ _ Hret _ _ c r' Hc).
    by rewrite Hedges. }
  split.
  - intros Hr.
    destruct (link_callers_sound lb linked fuel callers linked _ eq_refl
                Hcallers) as (ts & Happ' & Hts).
    destruct (appended_lookup _ _ _ _ _ Happ' Hs) as (b1 & Hb1 & Hs1 & Hto1).
    destruct (appended_lookup _ _ _ _ _ Happ Hb1) as (b0 & Hb0 & Hs0 & Hto0).
    assert (to b1 = []) as Hempty.
    { rewrite Hto0. unfold successors_at. rewrite Hb0. unfold successors.
      rewrite <-(static_branch_type _ _ Hs0), <-(static_branch_type _ _ Hs1),
        Hbt.
      pose proof (built_unlinked _ _ Hbuilt) as Hu.
      rewrite Forall_forall in Hu.
      destruct (Hu b0 (list_elem_of_lookup_2 _ _ _ Hb0)) as [_ ->]. done. }
    rewrite Hto1, Hempty in Hr. cbn in Hr.
    destruct (Hts s r Hr) as (c & Hcr & Htc & _).
    apply Hpairs in Hcr as (cb & Hcb & Hcall & -> & Hlt).
    exists c, cb. split_and!; [done..|].
    by eapply tc_walks_static.
  - intros (c & cb & Hcb & Hcall & -> & Hlt & Htc).
    eapply (link_callers_complete lb linked fuel callers linked _ c (c + 1) s);
      [done|done| | |done].
    + apply Hpairs. eauto.
    + split; [by eapply tc_walks_static|].
      destruct (static_lookup _ _ _ _ (eq_sym Hst) Hs) as (x & Hx & Hsx).
      exists x. split; [done|]. by rewrite (static_branch_type _ _ Hsx).
Qed.

Lemma return_edges_witness :
  create_control_flow_graph 4 sample_program = Done sample_graph
  ∧ to <$> cfg_blocks sample_graph !! 5 = Some [2; 5]
  ∧ ∃ cfg0 label_blocks,
      create_all_basic_blocks sample_program = Done (cfg0, label_blocks)
      ∧ ∀ s sb r,
          cfg_blocks sample_graph !! s = Some sb →
          branch_type sb = BranchType.Return →
          r ∈ to sb
          ↔ ∃ c cb,
              cfg_blocks sample_graph !! c = Some cb
              ∧ branch_type cb = BranchType.Call
              ∧ r = c + 1 ∧ c + 1 < length (cfg_blocks sample_graph)
              ∧ tc (walks label_blocks (cfg_blocks sample_graph)) c s.
Proof.
  split; [vm_compute; reflexivity|]. split; [vm_compute; reflexivity|].
  apply (return_edges 4 sample_program sample_graph).
  vm_compute. reflexivity.
Defined.

(** X16. The instruction table holds the program's instructions and
    nothing else: an instruction has an entry in the table of the
    returned graph if and only if it is an instruction of one of the
    segments the graph was built from. *)
Theorem instruction_table_domain (fuel : nat)
    (segments : list InstructionSegment) (cfg : ControlFlowGraph)
    (key : nat) :
  create_control_flow_graph fuel segments = Done cfg →
  is_Some (cfg_instructions cfg !! key)
  ↔ ∃ seg inst, seg ∈ segments ∧ inst ∈ instructions seg
                ∧ inst_id inst = key.
Proof.
  intros Hret.
  destruct (create_control_flow_graph_stages _ _ _ Hret)
    as (cfg0 & lb & linked & callers & Hc & _ & _ & Hmap & Hbuilt & _ & _ & _).
  pose proof (returned_static _ _ _ Hret _ _ Hc) as Hst.
  rewrite Hmap. split.
  - intros [id Hid].
    pose proof (built_map _ _ Hbuilt key id Hid) as Hholds. cbn in Hholds.
    apply (holds_static _ _ _ _ Hst) in Hholds
      as (b & j & inst & Hb & _ & Hinst & Hkey).
    destruct (returned_block_ranges _ _ _ _ Hret
                (list_elem_of_lookup_2 _ _ _ Hb)) as (Hseg & _).
    exists (segment b), inst. split_and!; [done| |done].
    by eapply list_elem_of_lookup_2.
  - intros (seg & inst & Hseg & Hinst & <-).
    apply (built_cover _ _ Hbuilt seg inst Hseg Hinst).
Qed.

Lemma instruction_table_domain_witness :
  create_control_flow_graph 4 sample_program = Done sample_graph
  ∧ is_Some (cfg_instructions sample_graph !! 9)
  ∧ cfg_instructions sample_graph !! 10 = Datatypes.None.
Proof.
  split; [vm_compute; reflexivity|]. split.
  - apply (instruction_table_domain 4 sample_program sample_graph 9);
      [vm_compute; reflexivity|].
    exists sample_segment_4, (new_instruction 9 Opcode.call [2%Z]).
    split_and!; [|left|reflexivity].
    unfold sample_program. do 4 right. left.
  - vm_compute. reflexivity.
Defined.

(** * Where blocks end *)

Lemma closed_by_last_static b b' :
  static b' = static b → closed_by_last b → closed_by_last b'.
Proof.
  unfold static, closed_by_last.
  intros [= Hseg Hstart Hend Hbt Hbl]. by rewrite Hseg, Hstart, Hend, Hbt, Hbl.
Qed.

Lemma create_basic_blocks_loop_closed seg rest :
  ∀ i s fb cfg lb st',
    create_basic_blocks_loop seg rest i s fb (cfg, lb) = Done st' →
    rest = drop i (instructions seg) →
    (∀ j inst, s ≤ j < i → instructions seg !! j = Some inst →
               classify inst (bool_decide (j = length (instructions seg) - 1))
               = Done Datatypes.None) →
    Forall closed_by_last (cfg_blocks cfg) →
    Forall closed_by_last (cfg_blocks st'.1).
Proof.
  induction rest as [|inst rest IH]; intros i s fb cfg lb st'; cbn.
  { by intros [= <-]. }
  intros Hrun Hrest Hinner Hblocks.
  symmetry in Hrest. apply drop_cons_lookup in Hrest as (Hi & Hdrop & Hlt).
  destruct (classify inst _) as [[[bt bl]|]| |] eqn:Hc; cbn in Hrun;
    [| |done|done].
  - eapply IH; [exact Hrun|done| |].
    + intros j x Hj. lia.
    + cbn. apply Forall_app. split; [done|]. apply Forall_singleton.
      split; cbn.
      * exists inst. replace (i + 1 - 1) with i by lia. done.
      * intros j x Hs Hj Hx. apply (Hinner j x); [lia|done].
  - eapply IH; [exact Hrun|done| |done].
    intros j x Hj Hx. destruct (decide (j = i)) as [->|Hne].
    + assert (x = inst) as -> by congruence. done.
    + apply Hinner; [lia|done].
Qed.

Lemma create_all_basic_blocks_closed segments st :
  create_all_basic_blocks segments = Done st →
  Forall closed_by_last (cfg_blocks st.1).
Proof.
  unfold create_all_basic_blocks.
  assert (Forall closed_by_last (cfg_blocks empty_builder.1)) as Hinit
    by constructor.
  revert Hinit. generalize empty_builder.
  induction segments as [|seg segments IH]; intros st0 Hinit; cbn [for_each].
  { by intros [= <-]. }
  intros (st1 & Hseg & Hrest)%bind_Done.
  apply (IH st1); [|done]. destruct st0 as [cfg lb].
  eapply create_basic_blocks_loop_closed; [exact Hseg|done| |done].
  intros j x Hj. lia.
Qed.

(** X4. Blocks end exactly at branches. For every block of the graph
    [create_control_flow_graph] returns, the block's branch type and
    branch labels are those [create_basic_blocks] reads from the block's
    last instruction (a branch instruction, or the last instruction of
    its segment), and no instruction before the last one is an
    instruction that closes a block. *)
Theorem blocks_end_at_branches (fuel : nat)
    (segments : list InstructionSegment) (cfg : ControlFlowGraph)
    (b : BasicBlock) :
  create_control_flow_graph fuel segments = Done cfg →
  b ∈ cfg_blocks cfg →
  let insts := instructions (segment b) in
  (∃ last,
      insts !! (end_ b - 1) = Some last
      ∧ classify last (bool_decide (end_ b - 1 = length insts - 1))
        = Done (Some (branch_type b, branch_labels b)))
  ∧ (∀ j inst,
       start b ≤ j → j + 1 < end_ b → insts !! j = Some inst →
       classify inst false = Done Datatypes.None)
  ∧ (branch_type b = BranchType.None → end_ b = length insts).
Proof.
  intros Hret Hb.
  destruct (create_control_flow_graph_stages _ _ _ Hret)
    as (cfg0 & lb & linked & callers & Hc & _ & _ & _ & _ & _ & _ & _).
  pose proof (returned_static _ _ _ Hret _ _ Hc) as Hst.
  pose proof (create_all_basic_blocks_closed _ _ Hc) as Hclosed.
  cbn in Hclosed. rewrite Forall_forall in Hclosed.
  apply list_elem_of_lookup in Hb as (i & Hi).
  destruct (static_lookup _ _ _ _ (eq_sym Hst) Hi) as (b0 & Hb0 & Hs).
  pose proof (closed_by_last_static b0 b (eq_sym Hs)
                (Hclosed b0 (list_elem_of_lookup_2 _ _ _ Hb0)))
    as [(last & Hlast & Hclass) Hinner].
  destruct (returned_block_ranges _ _ _ _ Hret (list_elem_of_lookup_2 _ _ _ Hi))
    as (_ & Hlt & Hle).
  split_and!.
  - by exists last.
  - intros j inst Hs' Hj Hinst. rewrite <-(Hinner j inst Hs' Hj Hinst).
    f_equal. symmetry. apply bool_decide_eq_false. lia.
  - intros Hnone. rewrite Hnone in Hclass.
    destruct (bool_decide _) eqn:Hlastb.
    + apply bool_decide_eq_true in Hlastb. lia.
    + exfalso. revert Hclass. unfold classify, arg_value.
      destruct (opcode last); try done; by destruct (args last !! _).
Qed.

Lemma blocks_end_at_branches_witness :
  create_control_flow_graph 4 sample_program = Done sample_graph
  ∧ (∀ b, b ∈ cfg_blocks sample_graph →
          branch_type b = BranchType.None →
          end_ b = length (instructions (segment b))).
Proof.
  split; [vm_compute; reflexivity|].
  intros b Hb.
  refine (proj2 (proj2 (blocks_end_at_branches 4 sample_program sample_graph
                          b _ Hb))).
  vm_compute. reflexivity.
Defined.

(** * Missing operands *)

Lemma classify_throw inst is_last :
  classify inst is_last = Throw ↔ branch_operands_ok inst = false.
Proof.
  unfold branch_operands_ok, classify, arg_value.
  destruct (opcode inst); try (by destruct is_last);
    rewrite ?bool_decide_eq_false; try done;
    destruct (args inst) as [|a0 [|a1 [|a2 ?]]]; cbn; split; try done; lia.
Qed.

Lemma create_basic_blocks_loop_throws seg rest :
  ∀ i s fb st,
    Exists (λ inst, branch_operands_ok inst = false) rest →
    create_basic_blocks_loop seg rest i s fb st = Throw.
Proof.
  induction rest as [|inst rest IH]; intros i s fb st Hbad.
  { by apply Exists_nil in Hbad. }
  cbn. apply Exists_cons in Hbad as [Hbad|Hbad].
  - apply (classify_throw inst
             (bool_decide (i = length (instructions seg) - 1))) in Hbad.
    by rewrite Hbad.
  - destruct (classify inst _) as [[[bt bl]|]| |] eqn:Hc; cbn; try done.
    + by apply IH.
    + by apply IH.
    + exfalso. revert Hc. unfold classify, arg_value.
      destruct (opcode inst); try done;
        try (by destruct (bool_decide _));
        by destruct (args inst !! _).
Qed.

Lemma create_basic_blocks_loop_settled seg rest :
  ∀ i s fb st, create_basic_blocks_loop seg rest i s fb st ≠ Diverge.
Proof.
  induction rest as [|inst rest IH]; intros i s fb st; cbn; [done|].
  destruct (classify inst _) as [[[bt bl]|]| |] eqn:Hc; cbn; try done.
  revert Hc. unfold classify, arg_value.
  destruct (opcode inst); try done;
    try (by destruct (bool_decide _));
    by destruct (args inst !! _).
Qed.

Lemma create_basic_blocks_settled st seg :
  create_basic_blocks st seg ≠ Diverge.
Proof. apply create_basic_blocks_loop_settled. Qed.

Lemma create_all_basic_blocks_throws segments :
  (∃ seg inst, seg ∈ segments ∧ inst ∈ instructions seg
               ∧ branch_operands_ok inst = false) →
  create_all_basic_blocks segments = Throw.
Proof.
  unfold create_all_basic_blocks. generalize empty_builder.
  induction segments as [|seg segments IH]; intros st (bad & inst & Hseg & Hinst & Hbad).
  { by apply elem_of_nil in Hseg. }
  cbn [for_each]. apply elem_of_cons in Hseg as [->|Hseg].
  - unfold create_basic_blocks.
    rewrite create_basic_blocks_loop_throws; [done|].
    apply Exists_exists. eauto.
  - pose proof (create_basic_blocks_settled st seg) as Hsettled.
    destruct (create_basic_blocks st seg) as [st1| |]; cbn; [|done|done].
    apply IH. eauto.
Qed.

Lemma create_control_flow_graph_no_throw fuel segments :
  (∀ seg inst, seg ∈ segments → inst ∈ instructions seg →
               branch_operands_ok inst = true) →
  create_control_flow_graph fuel segments ≠ Throw.
Proof.
  intros Hok.
  destruct (create_all_basic_blocks_no_throw segments Hok)
    as ([cfg0 lb] & Hc).
  pose proof (create_all_basic_blocks_built _ _ Hc) as Hbuilt.
  unfold create_control_flow_graph. rewrite Hc.
  cbn [mbind outcome_bind]. unfold link_blocks.
  destruct (link_edges_spec lb (cfg_blocks cfg0)) as [[Hlen _] Hcs].
  destruct (link_edges lb (cfg_blocks cfg0)) as [linked callers].
  cbn in Hlen, Hcs.
  pose proof (link_callers_no_throw fuel lb callers linked) as Hno.
  destruct (link_callers fuel lb callers linked); cbn; try done.
  intros _. apply Hno; [| |done].
  - intros label j Hj. rewrite Hlen.
    by apply (built_label_range _ _ label _ Hbuilt).
  - intros c r Hin. rewrite Hcs in Hin. rewrite Hlen.
    apply elem_of_pending_callers in Hin as (_ & _ & _ & _ & ?). lia.
Qed.

(** X5. [create_control_flow_graph] throws exactly when some
    instruction of some segment is a jump or a call that lacks the
    operand its label is read from (the first operand of [jmp],
    [jmp_on], [jmp_off], [call] and [va_call], the third operand of the
    comparing jumps); [switch_jmp] and [switch_call] never make it
    throw, however few operands they have. *)
Theorem construction_throws_iff_operand_missing (fuel : nat)
    (segments : list InstructionSegment) :
  create_control_flow_graph fuel segments = Throw
  ↔ ∃ seg inst, seg ∈ segments ∧ inst ∈ instructions seg
                ∧ branch_operands_ok inst = false.
Proof.
  split.
  - intros Hthrow.
    destruct (decide (Exists (λ seg, Exists (λ inst, branch_operands_ok inst
                                                     = false)
                                       (instructions seg)) segments))
      as [Hex|Hall].
    + apply Exists_exists in Hex as (seg & Hseg & Hex).
      apply Exists_exists in Hex as (inst & Hinst & Hbad). eauto.
    + exfalso. revert Hthrow. apply create_control_flow_graph_no_throw.
      intros seg inst Hseg Hinst.
      destruct (branch_operands_ok inst) eqn:Hok; [done|].
      exfalso. apply Hall. apply Exists_exists. exists seg. split; [done|].
      apply Exists_exists. eauto.
  - intros Hbad. unfold create_control_flow_graph.
    by rewrite (create_all_basic_blocks_throws _ Hbad).
Qed.

(** * The label table *)

Lemma create_basic_blocks_labels st seg st' :
  create_basic_blocks st seg = Done st' →
  (instructions seg = [] → st' = st)
  ∧ (instructions seg ≠ [] →
     st'.2 = set_labels (length (cfg_blocks st.1)) st.2 (labels seg)
     ∧ ∃ b new, cfg_blocks st'.1 = cfg_blocks st.1 ++ b :: new
                ∧ segment b = seg ∧ start b = 0).
Proof.
  intros Hrun. split.
  - intros Hnil. unfold create_basic_blocks in Hrun. rewrite Hnil in Hrun.
    cbn in Hrun. congruence.
  - intros Hne. destruct st as [cfg lb].
    destruct (create_basic_blocks_loop_spec seg (instructions seg) 0 0 true
                cfg lb st' Hrun) as (new & Hblocks & Htil & _ & Hlb & _).
    { done. }
    { lia. }
    { done. }
    destruct new as [|b new].
    { apply tiling_le in Htil as Hle.
      inversion Htil as [s Hs Hlen|]; subst.
      destruct (instructions seg); [done|discriminate]. }
    split; [done|]. exists b, new. split; [done|].
    inversion Htil; subst. done.
Qed.

Lemma for_each_create_basic_blocks_keeps_label segments label :
  ∀ st st',
    for_each create_basic_blocks segments st = Done st' →
    (∀ s, s ∈ segments → label ∈ labels s → instructions s = []) →
    st'.2 !! label = st.2 !! label.
Proof.
  induction segments as [|seg segments IH]; intros st st'; cbn [for_each].
  { by intros [= <-]. }
  intros (st1 & Hseg & Hrest)%bind_Done Hfree.
  rewrite (IH st1 st' Hrest) by (intros s Hs; apply Hfree; by right).
  destruct (create_basic_blocks_labels _ _ _ Hseg) as [Hnil Hne].
  destruct (decide (instructions seg = [])) as [Hempty|Hfull].
  - by rewrite (Hnil Hempty).
  - destruct (Hne Hfull) as [-> _]. rewrite lookup_set_labels.
    case_decide as Hin; [|done].
    exfalso. apply Hfull, Hfree; [left|done].
Qed.

(** X6. Which block a label resolves to. A label resolves to the first
    block of the last segment that carries it and has instructions:
    when the same label is on several segments the later one wins, and
    segments without instructions do not count. A label that only
    segments without instructions carry resolves to nothing. *)
Theorem label_resolves_to_last_segment (fuel : nat)
    (segments : list InstructionSegment) (cfg : ControlFlowGraph) :
  create_control_flow_graph fuel segments = Done cfg →
  ∃ cfg0 label_blocks,
    create_all_basic_blocks segments = Done (cfg0, label_blocks)
    ∧ (∀ pre s post label,
         segments = pre ++ s :: post →
         instructions s ≠ [] → label ∈ labels s →
         (∀ s', s' ∈ post → label ∈ labels s' → instructions s' = []) →
         ∃ stp b,
           create_all_basic_blocks pre = Done stp
           ∧ label_blocks !! label = Some (length (cfg_blocks stp.1))
           ∧ cfg_blocks cfg !! length (cfg_blocks stp.1) = Some b
           ∧ segment b = s ∧ start b = 0)
    ∧ (∀ label,
         (∀ s, s ∈ segments → label ∈ labels s → instructions s = []) →
         label_blocks !! label = Datatypes.None).
Proof.
  intros Hret.
  destruct (create_control_flow_graph_stages _ _ _ Hret)
    as (cfg0 & lb & linked & callers & Hc & _ & _ & _ & _ & _ & _ & _).
  pose proof (returned_static _ _ _ Hret _ _ Hc) as Hst.
  exists cfg0, lb. split; [done|]. split.
  - intros pre s post label -> Hne Hlabel Hfree.
    unfold create_all_basic_blocks in Hc.
    rewrite for_each_app in Hc.
    apply bind_Done in Hc as (stp & Hpre & Hc). cbn [for_each] in Hc.
    apply bind_Done in Hc as (sts & Hs & Hpost).
    destruct (create_basic_blocks_labels _ _ _ Hs) as [_ Hfull].
    destruct (Hfull Hne) as (Hlb & b & new & Hblocks & Hseg & Hstart).
    pose proof (for_each_create_basic_blocks_keeps_label post label _ _
                  Hpost Hfree) as Hkeep.
    destruct (for_each_create_basic_blocks_extends _ _ _ Hpost)
      as (groups & Hext & _).
    cbn in Hkeep, Hext.
    assert (cfg_blocks cfg0 !! length (cfg_blocks stp.1) = Some b) as Hb.
    { rewrite Hext, Hblocks, <-app_assoc. cbn.
      by rewrite list_lookup_middle. }
    destruct (static_lookup _ _ _ _ Hst Hb) as (b' & Hb' & Hsb).
    exists stp, b'. split_and!; [done| |done| |].
    + rewrite Hkeep, Hlb, lookup_set_labels. by rewrite decide_True.
    + unfold static in Hsb. injection Hsb as -> _ _ _ _. done.
    + unfold static in Hsb. injection Hsb as _ -> _ _ _. done.
  - intros label Hfree.
    pose proof (for_each_create_basic_blocks_keeps_label segments label _ _
                  Hc Hfree) as Hkeep.
    cbn in Hkeep. by rewrite Hkeep.
Qed.

Lemma label_resolves_to_last_segment_witness :
  create_control_flow_graph 4 sample_program = Done sample_graph
  ∧ ∃ cfg0 label_blocks,
      create_all_basic_blocks sample_program = Done (cfg0, label_blocks)
      ∧ label_blocks !! 1%Z = Some 4
      ∧ label_blocks !! 9%Z = Datatypes.None.
Proof.
  split; [vm_compute; reflexivity|].
  destruct (label_resolves_to_last_segment 4 sample_program sample_graph)
    as (cfg0 & lb & Hc & Hsome & Hnone).
  { vm_compute. reflexivity. }
  exists cfg0, lb. split; [exact Hc|]. split.
  - destruct (Hsome [sample_segment_0] sample_segment_1
                [sample_segment_2; sample_segment_3; sample_segment_4] 1%Z)
      as (stp & b & Hpre & Hl & _).
    + reflexivity.
    + discriminate.
    + left.
    + intros s' Hs' Hin. exfalso.
      repeat (apply elem_of_cons in Hs' as [->|Hs'];
              [by apply list_elem_of_singleton in Hin|]).
      by apply elem_of_nil in Hs'.
    + vm_compute in Hpre. injection Hpre as <-. exact Hl.
  - apply Hnone. intros s Hs Hin. exfalso.
    unfold sample_program in Hs.
    repeat (apply elem_of_cons in Hs as [->|Hs];
            [by apply list_elem_of_singleton in Hin|]).
    by apply elem_of_nil in Hs.
Defined.

(** * The values of a value set *)

Lemma for_each_invariant {A St} (I : St → Prop) (body : St → A → outcome St)
    xs s s' :
  I s →
  (∀ s1 s2 x, x ∈ xs → I s1 → body s1 x = Done s2 → I s2) →
  for_each body xs s = Done s' → I s'.
Proof.
  revert s. induction xs as [|x xs IH]; intros s Hs Hbody; cbn [for_each].
  { by intros [= <-]. }
  intros (s1 & Hx & Hrest)%bind_Done.
  apply (IH s1); [|by intros s2 s3 y Hy; apply Hbody; right|done].
  eapply Hbody; [left|done|done].
Qed.

Lemma loaded_before_earlier blocks block stop stop' v :
  stop ≤ stop' →
  loaded_before blocks block stop v → loaded_before blocks block stop' v.
Proof.
  intros Hle (p & b & i & inst & Hb & Hi & Hload & Hv & Hs & Hwhere).
  exists p, b, i, inst. split_and!; [done..|].
  destruct Hwhere as [[-> Hlt]|?]; [left; split; [done|lia]|by right].
Qed.

Lemma loaded_before_predecessor blocks block b stop p pb v :
  blocks !! block = Some b → p ∈ from b → blocks !! p = Some pb →
  loaded_before blocks p (end_ pb) v → loaded_before blocks block stop v.
Proof.
  intros Hb Hp Hpb (p' & b' & i & inst & Hb' & Hi & Hload & Hv & Hs & Hwhere).
  assert (precedes blocks block p) as Hpre by (by exists b).
  exists p', b', i, inst. split_and!; [done..|]. right.
  destruct Hwhere as [[-> Hlt]|[Htc Hlt]].
  - assert (b' = pb) as -> by congruence. split; [by apply tc_once|done].
  - split; [by eapply tc_l|done].
Qed.

Lemma find_value_set_sound blocks fuel :
  ∀ block stop register values,
    find_value_set fuel blocks block stop register = Done values →
    ∀ v, v ∈ values → loaded_before blocks block stop v.
Proof.
  induction fuel as [|fuel IH]; intros block stop register values;
    cbn [find_value_set]; [done|].
  destruct (blocks !! block) as [b|] eqn:Hb; [|done].
  intros (scanned & Hscan & Hrest)%bind_Done.
  assert (∀ v, v ∈ scanned → loaded_before blocks block stop v) as Hscanned.
  { revert Hscan.
    apply (for_each_invariant
             (λ vs : ValueSet.t,
                ∀ v, v ∈ vs → loaded_before blocks block stop v)).
    { intros v Hv. by apply not_elem_of_empty in Hv. }
    intros vs vs' i Hi Hvs. unfold scan_instruction.
    apply elem_of_seq in Hi as [Hi Hi'].
    destruct (instructions (segment b) !! i) as [instruction|] eqn:Hinst;
      [|done].
    assert (immediate_load instruction →
            (a0 ← arg_value (args instruction) 0;
             if decide (a0 = register)
             then a1 ← arg_value (args instruction) 1;
                  Done (ValueSet.set_value vs a1)
             else Done vs) = Done vs' →
            ∀ v, v ∈ vs' → loaded_before blocks block stop v) as Himm.
    { intros Hload. unfold arg_value.
      destruct (args instruction !! 0) as [a0|]; [|done]. cbn.
      destruct (decide (_ = register)); [|by intros [= <-]].
      destruct (args instruction !! 1) as [a1|] eqn:Ha1; [|done]. cbn.
      intros [= <-] v Hv. apply elem_of_singleton in Hv as ->.
      exists block, b, i, instruction.
      split_and!; [done|done|done|by rewrite Ha1|done|].
      left. split; [done|lia]. }
    destruct (opcode instruction) eqn:Hop;
      try (by intros [= <-]);
      try (apply Himm; unfold immediate_load; by eauto).
    unfold arg_value.
    destruct (args instruction !! 0) as [a0|]; [|done]. cbn.
    destruct (decide (_ = register)); [|by intros [= <-]].
    destruct (args instruction !! 1) as [a1|]; [|done]. cbn.
    intros Hcopy v Hv. apply (loaded_before_earlier _ _ i); [lia|].
    by eapply IH. }
  destruct (decide (ValueSet.size scanned = 0)); [|by injection Hrest as <-].
  revert Hrest. unfold union_predecessors.
  apply (for_each_invariant
           (λ vs : ValueSet.t,
              ∀ v, v ∈ vs → loaded_before blocks block stop v));
    [done|].
  intros vs vs' p Hp Hvs.
  destruct (blocks !! p) as [fb|] eqn:Hfb; [|done].
  intros (more & Hmore & [= <-])%bind_Done v.
  unfold ValueSet.union. rewrite elem_of_union. intros [Hv|Hv]; [by apply Hvs|].
  eapply loaded_before_predecessor; [done..|].
  by eapply IH.
Qed.

(** X7. The analysis invents no value. Every value in the set
    [register_value_set] returns is the second operand of an immediate
    load ([leti], [letb], [letw] or [leto]) that lies within the range
    of a block of the graph: either in the block of the queried
    instruction, before that instruction, or in a block from which that
    block is reached along one or more predecessor edges. The set of an
    instruction outside the graph is empty. *)
Theorem value_set_holds_loaded_values (fuel : nat) (cfg : ControlFlowGraph)
    (instruction : Instruction) (register : Z) (values : ValueSet.t) (v : Z) :
  register_value_set fuel cfg instruction register = Done values →
  v ∈ values →
  ∃ block qb p b i load,
    cfg_instructions cfg !! inst_id instruction = Some block
    ∧ cfg_blocks cfg !! block = Some qb
    ∧ cfg_blocks cfg !! p = Some b
    ∧ instructions (segment b) !! i = Some load
    ∧ immediate_load load
    ∧ value <$> args load !! 1 = Some v
    ∧ start b ≤ i < end_ b
    ∧ ((p = block
        ∧ i < find_inst_idx qb instruction (start qb) (end_ qb - start qb))
       ∨ tc (precedes (cfg_blocks cfg)) block p).
Proof.
  unfold register_value_set.
  destruct (cfg_instructions cfg !! inst_id instruction) as [block|]; cycle 1.
  { intros [= <-] Hv. by apply not_elem_of_empty in Hv. }
  destruct (cfg_blocks cfg !! block) as [qb|] eqn:Hqb; [|done].
  intros Hrun Hv.
  destruct (find_value_set_sound _ _ _ _ _ _ Hrun v Hv)
    as (p & b & i & load & Hb & Hi & Hload & Hval & Hs & Hwhere).
  exists block, qb, p, b, i, load. split_and!; [done..| | |].
  - done.
  - destruct Hwhere as [[-> Hlt]|[_ Hlt]]; [|done].
    assert (b = qb) as -> by congruence.
    pose proof (find_inst_idx_le qb instruction (start qb)
                  (end_ qb - start qb)). lia.
  - destruct Hwhere as [[-> Hlt]|[Htc _]]; [by left|by right].
Qed.

Lemma value_set_holds_loaded_values_witness :
  register_value_set 2 join_graph (new_instruction 5 (Opcode.other 0) []) 2
  = Done {[ 1%Z; 2%Z ]}
  ∧ ∃ block qb p b i load,
      cfg_instructions join_graph
        !! inst_id (new_instruction 5 (Opcode.other 0) []) = Some block
      ∧ cfg_blocks join_graph !! block = Some qb
      ∧ cfg_blocks join_graph !! p = Some b
      ∧ instructions (segment b) !! i = Some load
      ∧ immediate_load load
      ∧ value <$> args load !! 1 = Some 2%Z
      ∧ start b ≤ i < end_ b
      ∧ ((p = block
          ∧ i < find_inst_idx qb (new_instruction 5 (Opcode.other 0) [])
                  (start qb) (end_ qb - start qb))
         ∨ tc (precedes (cfg_blocks join_graph)) block p).
Proof.
  split; [vm_compute; reflexivity|].
  apply (value_set_holds_loaded_values 2 join_graph
           (new_instruction 5 (Opcode.other 0) []) 2 {[ 1%Z; 2%Z ]} 2).
  - vm_compute. reflexivity.
  - apply elem_of_union. right. by apply elem_of_singleton.
Defined.

(** * The data-flow state *)

Lemma to_int32_mod z : DataView.to_int32 (z mod 2 ^ 32) = DataView.to_int32 z.
Proof.
  unfold DataView.to_int32. f_equal.
  by rewrite Z.add_mod_idemp_l.
Qed.

Lemma bytes_of_value_of value b0 b1 b2 b3 :
  DataView.bytes_of value = (b0, b1, b2, b3) →
  DataView.value_of b0 b1 b2 b3 = DataView.to_int32 value.
Proof.
  unfold DataView.bytes_of, DataView.value_of. intros [= <- <- <- <-].
  rewrite <-(to_int32_mod value). f_equal.
  pose proof (Z.mod_pos_bound value (2 ^ 32) ltac:(lia)) as Hu.
  generalize dependent (value mod 2 ^ 32)%Z. intros u Hu.
  change (2 ^ 24)%Z with 16777216%Z. change (2 ^ 16)%Z with 65536%Z.
  change (2 ^ 8)%Z with 256%Z. change (2 ^ 32)%Z with 4294967296%Z in Hu.
  Z.div_mod_to_equations. lia.
Qed.

Lemma bytes_of_shifted value b0 b1 b2 b3 :
  DataView.bytes_of value = (b0, b1, b2, b3) →
  ((b0 * 256 + b1) * 256 + b2 = (value mod 2 ^ 32) / 2 ^ 8)%Z
  ∧ (b0 = (value mod 2 ^ 32) / 2 ^ 24)%Z.
Proof.
  unfold DataView.bytes_of. intros [= <- <- <- <-]. split; [|done].
  pose proof (Z.mod_pos_bound value (2 ^ 32) ltac:(lia)) as Hu.
  generalize dependent (value mod 2 ^ 32)%Z. intros u Hu.
  change (2 ^ 24)%Z with 16777216%Z. change (2 ^ 16)%Z with 65536%Z.
  change (2 ^ 8)%Z with 256%Z. change (2 ^ 32)%Z with 4294967296%Z in Hu.
  Z.div_mod_to_equations. lia.
Qed.

Lemma setInt32_spec view byteOffset value b0 b1 b2 b3 :
  DataView.in_range view byteOffset = true →
  DataView.bytes_of value = (b0, b1, b2, b3) →
  let k := Z.to_nat byteOffset in
  ∃ view',
    DataView.setInt32 view byteOffset value = Done view'
    ∧ length view' = length view
    ∧ view' !! k = Some b0 ∧ view' !! (k + 1) = Some b1
    ∧ view' !! (k + 2) = Some b2 ∧ view' !! (k + 3) = Some b3
    ∧ ∀ j, j < k ∨ k + 4 ≤ j → view' !! j = view !! j.
Proof.
  intros Hin Hbytes k. unfold DataView.setInt32. rewrite Hin, Hbytes.
  apply bool_decide_eq_true in Hin.
  eexists. split; [done|]. fold k.
  assert (k + 4 ≤ length view) as Hk by lia.
  split_and!.
  - by rewrite !length_insert.
  - rewrite !list_lookup_insert_ne by lia.
    apply list_lookup_insert_eq. lia.
  - rewrite !list_lookup_insert_ne by lia.
    apply list_lookup_insert_eq. rewrite !length_insert. lia.
  - rewrite !list_lookup_insert_ne by lia.
    apply list_lookup_insert_eq. rewrite !length_insert. lia.
  - apply list_lookup_insert_eq. rewrite !length_insert. lia.
  - intros j Hj. by rewrite !list_lookup_insert_ne by lia.
Qed.

Lemma getInt32_spec view byteOffset b0 b1 b2 b3 :
  DataView.in_range view byteOffset = true →
  let k := Z.to_nat byteOffset in
  view !! k = Some b0 → view !! (k + 1) = Some b1 →
  view !! (k + 2) = Some b2 → view !! (k + 3) = Some b3 →
  DataView.getInt32 view byteOffset = Done (DataView.value_of b0 b1 b2 b3).
Proof.
  intros Hin k H0 H1 H2 H3. unfold DataView.getInt32.
  rewrite Hin. fold k. by rewrite H0, H1, H2, H3.
Qed.

Lemma getInt32_ext view view' byteOffset :
  length view' = length view →
  (DataView.in_range view byteOffset = true →
   ∀ j, Z.to_nat byteOffset ≤ j < Z.to_nat byteOffset + 4 →
        view' !! j = view !! j) →
  DataView.getInt32 view' byteOffset = DataView.getInt32 view byteOffset.
Proof.
  intros Hlen Hsame. unfold DataView.getInt32.
  assert (DataView.in_range view' byteOffset
          = DataView.in_range view byteOffset) as ->.
  { unfold DataView.in_range. by rewrite Hlen. }
  destruct (DataView.in_range view byteOffset) eqn:Hin; [|done]. cbv zeta.
  by rewrite !Hsame by (done || lia).
Qed.

Lemma getInt32_in_range view byteOffset :
  DataView.getInt32 view byteOffset = Throw
  ↔ DataView.in_range view byteOffset = false.
Proof.
  unfold DataView.getInt32.
  destruct (DataView.in_range view byteOffset) eqn:Hin; [|done].
  apply bool_decide_eq_true in Hin. cbv zeta.
  set (k := Z.to_nat byteOffset).
  destruct (lookup_lt_is_Some_2 view k) as [b0 ->]; [lia|].
  destruct (lookup_lt_is_Some_2 view (k + 1)) as [b1 ->]; [lia|].
  destruct (lookup_lt_is_Some_2 view (k + 2)) as [b2 ->]; [lia|].
  destruct (lookup_lt_is_Some_2 view (k + 3)) as [b3 ->]; [lia|].
  done.
Qed.

Lemma setInt32_Done view byteOffset value view' :
  DataView.setInt32 view byteOffset value = Done view' →
  DataView.in_range view byteOffset = true
  ∧ length view' = length view
  ∧ ∀ j, j < Z.to_nat byteOffset ∨ Z.to_nat byteOffset + 4 ≤ j →
         view' !! j = view !! j.
Proof.
  intros Hset.
  destruct (DataView.in_range view byteOffset) eqn:Hin.
  2:{ unfold DataView.setInt32 in Hset. by rewrite Hin in Hset. }
  destruct (DataView.bytes_of value) as [[[b0 b1] b2] b3] eqn:Hbytes.
  destruct (setInt32_spec view byteOffset value b0 b1 b2 b3 Hin Hbytes)
    as (v & Hv & Hlen & _ & _ & _ & _ & Hrest).
  rewrite Hset in Hv. injection Hv as <-. done.
Qed.

(** X8. What [set] stores. On a state of the constructor's size and for
    a register from 0 to 1021, [set(register, min, max)] succeeds;
    afterwards [get_max(register)] is [max] (as a signed 32-bit
    integer), but [get_min(register)] is not [min]: the two values are
    written one byte apart, so the maximum overwrites the three low
    bytes of the minimum, and [get_min] reads the top byte of [min]
    followed by the three high bytes of [max]. *)
Theorem set_stores_max_over_min (this : DfState.t) (register min max : Z) :
  DfState.sized this →
  (0 ≤ register ≤ 1021)%Z →
  ∃ this',
    DfState.set this register min max = Done this'
    ∧ DfState.sized this'
    ∧ DfState.get_max this' register = Done (DataView.to_int32 max)
    ∧ DfState.get_min this' register
      = Done (DataView.to_int32
                ((min mod 2 ^ 32) / 2 ^ 24 * 2 ^ 24
                 + (max mod 2 ^ 32) / 2 ^ 8)).
Proof.
  unfold DfState.sized. intros Hsize Hreg.
  destruct (DataView.bytes_of min) as [[[m0 m1] m2] m3] eqn:Hmin.
  destruct (DataView.bytes_of max) as [[[x0 x1] x2] x3] eqn:Hmax.
  set (k := Z.to_nat (2 * register)).
  assert (Z.to_nat (2 * register + 1) = k + 1) as Hk by lia.
  destruct (setInt32_spec (DfState.registers this) (2 * register) min
              m0 m1 m2 m3) as (v1 & Hset1 & Hlen1 & Hm0 & _ & _ & _ & _);
    [apply bool_decide_eq_true; lia|done|].
  destruct (setInt32_spec v1 (2 * register + 1) max x0 x1 x2 x3)
    as (v2 & Hset2 & Hlen2 & Hx0 & Hx1 & Hx2 & Hx3 & Hrest);
    [apply bool_decide_eq_true; lia|done|].
  rewrite Hk in Hx0, Hx1, Hx2, Hx3, Hrest.
  exists {| DfState.registers := v2 |}. split_and!.
  - unfold DfState.set. rewrite Hset1. cbn. by rewrite Hset2.
  - cbn [DfState.registers]. by rewrite Hlen2, Hlen1.
  - unfold DfState.get_max. cbn.
    rewrite (getInt32_spec v2 (2 * register + 1) x0 x1 x2 x3);
      rewrite ?Hk; [|apply bool_decide_eq_true; lia|done..].
    f_equal. by apply bytes_of_value_of.
  - unfold DfState.get_min. cbn.
    rewrite (getInt32_spec v2 (2 * register) m0 x0 x1 x2);
      fold k; [|apply bool_decide_eq_true; lia| |
               by replace (k + 1 + 0) with (k + 1) in Hx0 by lia|
               by replace (k + 2) with (k + 1 + 1) by lia|
               by replace (k + 3) with (k + 1 + 2) by lia].
    2:{ rewrite Hrest by lia. done. }
    f_equal. unfold DataView.value_of. f_equal.
    destruct (bytes_of_shifted _ _ _ _ _ Hmax) as [<- _].
    destruct (bytes_of_shifted _ _ _ _ _ Hmin) as [_ <-].
    change (2 ^ 24)%Z with 16777216%Z. lia.
Qed.

Lemma set_stores_max_over_min_witness :
  DfState.sized (DfState.new Datatypes.None)
  ∧ ∃ this',
      DfState.set (DfState.new Datatypes.None) 3 5 5 = Done this'
      ∧ DfState.get_max this' 3 = Done 5%Z
      ∧ DfState.get_min this' 3 = Done 0%Z.
Proof.
  split; [reflexivity|].
  destruct (set_stores_max_over_min (DfState.new Datatypes.None) 3 5 5)
    as (this' & Hset & _ & Hmax & Hmin); [reflexivity|lia|].
  exists this'. split; [exact Hset|]. split; [exact Hmax|exact Hmin].
Defined.

(** X9. Registers three or more apart do not interfere: [set] on a
    register leaves [get_min] and [get_max] of every register at least
    three away as they were. (Closer registers share bytes of the
    buffer: a register's values occupy the five bytes from twice its
    number.) *)
Theorem set_leaves_distant_registers (this this' : DfState.t)
    (register min max other : Z) :
  DfState.set this register min max = Done this' →
  (other + 3 ≤ register ∨ register + 3 ≤ other)%Z →
  DfState.get_min this' other = DfState.get_min this other
  ∧ DfState.get_max this' other = DfState.get_max this other.
Proof.
  unfold DfState.set. intros (v1 & Hset1 & Hset)%bind_Done Hfar.
  apply bind_Done in Hset as (v2 & Hset2 & [= <-]).
  apply setInt32_Done in Hset1 as (Hin1 & Hlen1 & Hrest1).
  apply setInt32_Done in Hset2 as (Hin2 & Hlen2 & Hrest2).
  apply bool_decide_eq_true in Hin1, Hin2.
  unfold DfState.get_min, DfState.get_max. cbn [DfState.registers].
  split; apply getInt32_ext; try congruence.
  - intros Hin%bool_decide_eq_true j Hj.
    rewrite Hrest2, Hrest1 by lia. done.
  - intros Hin%bool_decide_eq_true j Hj.
    rewrite Hrest2, Hrest1 by lia. done.
Qed.

Lemma set_leaves_distant_registers_witness :
  ∃ this this',
    DfState.set (DfState.new Datatypes.None) 3 5 5 = Done this
    ∧ DfState.set this 6 7 7 = Done this'
    ∧ DfState.get_max this' 3 = DfState.get_max this 3
    ∧ DfState.get_max this 3 = Done 5%Z.
Proof.
  destruct (DfState.set (DfState.new Datatypes.None) 3 5 5) as [this| |]
    eqn:Hset; [|vm_compute in Hset; discriminate..].
  destruct (DfState.set this 6 7 7) as [this'| |] eqn:Hset'.
  2, 3: vm_compute in Hset; injection Hset as <-;
        vm_compute in Hset'; discriminate.
  exists this, this'. split; [reflexivity|]. split; [exact Hset'|]. split.
  - apply (set_leaves_distant_registers this this' 6 7 7 3 Hset'). lia.
  - vm_compute in Hset. injection Hset as <-. vm_compute. reflexivity.
Defined.

(** X10. Which registers a state accepts. On a state of the
    constructor's size (2048 bytes), [get_max] and [set] throw a
    [RangeError] exactly for registers below 0 or above 1021, and
    [get_min] exactly for registers below 0 or above 1022; register
    numbers from 256 on are not rejected. *)
Theorem register_range (this : DfState.t) (register : Z) :
  DfState.sized this →
  (DfState.get_min this register = Throw
   ↔ (register < 0 ∨ 1022 < register)%Z)
  ∧ (DfState.get_max this register = Throw
     ↔ (register < 0 ∨ 1021 < register)%Z)
  ∧ (∀ min max,
       DfState.set this register min max = Throw
       ↔ (register < 0 ∨ 1021 < register)%Z).
Proof.
  unfold DfState.sized. intros Hsize. split_and!.
  - unfold DfState.get_min. rewrite getInt32_in_range.
    unfold DataView.in_range. rewrite bool_decide_eq_false, Hsize. lia.
  - unfold DfState.get_max. rewrite getInt32_in_range.
    unfold DataView.in_range. rewrite bool_decide_eq_false, Hsize. lia.
  - intros min max. unfold DfState.set, DataView.setInt32.
    destruct (DataView.bytes_of min) as [[[m0 m1] m2] m3].
    destruct (DataView.bytes_of max) as [[[x0 x1] x2] x3].
    unfold DataView.in_range. rewrite Hsize.
    case_bool_decide as H1; cbn [mbind outcome_bind]; [|split; [lia|done]].
    rewrite !length_insert, Hsize.
    case_bool_decide as H2; cbn [mbind outcome_bind]; [|split; [lia|done]].
    split; [done|lia].
Qed.

Lemma register_range_witness :
  DfState.sized (DfState.new Datatypes.None)
  ∧ DfState.get_max (DfState.new Datatypes.None) 1021 = Done 0%Z
  ∧ DfState.get_max (DfState.new Datatypes.None) 1022 = Throw.
Proof.
  split; [reflexivity|]. split; [vm_compute; reflexivity|].
  apply (register_range (DfState.new Datatypes.None) 1022); [reflexivity|].
  lia.
Defined.

(** * The execution loop *)

Lemma execution_round_again {M} (ops : Machine M) breakpoints d d1 :
  execution_round ops breakpoints d = Again d1 →
  quest (runner d1) = quest (runner d)
  ∧ stepping_breakpoints (runner d1) = stepping_breakpoints (runner d)
  ∧ break_on_next (runner d1) = false
  ∧ execution_location d1 = execution_location d.
Proof.
  unfold execution_round.
  destruct (execute ops (machine d)) as [result m].
  destruct (get_current_source_location ops m) as [srcloc|];
    [destruct (hit_breakpoint _ breakpoints srcloc); [done|]|];
    destruct result; try done; by intros [= <-].
Qed.

Lemma execution_round_break {M} (ops : Machine M) breakpoints d d' :
  execution_round ops breakpoints d = Break d' →
  quest (runner d') = quest (runner d)
  ∧ exit_state ops breakpoints d d'.
Proof.
  unfold execution_round, exit_state, stopped_after_one.
  destruct (execute ops (machine d)) as [result m] eqn:Hexecute. cbn [snd].
  assert (match result with
          | ExecutionResult.WaitingVsync =>
              Again (continue_with ops
                       (set_break_on_next false
                          (set_vm (view ops m) (runner d)))
                       (vsync ops m) 1 d)
          | ExecutionResult.WaitingInput =>
              Again (continue_with ops
                       (set_break_on_next false
                          (set_vm (view ops m) (runner d))) m 1 d)
          | ExecutionResult.WaitingSelection =>
              Again (continue_with ops
                       (set_break_on_next false
                          (set_vm (view ops m) (runner d)))
                       (list_select ops 0 m) 1 d)
          | ExecutionResult.Halted =>
              Break {| runner :=
                         set_break_on_next false
                           (set_vm (view ops m) (runner d));
                       machine := m;
                       scheduled_frames := scheduled_frames d;
                       execution_location := Datatypes.None |}
          | ExecutionResult.Ok =>
              Again (continue_with ops
                       (set_break_on_next false
                          (set_vm (view ops m) (runner d))) m 0 d)
          end = Break d' →
          result = ExecutionResult.Halted ∧ machine d' = m
          ∧ execution_location d' = Datatypes.None
          ∧ break_on_next (runner d') = false
          ∧ stepping_breakpoints (runner d')
            = stepping_breakpoints (runner d)
          ∧ quest (runner d') = quest (runner d)) as Hswitch.
  { destruct result; try done. by intros [= <-]. }
  destruct (get_current_source_location ops m) as [srcloc|] eqn:Hloc.
  2:{ intros (-> & <- & ? & ? & ? & ?)%Hswitch. split; [done|]. right.
      split; [by eexists|done]. }
  destruct (hit_breakpoint _ breakpoints srcloc) eqn:Hhit.
  2:{ intros (-> & <- & ? & ? & ? & ?)%Hswitch. split; [done|]. right.
      split; [by eexists|done]. }
  intros [= <-]. split; [done|]. left. exists srcloc. cbn.
  split_and!; [done..| |done].
  unfold hit_breakpoint in Hhit. cbn in Hhit.
  apply orb_true_iff in Hhit as [Hhit|Hhit];
    [apply orb_true_iff in Hhit as [Hhit|Hhit]|].
  - by right; right.
  - left. by apply bool_decide_eq_true in Hhit.
  - right; left. by apply bool_decide_eq_true in Hhit.
Qed.

Lemma exit_state_later {M} (ops : Machine M) breakpoints (d d1 d' : Debugger M) :
  stepping_breakpoints (runner d1) = stepping_breakpoints (runner d) →
  break_on_next (runner d1) = false →
  exit_state ops breakpoints d1 d' → exit_state ops breakpoints d d'.
Proof.
  intros Hbps Hoff
    [(srcloc & Hloc & Hexec & Hclear & Hhit & Hflag)|(Hhalt & Hrest)].
  - assert (break_on_next (runner d') = false) as Hoff'.
    { destruct (break_on_next (runner d')); [|done].
      destruct (Hflag eq_refl). congruence. }
    left. exists srcloc. split_and!; [done..| |by rewrite Hoff'].
    rewrite <-Hbps. destruct Hhit as [?|[?|?]]; [by left|by right; left|].
    congruence.
  - right. split; [done|]. by rewrite <-Hbps.
Qed.

(** X11. How an invocation of [execution_loop] ends. Waiting results of
    the machine do not end it (the loop requests a frame and goes
    round again at once); it returns only
    - at an instruction with a source location whose line is a
      breakpoint of the editor or a stepping breakpoint, or that was
      executed while [break_on_next] was set: then the stepping
      breakpoints are cleared and the editor shows that line; or
    - right after the machine reported that it halted: then the editor
      shows no line, the stepping breakpoints are untouched and
      [break_on_next] is off.
    [break_on_next] is still set on return only if it was set at the
    start and the loop stopped right after the first instruction. *)
Theorem execution_loop_returns_at_breakpoint_or_halt {M : Type}
    (ops : Machine M) (breakpoints : list Z) (fuel : nat)
    (d d' : Debugger M) :
  execution_loop ops breakpoints fuel d = Done d' →
  (∃ srcloc,
      get_current_source_location ops (machine d') = Some srcloc
      ∧ execution_location d' = Some (line_no srcloc)
      ∧ stepping_breakpoints (runner d') = []
      ∧ (line_no srcloc ∈ breakpoints
         ∨ line_no srcloc ∈ stepping_breakpoints (runner d)
         ∨ break_on_next (runner d') = true)
      ∧ (break_on_next (runner d') = true →
         break_on_next (runner d) = true
         ∧ d' = stopped_after_one ops srcloc d))
  ∨ ((∃ m, execute ops m = (ExecutionResult.Halted, machine d'))
     ∧ execution_location d' = Datatypes.None
     ∧ break_on_next (runner d') = false
     ∧ stepping_breakpoints (runner d') = stepping_breakpoints (runner d)).
Proof.
  revert d.
  change (∀ d, execution_loop ops breakpoints fuel d = Done d' →
               exit_state ops breakpoints d d').
  induction fuel as [|fuel IH]; intros d; [done|].
  cbn [execution_loop].
  destruct (execution_round ops breakpoints d) as [d1|d1] eqn:Hround.
  - intros [= <-]. by apply execution_round_break in Hround as [_ Hexit].
  - apply execution_round_again in Hround as (_ & Hbps & Hoff & _).
    intros Hexit%IH. by eapply exit_state_later.
Qed.

Lemma execution_loop_returns_at_breakpoint_or_halt_witness :
  ∃ d',
    execution_loop line_machine [13%Z] 5 (line_debugger false) = Done d'
    ∧ machine d' = 1
    ∧ execution_location d' = Some 11%Z
    ∧ stepping_breakpoints (runner d') = [].
Proof.
  destruct (execution_loop line_machine [13%Z] 5 (line_debugger false))
    as [d'| |] eqn:Hrun; [|vm_compute in Hrun; discriminate..].
  exists d'. split; [reflexivity|].
  destruct (execution_loop_returns_at_breakpoint_or_halt _ _ _ _ _ Hrun)
    as [(srcloc & _ & Hexec & Hclear & _)|(_ & Hnone & _)].
  - vm_compute in Hrun. injection Hrun as <-. done.
  - vm_compute in Hrun. injection Hrun as <-. discriminate.
Defined.

Lemma execution_loop_single_step {M} (ops : Machine M) breakpoints fuel d
    srcloc :
  break_on_next (runner d) = true →
  get_current_source_location ops (execute ops (machine d)).2 = Some srcloc →
  execution_loop ops breakpoints (S fuel) d
  = Done (stopped_after_one ops srcloc d).
Proof.
  intros Hon Hloc. cbn [execution_loop].
  unfold execution_round, stopped_after_one.
  destruct (execute ops (machine d)) as [result m]. cbn [snd] in *.
  rewrite Hloc. unfold hit_breakpoint. cbn [break_on_next set_vm].
  by rewrite Hon.
Qed.

(** X12. [break_on_next] makes the loop execute one instruction, and a
    stop does not clear it. When [break_on_next] is set and the
    instruction executed next has a source location, [execution_loop]
    returns right after executing that one instruction, whatever the
    machine's result was, with [break_on_next] still set; so the next
    invocation stops after one instruction again, and so on until an
    instruction without a source location is executed. *)
Theorem break_on_next_survives_the_stop {M : Type} (ops : Machine M)
    (breakpoints : list Z) (fuel : nat) (d : Debugger M)
    (srcloc : AsmToken) :
  break_on_next (runner d) = true →
  get_current_source_location ops (execute ops (machine d)).2 = Some srcloc →
  let d' := stopped_after_one ops srcloc d in
  execution_loop ops breakpoints (S fuel) d = Done d'
  ∧ machine d' = (execute ops (machine d)).2
  ∧ execution_location d' = Some (line_no srcloc)
  ∧ break_on_next (runner d') = true
  ∧ ∀ breakpoints' fuel' srcloc',
      get_current_source_location ops (execute ops (machine d')).2
      = Some srcloc' →
      execution_loop ops breakpoints' (S fuel') d'
      = Done (stopped_after_one ops srcloc' d').
Proof.
  intros Hon Hloc d'. split_and!; [|done|done|done|].
  - by apply execution_loop_single_step.
  - intros breakpoints' fuel' srcloc' Hloc'.
    by apply execution_loop_single_step.
Qed.

Lemma break_on_next_survives_the_stop_witness :
  execution_loop line_machine [] 1 (line_debugger true)
  = Done (stopped_after_one line_machine
            {| line_no := 11; col := 4; len := 3 |} (line_debugger true))
  ∧ break_on_next
      (runner (stopped_after_one line_machine
                 {| line_no := 11; col := 4; len := 3 |}
                 (line_debugger true))) = true.
Proof.
  destruct (break_on_next_survives_the_stop line_machine [] 0
              (line_debugger true) {| line_no := 11; col := 4; len := 3 |})
    as (Hrun & _ & _ & Hon & _); [reflexivity|reflexivity|].
  split; [exact Hrun|exact Hon].
Defined.

(** X13. Stepping over an instruction that is not a call executes
    exactly that instruction. With a quest loaded and the machine at an
    instruction that is not call-classified, [step_over] followed by an
    invocation of [execution_loop] returns right after the machine has
    executed one instruction, provided the machine has a source
    location then; the stepping breakpoints are cleared and the editor
    shows the line of that location. *)
Theorem step_over_then_loop_executes_one {M : Type} (ops : Machine M)
    (breakpoints : list Z) (fuel : nat) (d : Debugger M) (q : QuestModel)
    (src_segment : InstructionSegment) (cur_instr : Instruction)
    (srcloc : AsmToken) :
  let execloc := get_current_execution_location (vm (runner d)) in
  quest (runner d) = Some q →
  object_code q !! seg_idx execloc = Some (InstructionSeg src_segment) →
  instructions src_segment !! inst_idx execloc = Some cur_instr →
  ¬ call_classified cur_instr →
  get_current_source_location ops (execute ops (machine d)).2 = Some srcloc →
  ∃ this' d',
    step_over (runner d) = Done this'
    ∧ execution_loop ops breakpoints (S fuel) (with_runner this' d) = Done d'
    ∧ machine d' = (execute ops (machine d)).2
    ∧ execution_location d' = Some (line_no srcloc)
    ∧ stepping_breakpoints (runner d') = [].
Proof.
  intros execloc Hq Hseg Hinst Hother Hloc.
  exists (set_break_on_next true (runner d)).
  exists (stopped_after_one ops srcloc
            (with_runner (set_break_on_next true (runner d)) d)).
  split_and!; [|by apply execution_loop_single_step|done..].
  by eapply step_over_other.
Qed.

Lemma step_over_then_loop_executes_one_witness :
  ∃ this' d',
    step_over (runner (line_debugger false)) = Done this'
    ∧ execution_loop line_machine [] 1 (with_runner this' (line_debugger false))
      = Done d'
    ∧ machine d' = 1
    ∧ execution_location d' = Some 11%Z.
Proof.
  destruct (step_over_then_loop_executes_one line_machine [] 0
              (line_debugger false) call_quest
              {| labels := [0%Z];
                 instructions :=
                   [ at_line 2 (new_instruction 0 (Opcode.other 0) []);
                     at_line 3 (new_instruction 1 Opcode.call [7%Z]) ] |}
              (at_line 2 (new_instruction 0 (Opcode.other 0) []))
              {| line_no := 11; col := 4; len := 3 |})
    as (this' & d' & Hstep & Hrun & Hm & Hexec & _);
    [reflexivity|reflexivity|reflexivity| |reflexivity|].
  { intros [H|[H|H]]; discriminate H. }
  exists this', d'. split; [exact Hstep|]. split; [exact Hrun|].
  split; [exact Hm|exact Hexec].
Defined.

(** X15. [execution_loop] does not yield while the machine waits. If
    the machine never reports that it halted and no source location it
    reaches is on a breakpoint line, then an invocation of
    [execution_loop] that starts without stepping breakpoints and with
    [break_on_next] off never returns, whatever the machine's results
    are: a result that waits for the next frame, for input or for a
    selection requests a frame and the loop goes on at once. *)
Theorem execution_loop_spins_while_waiting {M : Type} (ops : Machine M)
    (breakpoints : list Z) (fuel : nat) (d : Debugger M) :
  (∀ m, (execute ops m).1 ≠ ExecutionResult.Halted) →
  (∀ m srcloc, get_current_source_location ops m = Some srcloc →
               line_no srcloc ∉ breakpoints) →
  stepping_breakpoints (runner d) = [] →
  break_on_next (runner d) = false →
  execution_loop ops breakpoints fuel d = Diverge.
Proof.
  intros Hrunning Hquiet. revert d.
  induction fuel as [|fuel IH]; intros d Hbps Hoff; [done|].
  cbn [execution_loop].
  destruct (execution_round ops breakpoints d) as [d'|d1] eqn:Hround.
  - exfalso.
    apply execution_round_break in Hround
      as [_ [(srcloc & Hloc & _ & _ & Hhit & Hflag)|((m & Hm) & _)]].
    + destruct Hhit as [Hhit|[Hhit|Hon]].
      * by eapply Hquiet.
      * rewrite Hbps in Hhit. by apply elem_of_nil in Hhit.
      * destruct (Hflag Hon). congruence.
    + apply (Hrunning m). by rewrite Hm.
  - apply execution_round_again in Hround as (_ & Hbps' & Hoff' & _).
    apply IH; congruence.
Qed.

Lemma execution_loop_spins_while_waiting_witness :
  execution_loop waiting_machine [] 50 waiting_debugger = Diverge.
Proof.
  apply execution_loop_spins_while_waiting.
  - intros m. discriminate.
  - intros m srcloc _ Hin. by apply elem_of_nil in Hin.
  - reflexivity.
  - reflexivity.
Defined.

(** * Stepping where there is nothing to step to *)

Lemma get_instruction_segment_by_index_throws this index :
  (∀ q s, quest this = Some q →
          object_code q !! index ≠ Some (InstructionSeg s)) →
  get_instruction_segment_by_index this index = Throw.
Proof.
  intros Hnone. unfold get_instruction_segment_by_index.
  destruct (quest this) as [q|]; [|done].
  destruct (object_code q !! index) as [[s| |]|] eqn:Hs; try done.
  by destruct (Hnone q s).
Qed.

(** X14. Where stepping fails or does nothing.
    - Without a loaded quest, or when the machine's current segment is
      not an instruction segment of the quest, or when the current
      segment has no instruction at the machine's instruction index,
      [step_over] and [step_in] throw.
    - [step_over] on a call that is the last instruction of its segment
      throws when the next segment is missing or is not an instruction
      segment, or has no instructions.
    - [step_over] on a call whose following instruction carries no
      source token leaves the runner unchanged: no stepping breakpoint
      is set and [break_on_next] is untouched. *)
Theorem stepping_edge_cases (this : QuestRunner) :
  let execloc := get_current_execution_location (vm this) in
  ((∀ q s, quest this = Some q →
           object_code q !! seg_idx execloc ≠ Some (InstructionSeg s)) →
   step_over this = Throw ∧ step_in this = Throw)
  ∧ (∀ q s,
       quest this = Some q →
       object_code q !! seg_idx execloc = Some (InstructionSeg s) →
       instructions s !! inst_idx execloc = Datatypes.None →
       step_over this = Throw ∧ step_in this = Throw)
  ∧ (∀ q s cur label,
       quest this = Some q →
       object_code q !! seg_idx execloc = Some (InstructionSeg s) →
       instructions s !! inst_idx execloc = Some cur →
       call_target cur = Some label →
       inst_idx execloc + 1 = length (instructions s) →
       (∀ s', object_code q !! (seg_idx execloc + 1)
              = Some (InstructionSeg s') →
              instructions s' = []) →
       step_over this = Throw)
  ∧ (∀ q s cur label next,
       quest this = Some q →
       object_code q !! seg_idx execloc = Some (InstructionSeg s) →
       instructions s !! inst_idx execloc = Some cur →
       call_target cur = Some label →
       instructions s !! (inst_idx execloc + 1) = Some next →
       source_line next = Datatypes.None →
       step_over this = Done this).
Proof.
  cbv zeta. split_and!.
  - intros Hnone.
    pose proof (get_instruction_segment_by_index_throws this
                  _ Hnone) as Hthrow.
    unfold step_over, step_in. rewrite Hthrow.
    by destruct (quest this).
  - intros q s Hq Hs Hnone.
    unfold step_over, step_in.
    rewrite (current_segment this q s Hq Hs), Hq. cbn.
    by rewrite Hnone.
  - intros q s cur label Hq Hs Hcur Hcall Hlast Hnext.
    unfold step_over.
    rewrite (current_segment this q s Hq Hs), Hq. cbn. rewrite Hcur.
    rewrite (label_argument_call cur label Hcall). cbn.
    destruct (decide _) as [_|?]; [|lia]. cbn.
    unfold get_instruction_segment_by_index. rewrite Hq.
    destruct (object_code q
                !! (seg_idx (get_current_execution_location (vm this)) + 1))
      as [[s'| |]|] eqn:Hs'; try done.
    cbn. by rewrite (Hnext s' eq_refl).
  - intros q s cur label next Hq Hs Hcur Hcall Hnext Hline.
    unfold step_over.
    rewrite (current_segment this q s Hq Hs), Hq. cbn. rewrite Hcur.
    rewrite (label_argument_call cur label Hcall). cbn.
    apply lookup_lt_Some in Hnext as Hlt.
    destruct (decide _) as [?|_]; [lia|]. cbn.
    rewrite (current_segment this q s Hq Hs). cbn. rewrite Hnext.
    unfold source_line in Hline. unfold break_at.
    destruct (asm next) as [[[tok|] ?]|]; done.
Qed.

Lemma stepping_edge_cases_witness :
  step_over (runner_at 2 0)
  = Done (push_stepping_breakpoint 8 (runner_at 2 0))
  ∧ step_over (runner_at 0 1)
    = Done (push_stepping_breakpoint 5 (runner_at 0 1))
  ∧ step_over (runner_at 0 7) = Throw
  ∧ step_in (runner_at 5 0) = Throw.
Proof.
  split; [vm_compute; reflexivity|]. split; [vm_compute; reflexivity|].
  destruct (stepping_edge_cases (runner_at 0 7)) as (_ & Hinst & _).
  destruct (stepping_edge_cases (runner_at 5 0)) as (Hseg & _).
  split.
  - refine (proj1 (Hinst call_quest _ eq_refl eq_refl eq_refl)).
  - apply Hseg. intros q s [= <-]. discriminate.
Defined.

(** * Stepping and the execution loop *)





